(** * vite-plugin-shadcn-registry: the graph-analysis core

    A shallow embedding of [src/index.ts]: the classifier
    ([getShadcnItemMeta], [getRegistryItemName]), the graph walker
    ([getHoistedImportedIds]), the closure builder
    ([createShadcnItemDependencies]) and the registry store
    ([RegistryImpl]), followed by the properties proved about them; then
    the hooks around that core ([options], [buildStart], [load],
    [buildEnd], [generateBundle]) and what holds of the whole.

    JavaScript strings are modelled as [string]; a [Map] as an
    insertion-ordered association list with unique keys, a [Set] as an
    insertion-ordered list without duplicates; [throw] as a value of an
    error type; the one unbounded [while] loop of the closure builder and
    the loop of the walker take fuel. *)

From Stdlib Require Import String Ascii List Bool Arith Lia Relations.
From Stdlib Require DecimalString DecimalNat.
Import ListNotations.
Open Scope string_scope.
Open Scope list_scope.

(* ================================================================= *)
(** ** Part I. Definitions *)
(* ================================================================= *)

(** *** JavaScript strings *)

(** [s.startsWith(p)] *)
Definition startsWith (s p : string) : bool := String.prefix p s.

(** [s.includes(p)] *)
Fixpoint includes (s p : string) : bool :=
  if String.prefix p s then true
  else match s with
       | EmptyString => false
       | String _ s' => includes s' p
       end.

(** The marker of build-tool-private modules, ["\0"]. *)
Definition NUL : string := String Ascii.zero EmptyString.

(** *** JavaScript [Map<string, V>]: insertion order, unique keys *)

Module JsMap.
Definition t (V : Type) : Type := list (string * V).

Definition empty {V} : t V := [].

Fixpoint get {V} (m : t V) (k : string) : option V :=
  match m with
  | [] => None
  | (k', v) :: m' => if String.eqb k' k then Some v else get m' k
  end.

(** [m.set(k, v)]: an existing key keeps its position, a new key goes last. *)
Fixpoint set {V} (m : t V) (k : string) (v : V) : t V :=
  match m with
  | [] => [(k, v)]
  | (k', v') :: m' =>
      if String.eqb k' k then (k, v) :: m' else (k', v') :: set m' k v
  end.

Definition entries {V} (m : t V) : list (string * V) := m.
Definition keys {V} (m : t V) : list string := map fst m.
Definition values {V} (m : t V) : list V := map snd m.
Definition size {V} (m : t V) : nat := length m.

(** [new Map(entries)] *)
Definition of_entries {V} (es : list (string * V)) : t V :=
  fold_left (fun m e => set m (fst e) (snd e)) es empty.

(** What every value built by [empty], [set] and [of_entries] satisfies. *)
Definition wf {V} (m : t V) : Prop := NoDup (keys m).
End JsMap.

(** *** JavaScript [Set<string>] *)

Module JsSet.
Definition t : Type := list string.

Definition empty : t := [].

Definition has (s : t) (x : string) : bool := existsb (String.eqb x) s.

Definition add (s : t) (x : string) : t := if has s x then s else s ++ [x].

Definition values (s : t) : list string := s.
End JsSet.

(** [xs.includes(x)] on an array of strings *)
Definition array_includes (xs : list string) (x : string) : bool :=
  existsb (String.eqb x) xs.

(** *** Errors and the two result types *)

Inductive error : Type :=
| MissingRecord   (** [throw new Error()] of the closure builder *)
| ModuleInfoNotFound (** [throw new Error(`Unable to find info ...`)] *)
| UnableToResolve (** [throw new Error(`Unable to resolve ...`)] *)
| InvalidFileURL. (** [new URL] or [fileURLToPath] threw *)

Inductive result (A : Type) : Type :=
| Ok (a : A)
| Throw (e : error).
Arguments Ok {A} a.
Arguments Throw {A} e.

Definition bind {A B} (r : result A) (k : A -> result B) : result B :=
  match r with
  | Ok a => k a
  | Throw e => Throw e
  end.

Notation "x <- r ;; k" := (bind r (fun x => k))
  (at level 61, r at next level, right associativity).

(** A loop run with fuel: [None] when the fuel ran out before the loop ended. *)
Definition fueled (A : Type) : Type := option (result A).

Definition fbind {A B} (r : fueled A) (k : A -> fueled B) : fueled B :=
  match r with
  | None => None
  | Some (Throw e) => Some (Throw e)
  | Some (Ok a) => k a
  end.

(** [xs.map(f)] where [f] may throw: the first failure aborts the map. *)
Fixpoint mapM {A B} (f : A -> result B) (xs : list A) : result (list B) :=
  match xs with
  | [] => Ok []
  | x :: xs' => y <- f x ;; ys <- mapM f xs' ;; Ok (y :: ys)
  end.

(** A [for ... of] loop over [xs] whose body may throw. *)
Fixpoint foldM {A S} (body : S -> A -> result S) (xs : list A) (s : S) : result S :=
  match xs with
  | [] => Ok s
  | x :: xs' => s' <- body s x ;; foldM body xs' s'
  end.

(** *** Data model *)

(** [ShadcnItemType = RegistryItemType | "registry:shadcn" | "external"].
    [RegistryItemType] is declared by the [shadcn-vue] package; the members
    the plugin never names are carried by their tag. *)
Inductive ShadcnItemType : Type :=
| registry_shadcn
| registry_component
| registry_hook
| registry_lib
| registry_internal
| external
| registry_other (tag : string).

Record ShadcnItemMeta : Type := {
  name : string;
  type : ShadcnItemType
}.

Record ShadcnItem : Type := {
  meta : ShadcnItemMeta;
  modules : list string;
  code : option string
}.

Record RegistryItemFile : Type := {
  file_type : string;
  path : string;
  target : string;
  content : option string
}.

Record ShadcnItemDependencies : Type := {
  dependencies : list string;
  registryDependencies : list string;
  files : list RegistryItemFile
}.

Record RegistryItem : Type := {
  item_name : string;
  item_type : ShadcnItemType;
  item_files : list RegistryItemFile;
  item_dependencies : list string;
  item_registryDependencies : list string
}.

(** What the plugin reads of rollup's [ModuleInfo];
    [sourceCode] is [meta["shadcn-registry"]?.sourceCode]. *)
Record ModuleInfo : Type := {
  id : string;
  importedIds : list string;
  dynamicallyImportedIds : list string;
  sourceCode : option string
}.

(** Rollup's [ResolvedId]: [external] is [boolean | "absolute"]. *)
Inductive ExternalFlag : Type :=
| external_bool (b : bool)
| external_absolute.

Record ResolvedId : Type := {
  resolved_id : string;
  resolved_external : ExternalFlag
}.

(** [true === external] *)
Definition is_true_external (e : ExternalFlag) : bool :=
  match e with
  | external_bool b => b
  | external_absolute => false
  end.

(** *** [node:path] (POSIX flavour), as far as the plugin calls it

    [join], [relative] and [parse] are library functions; they are modelled
    on path segments.  [cwd] stands for [process.cwd()], which [relative]
    consults only for arguments that are not absolute. *)

Module Path.
Definition slash : ascii := "/"%char.
Definition dot : ascii := "."%char.

(** [s.split("/")] *)
Fixpoint split_slash (s : string) : list string :=
  match s with
  | EmptyString => [EmptyString]
  | String c s' =>
      if Ascii.eqb c slash then EmptyString :: split_slash s'
      else match split_slash s' with
           | [] => [String c EmptyString]
           | seg :: segs => String c seg :: segs
           end
  end.

(** [segs.join("/")] *)
Definition join_slash (segs : list string) : string := String.concat "/" segs.

Definition isAbsolute (p : string) : bool := startsWith p "/".

Fixpoint endsWithSlash (p : string) : bool :=
  match p with
  | EmptyString => false
  | String c EmptyString => Ascii.eqb c slash
  | String _ p' => endsWithSlash p'
  end.

(** [normalizeString]: drops empty and ["."] segments and resolves [".."]
    against the segments kept so far ([stack], innermost first). *)
Fixpoint normalizeSegs (allowAboveRoot : bool) (stack segs : list string)
  : list string :=
  match segs with
  | [] => rev stack
  | s :: rest =>
      if (s =? "") || (s =? ".") then normalizeSegs allowAboveRoot stack rest
      else if s =? ".." then
        match stack with
        | top :: stack' =>
            if top =? ".." then
              normalizeSegs allowAboveRoot
                (if allowAboveRoot then ".." :: stack else stack) rest
            else normalizeSegs allowAboveRoot stack' rest
        | [] =>
            normalizeSegs allowAboveRoot
              (if allowAboveRoot then [".."] else []) rest
        end
      else normalizeSegs allowAboveRoot (s :: stack) rest
  end.

(** [path.normalize(p)] *)
Definition normalize (p : string) : string :=
  if p =? "" then "."
  else
    let body := join_slash (normalizeSegs (negb (isAbsolute p)) [] (split_slash p)) in
    if body =? "" then
      if isAbsolute p then "/" else if endsWithSlash p then "./" else "."
    else
      (if isAbsolute p then "/" else "") ++ body
        ++ (if endsWithSlash p then "/" else "").

(** [path.join(a, b)] *)
Definition join (a b : string) : string :=
  if a =? "" then (if b =? "" then "." else normalize b)
  else if b =? "" then normalize a
  else normalize (a ++ "/" ++ b).

(** [path.resolve(p)], as the list of segments below the root. *)
Definition resolve (cwd p : string) : list string :=
  normalizeSegs false []
    (if isAbsolute p then split_slash p else split_slash cwd ++ split_slash p).

Fixpoint strip_common (a b : list string) : list string * list string :=
  match a, b with
  | x :: a', y :: b' => if x =? y then strip_common a' b' else (a, b)
  | _, _ => (a, b)
  end.

(** [path.relative(from, to)] *)
Definition relative (cwd from to : string) : string :=
  let (f, t) := strip_common (resolve cwd from) (resolve cwd to) in
  join_slash (map (fun _ => "..") f ++ t).

(** The fields of [path.parse(p)] the plugin reads, and [base]/[ext]. *)
Record ParsedPath : Type := {
  dir : string;
  base : string;
  ext : string;
  name : string
}.

Fixpoint drop_empty_front (segs : list string) : list string :=
  match segs with
  | s :: rest => if s =? "" then drop_empty_front rest else segs
  | [] => []
  end.

(** Splits at the last ["."]: what precedes it, and the rest from it on. *)
Fixpoint split_last_dot (s : string) : option (string * string) :=
  match s with
  | EmptyString => None
  | String c s' =>
      match split_last_dot s' with
      | Some (pre, suf) => Some (String c pre, suf)
      | None => if Ascii.eqb c dot then Some (EmptyString, s) else None
      end
  end.

Definition split_ext (b : string) : string * string :=
  match split_last_dot b with
  | None => (b, "")
  | Some (pre, suf) =>
      if (pre =? "") || (b =? "..") then (b, "") else (pre, suf)
  end.

(** [path.parse(p)]: trailing separators are ignored, [base] is the last
    segment, [dir] what precedes the separator in front of it. *)
Definition parse (p : string) : ParsedPath :=
  match drop_empty_front (rev (split_slash p)) with
  | [] =>
      {| dir := if isAbsolute p then "/" else ""; base := ""; ext := ""; name := "" |}
  | b :: dir_rev =>
      let d := join_slash (rev dir_rev) in
      {| dir := if isAbsolute p && (d =? "") then "/" else d;
         base := b;
         ext := snd (split_ext b);
         name := fst (split_ext b) |}
  end.
End Path.

(** [s.replace("/", "")]: only the first occurrence is replaced. *)
Fixpoint remove_first_slash (s : string) : string :=
  match s with
  | EmptyString => EmptyString
  | String c s' => if Ascii.eqb c Path.slash then s' else String c (remove_first_slash s')
  end.

(** *** The plugin

    The library and host functions the plugin calls are parameters:
    - [cwd]: [process.cwd()];
    - [kebabCase]: of the [change-case] package;
    - [fileURLToPath_URL id]: [fileURLToPath(new URL(id, "file://"))],
      [None] when either call throws;
    - [isShadcnComponent], [isComponent], [isComposable], [isUtil]: the
      filters built by [createFilter] from the glob patterns
      [src/components/ui/**], [src/components/*/index.{js,ts}] and
      [src/components/*.{vue,jsx,tsx}], [src/composables/*.{js,ts}] and
      [src/composables/*/index.{js,ts}], [src/utils/*];
    - [resolve], [getModuleInfo]: [this.resolve] and [this.getModuleInfo]
      of rollup's plugin context. *)

Definition SHADCN_REGISTRY_VIRTUAL_MODULE_ID : string :=
  (NUL ++ "virtual:shadcn-registry")%string.

Definition srcDir : string := "src".
Definition uiComponentsDir : string := Path.join srcDir "components/ui".
Definition componentsDir : string := Path.join srcDir "components".
Definition composablesDir : string := Path.join srcDir "composables".

Section Plugin.
Variable cwd : string.
Variable kebabCase : string -> string.
Variable fileURLToPath_URL : string -> option string.
Variables isShadcnComponent isComponent isComposable isUtil : string -> bool.
Variable resolve : string -> option ResolvedId.
Variable getModuleInfo : string -> option ModuleInfo.

(** **** Path helpers *)

Definition getRegistryItemPath (id : string) : result string :=
  match fileURLToPath_URL id with
  | Some p => Ok p
  | None => Throw InvalidFileURL
  end.

Definition getLocalFilePath (id configRootDir : string) : result string :=
  path <- getRegistryItemPath id ;;
  Ok (Path.relative cwd configRootDir path).

Definition getRegistryItemName (id configRootDir registryItemType : string)
  : result string :=
  itemPath <- getRegistryItemPath id ;;
  let rootDir := Path.join configRootDir registryItemType in
  let parsed := Path.parse (Path.relative cwd rootDir itemPath) in
  let dir := remove_first_slash (Path.dir parsed) in
  let itemName := kebabCase (if dir =? "" then Path.name parsed else dir) in
  Ok itemName.

(** **** Classifier *)

Definition getShadcnItemMeta (configRootDir : string) (resolvedId : ResolvedId)
  : result ShadcnItemMeta :=
  let moduleId := resolved_id resolvedId in
  if isShadcnComponent moduleId then
    n <- getRegistryItemName moduleId configRootDir uiComponentsDir ;;
    Ok {| type := registry_shadcn; name := n |}
  else if isComponent moduleId then
    n <- getRegistryItemName moduleId configRootDir componentsDir ;;
    Ok {| type := registry_component; name := n |}
  else if isComposable moduleId then
    n <- getRegistryItemName moduleId configRootDir composablesDir ;;
    Ok {| type := registry_hook; name := n |}
  else if isUtil moduleId then
    n <- getRegistryItemName moduleId configRootDir srcDir ;;
    Ok {| type := registry_lib; name := n |}
  else if is_true_external (resolved_external resolvedId) then
    Ok {| type := external; name := moduleId |}
  else
    Ok {| type := registry_internal; name := moduleId |}.

(** **** Graph walker *)

Definition moduleInfoOrThrow (id : string) : result ModuleInfo :=
  match getModuleInfo id with
  | Some moduleInfo => Ok moduleInfo
  | None => Throw ModuleInfoNotFound
  end.

(** The imports of one module, as the walker lists them. *)
Definition walkerImportedIds (moduleInfo : ModuleInfo) : list string :=
  importedIds moduleInfo ++ dynamicallyImportedIds moduleInfo.

(** [moduleIdsToProcess.map(...).flatMap(...)] *)
Definition expandFrontier (moduleIdsToProcess : list string) : result (list string) :=
  infos <- mapM moduleInfoOrThrow moduleIdsToProcess ;;
  Ok (flat_map walkerImportedIds infos).

(** The [while (moduleIdsToProcess.length)] loop. *)
Fixpoint walkLoop (fuel : nat) (moduleIdsToProcess : list string)
  (hoistedImportedIds : JsSet.t) : fueled JsSet.t :=
  match moduleIdsToProcess with
  | [] => Some (Ok hoistedImportedIds)
  | _ :: _ =>
      match fuel with
      | O => None
      | S fuel' =>
          match expandFrontier moduleIdsToProcess with
          | Throw e => Some (Throw e)
          | Ok importedIds =>
              let nextModuleIdsToProcess :=
                filter (fun id => negb (JsSet.has hoistedImportedIds id)) importedIds in
              walkLoop fuel' nextModuleIdsToProcess
                (fold_left JsSet.add importedIds hoistedImportedIds)
          end
      end
  end.

Definition getHoistedImportedIds (fuel : nat) (moduleId : string) : fueled JsSet.t :=
  walkLoop fuel [moduleId] JsSet.empty.

(** **** Closure builder *)

(** The three collections [createShadcnItemDependencies] fills. *)
Record ClosureAcc : Type := {
  acc_dependencies : JsSet.t;
  acc_registryDependencies : JsSet.t;
  acc_files : JsMap.t RegistryItemFile
}.

Definition emptyAcc : ClosureAcc :=
  {| acc_dependencies := JsSet.empty;
     acc_registryDependencies := JsSet.empty;
     acc_files := JsMap.empty |}.

(** The seed: the entries of [originalItems] whose key is the target or
    one of its direct imports, in the order of [originalItems]. *)
Definition seedItems (id : string) (originalItems : JsMap.t ShadcnItem)
  : JsMap.t ShadcnItem :=
  let keys :=
    id :: match JsMap.get originalItems id with
          | Some item => modules item
          | None => []
          end in
  let entries :=
    filter (fun e => array_includes keys (fst e)) (JsMap.entries originalItems) in
  JsMap.of_entries entries.

(** [modules.forEach(dependency => ...)] of the [registry:internal] case. *)
Definition enqueueDependency (originalItems : JsMap.t ShadcnItem)
  (nextItems : JsMap.t ShadcnItem) (dependency : string)
  : result (JsMap.t ShadcnItem) :=
  match JsMap.get originalItems dependency with
  | None => Throw MissingRecord
  | Some dependencyItem => Ok (JsMap.set nextItems dependency dependencyItem)
  end.

(** The [default:] case of the switch. *)
Definition addFile (originalItems : JsMap.t ShadcnItem) (configRootDir id : string)
  (acc : ClosureAcc) : result ClosureAcc :=
  if includes id "?" then Ok acc
  else
    path <- getLocalFilePath id configRootDir ;;
    let content :=
      match JsMap.get originalItems id with
      | Some item => code item
      | None => None
      end in
    Ok {| acc_dependencies := acc_dependencies acc;
          acc_registryDependencies := acc_registryDependencies acc;
          acc_files :=
            JsMap.set (acc_files acc) id
              {| file_type := "registry:file";
                 path := path;
                 target := path;
                 content := content |} |}.

(** The body of [for (const [id, { meta, modules }] of items.entries())]. *)
Definition processEntry (originalItems : JsMap.t ShadcnItem) (configRootDir : string)
  (s : JsMap.t ShadcnItem * ClosureAcc) (entry : string * ShadcnItem)
  : result (JsMap.t ShadcnItem * ClosureAcc) :=
  let '(nextItems, acc) := s in
  let '(id, item) := entry in
  if startsWith id NUL then Ok (nextItems, acc)
  else
    match type (meta item) with
    | external =>
        Ok (nextItems,
            {| acc_dependencies := JsSet.add (acc_dependencies acc) id;
               acc_registryDependencies := acc_registryDependencies acc;
               acc_files := acc_files acc |})
    | registry_shadcn =>
        Ok (nextItems,
            {| acc_dependencies := acc_dependencies acc;
               acc_registryDependencies :=
                 JsSet.add (acc_registryDependencies acc) (name (meta item));
               acc_files := acc_files acc |})
    | registry_internal =>
        nextItems' <- foldM (enqueueDependency originalItems) (modules item) nextItems ;;
        acc' <- addFile originalItems configRootDir id acc ;;
        Ok (nextItems', acc')
    | _ =>
        acc' <- addFile originalItems configRootDir id acc ;;
        Ok (nextItems, acc')
    end.

(** One round of the [while (true)] loop: every entry of the frontier. *)
Definition processItems (originalItems : JsMap.t ShadcnItem) (configRootDir : string)
  (items : JsMap.t ShadcnItem) (acc : ClosureAcc)
  : result (JsMap.t ShadcnItem * ClosureAcc) :=
  foldM (processEntry originalItems configRootDir) (JsMap.entries items)
    (JsMap.empty, acc).

Fixpoint closureLoop (fuel : nat) (originalItems : JsMap.t ShadcnItem)
  (configRootDir : string) (items : JsMap.t ShadcnItem) (acc : ClosureAcc)
  : fueled ClosureAcc :=
  match items with
  | [] => Some (Ok acc)
  | _ :: _ =>
      match fuel with
      | O => None
      | S fuel' =>
          match processItems originalItems configRootDir items acc with
          | Throw e => Some (Throw e)
          | Ok (nextItems, acc') =>
              closureLoop fuel' originalItems configRootDir nextItems acc'
          end
      end
  end.

Definition closureResult (acc : ClosureAcc) : ShadcnItemDependencies :=
  {| dependencies := JsSet.values (acc_dependencies acc);
     registryDependencies := JsSet.values (acc_registryDependencies acc);
     files := JsMap.values (acc_files acc) |}.

(** The collections when the loop ends. *)
Definition closureAcc (fuel : nat) (id : string)
  (originalItems : JsMap.t ShadcnItem) (configRootDir : string) : fueled ClosureAcc :=
  closureLoop fuel originalItems configRootDir (seedItems id originalItems) emptyAcc.

Definition createShadcnItemDependencies (fuel : nat) (id : string)
  (originalItems : JsMap.t ShadcnItem) (configRootDir : string)
  : fueled ShadcnItemDependencies :=
  fbind (closureAcc fuel id originalItems configRootDir)
    (fun acc => Some (Ok (closureResult acc))).

(** **** Registry store *)

Record RegistryImpl : Type := {
  registry_name : string;
  registry_homepage : string;
  itemsMap : JsMap.t RegistryItem
}.

Definition newRegistryImpl (name homepage : string) : RegistryImpl :=
  {| registry_name := name; registry_homepage := homepage; itemsMap := JsMap.empty |}.

Definition items (r : RegistryImpl) : list RegistryItem := JsMap.values (itemsMap r).

(** [this.#itemsMap.get(name) || null]; an item is an object, hence truthy. *)
Definition getItem (r : RegistryImpl) (name : string) : option RegistryItem :=
  JsMap.get (itemsMap r) name.

Definition addItem (r : RegistryImpl) (item : RegistryItem) : RegistryImpl :=
  {| registry_name := registry_name r;
     registry_homepage := registry_homepage r;
     itemsMap := JsMap.set (itemsMap r) (item_name item) item |}.

(** **** [buildEnd] *)

(** The record [buildEnd] stores for a module. *)
Definition shadcnItemOf (shadcnItemMeta : ShadcnItemMeta) (moduleInfo : ModuleInfo)
  : ShadcnItem :=
  {| meta := shadcnItemMeta;
     modules := dynamicallyImportedIds moduleInfo ++ importedIds moduleInfo;
     code := sourceCode moduleInfo |}.

(** The body of [for (const moduleId of hoistedImportedIds)]. *)
Definition collectShadcnItem (configRootDir : string)
  (shadcnItems : JsMap.t ShadcnItem) (moduleId : string)
  : result (JsMap.t ShadcnItem) :=
  match resolve moduleId with
  | None => Throw UnableToResolve
  | Some resolvedId =>
      shadcnItemMeta <- getShadcnItemMeta configRootDir resolvedId ;;
      moduleInfo <- moduleInfoOrThrow moduleId ;;
      Ok (JsMap.set shadcnItems (id moduleInfo) (shadcnItemOf shadcnItemMeta moduleInfo))
  end.

(** The body of [for (const [id, shadcnItem] of shadcnItems.entries())]. *)
Definition registerShadcnItem (fuel : nat) (configRootDir : string)
  (shadcnItems : JsMap.t ShadcnItem) (registry : RegistryImpl)
  (entry : string * ShadcnItem) : fueled RegistryImpl :=
  let '(id, shadcnItem) := entry in
  match type (meta shadcnItem) with
  | external | registry_shadcn | registry_internal => Some (Ok registry)
  | ty =>
      fbind (createShadcnItemDependencies fuel id shadcnItems configRootDir)
        (fun deps =>
           Some (Ok (addItem registry
                       {| item_name := name (meta shadcnItem);
                          item_type := ty;
                          item_files := files deps;
                          item_dependencies := dependencies deps;
                          item_registryDependencies := registryDependencies deps |})))
  end.

Fixpoint registerShadcnItems (fuel : nat) (configRootDir : string)
  (shadcnItems : JsMap.t ShadcnItem) (entries : list (string * ShadcnItem))
  (registry : RegistryImpl) : fueled RegistryImpl :=
  match entries with
  | [] => Some (Ok registry)
  | entry :: rest =>
      fbind (registerShadcnItem fuel configRootDir shadcnItems registry entry)
        (registerShadcnItems fuel configRootDir shadcnItems rest)
  end.

Definition buildEnd (fuel : nat) (configRootDir : string) : fueled RegistryImpl :=
  fbind (getHoistedImportedIds fuel SHADCN_REGISTRY_VIRTUAL_MODULE_ID)
    (fun hoistedImportedIds =>
       match foldM (collectShadcnItem configRootDir)
               (JsSet.values hoistedImportedIds) JsMap.empty with
       | Throw e => Some (Throw e)
       | Ok shadcnItems =>
           registerShadcnItems fuel configRootDir shadcnItems
             (JsMap.entries shadcnItems) (newRegistryImpl "some name" "some homepage")
       end).
End Plugin.

(** *** A concrete host

    Executable instances of the parameters of [Plugin], used to run the
    plugin on example projects.  They cover plain POSIX module identities
    (ASCII letters, digits and [/ . _ - @], optionally followed by a query
    or a fragment) and ASCII names; an identity outside that fragment is
    rejected by [Host.fileURLToPath_URL]. *)

Module Host.
Definition is_lower (c : ascii) : bool :=
  let n := nat_of_ascii c in ((97 <=? n) && (n <=? 122))%nat.
Definition is_upper (c : ascii) : bool :=
  let n := nat_of_ascii c in ((65 <=? n) && (n <=? 90))%nat.
Definition is_digit (c : ascii) : bool :=
  let n := nat_of_ascii c in ((48 <=? n) && (n <=? 57))%nat.
Definition is_alnum (c : ascii) : bool := is_lower c || is_upper c || is_digit c.
Definition to_lower (c : ascii) : ascii :=
  if is_upper c then ascii_of_nat (nat_of_ascii c + 32) else c.

Definition is_plain (c : ascii) : bool :=
  is_alnum c || existsb (Ascii.eqb c) ["/"; "."; "_"; "-"; "@"]%char.

Fixpoint all_chars (p : ascii -> bool) (s : string) : bool :=
  match s with
  | EmptyString => true
  | String c s' => p c && all_chars p s'
  end.

(** The part of [s] in front of the first ["?"] or ["#"]. *)
Fixpoint before_query (s : string) : string :=
  match s with
  | EmptyString => EmptyString
  | String c s' =>
      if Ascii.eqb c "?"%char || Ascii.eqb c "#"%char then EmptyString
      else String c (before_query s')
  end.

(** [fileURLToPath(new URL(id, "file://"))] on plain identities: the URL
    parser drops the query and the fragment and resolves dot segments
    against the root. *)
Definition fileURLToPath_URL (id : string) : option string :=
  let p := before_query id in
  if all_chars is_plain p && negb (startsWith p "//") then
    Some ("/" ++ Path.join_slash (Path.normalizeSegs false [] (Path.split_slash p))
            ++ (if Path.endsWithSlash p then "/" else ""))%string
  else None.

(** [kebabCase] of [change-case] on ASCII input: words are the maximal
    runs of letters and digits, split also between a lower-case letter or
    digit and an upper-case letter, and in front of the last capital of a
    run of capitals that a lower-case letter follows; they are put in
    lower case and joined by ["-"]. *)
Fixpoint kebabWords (word : string) (s : string) : list string :=
  let flush := if word =? "" then [] else [word] in
  match s with
  | EmptyString => flush
  | String c s' =>
      if negb (is_alnum c) then flush ++ kebabWords "" s'
      else
        let word' := (word ++ String (to_lower c) "")%string in
        match s' with
        | String d s'' =>
            if ((is_lower c || is_digit c) && is_upper d)
               || (is_upper c && is_upper d
                   && match s'' with
                      | String e _ => is_lower e
                      | EmptyString => false
                      end)
            then word' :: kebabWords "" s'
            else kebabWords word' s'
        | EmptyString => [word']
        end
  end.

Definition kebabCase (s : string) : string := String.concat "-" (kebabWords "" s).

(** **** The filters of [createFilter] *)

Definition endsWith (s suffix : string) : bool :=
  let n := String.length s in
  let k := String.length suffix in
  (k <=? n)%nat && (substring (n - k) k s =? suffix).

(** One path segment of a glob pattern. *)
Inductive SegPattern : Type :=
| Lit (s : string)            (** a literal segment *)
| Star                        (** [*] *)
| StarExt (exts : list string) (** [*.{e1,e2,...}] *)
| LitExt (stem : string) (exts : list string) (** [stem.{e1,e2,...}] *)
| Globstar.                   (** a final [**] *)

Definition matchSeg (p : SegPattern) (seg : string) : bool :=
  match p with
  | Lit s => seg =? s
  | Star => negb (seg =? "")
  | StarExt exts => existsb (fun e => endsWith seg ("." ++ e)%string) exts
  | LitExt stem exts => existsb (fun e => seg =? (stem ++ "." ++ e)%string) exts
  | Globstar => true
  end.

Fixpoint matchSegs (ps : list SegPattern) (segs : list string) : bool :=
  match ps, segs with
  | [Globstar], _ => true
  | [], [] => true
  | p :: ps', seg :: segs' => matchSeg p seg && matchSegs ps' segs'
  | _, _ => false
  end.

(** [createFilter(patterns)]: a relative pattern is resolved against
    [process.cwd()]; an identity holding ["\0"] never matches. *)
Definition createFilter (cwd : string) (patterns : list (list SegPattern))
  (id : string) : bool :=
  negb (includes id NUL)
  && existsb
       (fun ps => matchSegs (map Lit ("" :: Path.resolve cwd "") ++ ps)
                    (Path.split_slash id))
       patterns.

Definition isShadcnComponent (cwd : string) : string -> bool :=
  createFilter cwd [[Lit "src"; Lit "components"; Lit "ui"; Globstar]].
Definition isComponent (cwd : string) : string -> bool :=
  createFilter cwd
    [[Lit "src"; Lit "components"; Star; LitExt "index" ["js"; "ts"]];
     [Lit "src"; Lit "components"; StarExt ["vue"; "jsx"; "tsx"]]].
Definition isComposable (cwd : string) : string -> bool :=
  createFilter cwd
    [[Lit "src"; Lit "composables"; StarExt ["js"; "ts"]];
     [Lit "src"; Lit "composables"; Star; LitExt "index" ["js"; "ts"]]].
Definition isUtil (cwd : string) : string -> bool :=
  createFilter cwd [[Lit "src"; Lit "utils"; Star]].

(** **** A module graph given as a table *)

Definition getModuleInfo (graph : list ModuleInfo) (moduleId : string)
  : option ModuleInfo :=
  find (fun moduleInfo => id moduleInfo =? moduleId) graph.

(** Every import of every module of the table is in the table. *)
Definition closedGraph (graph : list ModuleInfo) : bool :=
  forallb (fun moduleInfo =>
             forallb (fun d => existsb (fun m => id m =? d) graph)
               (importedIds moduleInfo ++ dynamicallyImportedIds moduleInfo))
    graph.

(** [this.resolve(id)] for an identity that is already resolved;
    [externals] lists the identities the bundler keeps external. *)
Definition resolve (externals : list string) (moduleId : string) : option ResolvedId :=
  Some {| resolved_id := moduleId;
          resolved_external := external_bool (array_includes externals moduleId) |}.

(** The classifier, the closure builder and [buildEnd] on this host. *)
Definition classify (root : string) (resolvedId : ResolvedId) : result ShadcnItemMeta :=
  getShadcnItemMeta root kebabCase fileURLToPath_URL
    (isShadcnComponent root) (isComponent root) (isComposable root) (isUtil root)
    root resolvedId.

Definition closure (fuel : nat) (root id : string) (originalItems : JsMap.t ShadcnItem)
  : fueled ShadcnItemDependencies :=
  createShadcnItemDependencies root fileURLToPath_URL fuel id originalItems root.

Definition build (fuel : nat) (root : string) (externals : list string)
  (graph : list ModuleInfo) : fueled RegistryImpl :=
  buildEnd root kebabCase fileURLToPath_URL
    (isShadcnComponent root) (isComponent root) (isComposable root) (isUtil root)
    (resolve externals) (getModuleInfo graph) fuel root.
End Host.

(** *** An example project

    The record map of a project rooted at [/proj]: the component [card]
    imports the package [clsx], the primitive [button], the internal
    helper [format.ts], a private module of the build tool, the script
    block of a Vue composable and a module without a record; [format.ts]
    imports the hook [use-date], which imports the utility [pad.ts],
    which imports the module without a record. *)

Module Example.
Definition root : string := "/proj".

Definition card : string := "/proj/src/components/card/index.ts".
Definition clsx : string := "clsx".
Definition button : string := "/proj/src/components/ui/button/index.ts".
Definition format : string := "/proj/src/components/card/format.ts".
Definition helper : string := (NUL ++ "plugin-vue:export-helper")%string.
Definition clock : string := "/proj/src/composables/useClock.vue?vue&type=script&lang.ts".
Definition useDate : string := "/proj/src/composables/useDate.ts".
Definition pad : string := "/proj/src/utils/pad.ts".
Definition gone : string := "/proj/src/components/card/gone.ts".

Definition item (n : string) (ty : ShadcnItemType) (mods : list string) (src : string)
  : ShadcnItem :=
  {| meta := {| name := n; type := ty |}; modules := mods; code := Some src |}.

Definition cardItem : ShadcnItem :=
  item "card" registry_component [clsx; button; format; helper; clock; gone] "card".
Definition formatItem : ShadcnItem := item format registry_internal [useDate] "format".
Definition useDateItem : ShadcnItem := item "use-date" registry_hook [pad] "useDate".
Definition clockItem : ShadcnItem := item "use-clock" registry_hook [] "clock".

Definition originalItems : JsMap.t ShadcnItem :=
  [ (card, cardItem);
    (clsx, item clsx external [] "");
    (button, item "button" registry_shadcn [] "button");
    (format, formatItem);
    (helper, item helper registry_internal [gone] "");
    (clock, clockItem);
    (useDate, useDateItem);
    (pad, item "utils" registry_lib [gone] "pad") ].

(** A record map in which the internal helper [format.ts] imports a module
    that has no record. *)
Definition brokenItems : JsMap.t ShadcnItem :=
  [ (card, item "card" registry_component [format] "card");
    (format, item format registry_internal [gone] "format") ].

(** Two internal helpers that import each other. *)
Definition cyclicItems : JsMap.t ShadcnItem :=
  [ (card, item "card" registry_component [format] "card");
    (format, item format registry_internal [gone] "format");
    (gone, item gone registry_internal [format] "gone") ].

Definition resolved (moduleId : string) : ResolvedId :=
  {| resolved_id := moduleId; resolved_external := external_bool false |}.

Definition moduleInfo (i : string) (static dynamic : list string) : ModuleInfo :=
  {| id := i; importedIds := static; dynamicallyImportedIds := dynamic;
     sourceCode := Some i |}.

(** Two modules that import each other, one statically, one dynamically. *)
Definition ping : string := "/proj/src/ping.ts".
Definition pong : string := "/proj/src/pong.ts".
Definition cycleGraph : list ModuleInfo :=
  [ moduleInfo ping [pong] []; moduleInfo pong [] [ping] ].

(** A component whose internal helper has one static and one dynamic import. *)
Definition static : string := "/proj/src/components/card/static.ts".
Definition lazy : string := "/proj/src/components/card/lazy.ts".
Definition formatInfo : ModuleInfo := moduleInfo format [static] [lazy].
Definition lazyGraph : list ModuleInfo :=
  [ moduleInfo SHADCN_REGISTRY_VIRTUAL_MODULE_ID [card] [];
    moduleInfo card [format] [];
    formatInfo;
    moduleInfo static [] [];
    moduleInfo lazy [] [] ].

(** The component [card] with the package [clsx], the primitive [button]
    and the internal helper [format.ts]. *)
Definition cardGraph : list ModuleInfo :=
  [ moduleInfo SHADCN_REGISTRY_VIRTUAL_MODULE_ID [card] [];
    moduleInfo card [clsx; button; format] [];
    moduleInfo clsx [] [];
    moduleInfo button [] [];
    moduleInfo format [] [] ].

(** Two utilities, entry points of the registry. *)
Definition formatDate : string := "/proj/src/utils/format-date.ts".
Definition cn : string := "/proj/src/utils/cn.ts".
Definition utilsGraph : list ModuleInfo :=
  [ moduleInfo SHADCN_REGISTRY_VIRTUAL_MODULE_ID [formatDate; cn] [];
    moduleInfo formatDate [] [];
    moduleInfo cn [] [] ].

(** The names of the items of a registry. *)
Definition itemNames (r : fueled RegistryImpl) : option (list string) :=
  match r with
  | Some (Ok registry) => Some (map item_name (items registry))
  | _ => None
  end.

(** The paths of the files of the item [n] of a registry. *)
Definition filePaths (r : fueled RegistryImpl) (n : string) : option (list string) :=
  match r with
  | Some (Ok registry) =>
      match getItem registry n with
      | Some registryItem => Some (map path (item_files registryItem))
      | None => None
      end
  | _ => None
  end.
End Example.

(** *** Vocabulary of the statements *)

(** An identity the closure builder does not skip. *)
Definition walked (id : string) : Prop := startsWith id NUL = false.

(** An identity free of the query delimiter. *)
Definition queryFree (id : string) : Prop := includes id "?" = false.

(** The categories that reach the [default:] case of the switch. *)
Definition producesFile (ty : ShadcnItemType) : Prop :=
  ty <> external /\ ty <> registry_shadcn.

(** The file entry of module [id] once its local path is known. *)
Definition fileEntry (originalItems : JsMap.t ShadcnItem) (id path : string)
  : RegistryItemFile :=
  {| file_type := "registry:file";
     path := path;
     target := path;
     content := match JsMap.get originalItems id with
                | Some item => code item
                | None => None
                end |}.

(** The keys a round adds, in the order it adds them: the imports of the
    walked Internal entries of the frontier, its file-producing entries,
    its External entries, and the names of its ShadcnPrimitive entries. *)
Definition walkedb (id : string) : bool := negb (startsWith id NUL).

Definition frontierImports (items : list (string * ShadcnItem)) : list string :=
  flat_map (fun e => match type (meta (snd e)) with
                     | registry_internal => if walkedb (fst e) then modules (snd e) else []
                     | _ => []
                     end) items.

Definition frontierFiles (items : list (string * ShadcnItem)) : list string :=
  map fst (filter (fun e => match type (meta (snd e)) with
                            | external | registry_shadcn => false
                            | _ => walkedb (fst e) && negb (includes (fst e) "?")
                            end) items).

Definition frontierDependencies (items : list (string * ShadcnItem)) : list string :=
  map fst (filter (fun e => match type (meta (snd e)) with
                            | external => walkedb (fst e)
                            | _ => false
                            end) items).

Definition frontierCrossReferences (items : list (string * ShadcnItem)) : list string :=
  map (fun e => name (meta (snd e)))
    (filter (fun e => match type (meta (snd e)) with
                      | registry_shadcn => walkedb (fst e)
                      | _ => false
                      end) items).

(** A path segment: not empty, not ["."] or [".."], and free of ["/"]. *)
Fixpoint slashFree (s : string) : bool :=
  match s with
  | EmptyString => true
  | String c s' => negb (Ascii.eqb c Path.slash) && slashFree s'
  end.

Definition isSegment (s : string) : bool :=
  negb (s =? "") && negb (s =? ".") && negb (s =? "..") && slashFree s.

(** The normalized absolute path made of the segments [segs]. *)
Definition absolutePath (segs : list string) : string :=
  ("/" ++ Path.join_slash segs)%string.

(** [a] imports [b], statically or dynamically. *)
Definition imports (getModuleInfo : string -> option ModuleInfo) (a b : string) : Prop :=
  exists moduleInfo,
    getModuleInfo a = Some moduleInfo /\
    In b (importedIds moduleInfo ++ dynamicallyImportedIds moduleInfo).

(** [b] is reached from [a] through one import or more. *)
Definition reachable (getModuleInfo : string -> option ModuleInfo) : string -> string -> Prop :=
  clos_trans string (imports getModuleInfo).

(** *** Invariants of the two loops *)

Section ClosureInvariants.
Variable cwd : string.
Variable fileURLToPath_URL : string -> option string.
Variable originalItems : JsMap.t ShadcnItem.
Variable configRootDir : string.

(** Every file entry stored is the one of its key, and its key is neither
    marked nor a query. *)
Definition canonical (acc : ClosureAcc) : Prop :=
  forall x f, JsMap.get (acc_files acc) x = Some f ->
    walked x /\ queryFree x /\
    exists p, getLocalFilePath cwd fileURLToPath_URL x configRootDir = Ok p /\
              f = fileEntry originalItems x p.

(** Every entry of the frontier is an entry of the record map. *)
Definition frontierOf (items : JsMap.t ShadcnItem) : Prop :=
  forall e, In e items -> In e originalItems.

(** Where the entries of the final collections come from. *)
Definition provenance (acc : ClosureAcc) : Prop :=
  canonical acc /\
  (forall x, In x (acc_dependencies acc) ->
     exists item, In (x, item) originalItems /\ walked x /\ type (meta item) = external) /\
  (forall n, In n (acc_registryDependencies acc) ->
     exists k item, In (k, item) originalItems /\ walked k /\
                    type (meta item) = registry_shadcn /\ n = name (meta item)).

(** The walked Internal entries have all their imports in the record map. *)
Definition importsPresent (items : JsMap.t ShadcnItem) : Prop :=
  forall k item d, In (k, item) items -> walked k ->
    type (meta item) = registry_internal -> In d (modules item) ->
    JsMap.get originalItems d <> None.

(** The entries to turn into files have an identity that converts to a path. *)
Definition pathsFound (items : JsMap.t ShadcnItem) : Prop :=
  forall k item, In (k, item) items -> walked k ->
    producesFile (type (meta item)) -> queryFree k -> fileURLToPath_URL k <> None.

(** Walked Internal records import walked Internal records of lower rank
    only: the internal helpers do not import each other in a cycle. *)
Definition internalImportsDescend (rank : string -> nat) : Prop :=
  forall k item d item',
    In (k, item) originalItems -> walked k -> type (meta item) = registry_internal ->
    In d (modules item) -> JsMap.get originalItems d = Some item' ->
    walked d -> type (meta item') = registry_internal -> rank d < rank k.
End ClosureInvariants.

(** The invariant of the walker's loop, for the walk started at [root]:
    the hoisted identities are distinct and reachable, the frontier is
    reachable, and the imports of the root and of every hoisted identity
    outside the frontier are hoisted. *)
Definition walkInvariant (getModuleInfo : string -> option ModuleInfo)
  (root : string) (toProcess : list string) (hoisted : JsSet.t) : Prop :=
  NoDup hoisted /\
  (forall h, In h hoisted -> reachable getModuleInfo root h) /\
  (forall p, In p toProcess -> p = root \/ reachable getModuleInfo root p) /\
  (forall h, h = root \/ In h hoisted ->
        In h toProcess \/ forall y, imports getModuleInfo h y -> In y hoisted).

(** *** The modules a closure goes through *)

(** [k] is a walked Internal record that imports [d]. *)
Definition feeds (originalItems : JsMap.t ShadcnItem) (k d : string) : Prop :=
  exists item,
    JsMap.get originalItems k = Some item /\ walked k /\
    type (meta item) = registry_internal /\ In d (modules item).

(** The identities a frontier leads to: its keys, and what walked Internal
    records reached from them import. *)
Definition reachedFrom (originalItems : JsMap.t ShadcnItem) (frontier : list string)
  (k : string) : Prop :=
  exists s, In s frontier /\ clos_refl_trans string (feeds originalItems) s k.

(** The target and its direct imports. *)
Definition seedKeys (originalItems : JsMap.t ShadcnItem) (id : string) : list string :=
  id :: match JsMap.get originalItems id with
        | Some item => modules item
        | None => []
        end.

(** The identities the closure of [id] goes through. *)
Definition inClosure (originalItems : JsMap.t ShadcnItem) (id k : string) : Prop :=
  reachedFrom originalItems (seedKeys originalItems id) k.

(** [k] is an internal helper that, through internal helpers, imports itself. *)
Definition onInternalCycle (originalItems : JsMap.t ShadcnItem) (k : string) : Prop :=
  clos_trans string (feeds originalItems) k k.

(** The collections hold no entry twice. *)
Definition distinctAcc (acc : ClosureAcc) : Prop :=
  NoDup (acc_dependencies acc) /\ NoDup (acc_registryDependencies acc) /\
  JsMap.wf (acc_files acc).

(** A list of identities each of which [feeds] the next. *)
Fixpoint feedChain (originalItems : JsMap.t ShadcnItem) (l : list string) : Prop :=
  match l with
  | x :: (y :: _) as rest => feeds originalItems x y /\ feedChain originalItems rest
  | _ => True
  end.

(** The root and the hoisted identities outside the frontier have module
    information. *)
Definition infoKnown (getModuleInfo : string -> option ModuleInfo)
  (root : string) (toProcess : list string) (hoisted : JsSet.t) : Prop :=
  forall h, h = root \/ In h hoisted -> In h toProcess \/ getModuleInfo h <> None.

(** The successive values of [moduleIdsToProcess] at the head of the
    walker's loop: every member of each costs one call of
    [this.getModuleInfo]. *)
Fixpoint walkFrontiers (getModuleInfo : string -> option ModuleInfo) (fuel : nat)
  (moduleIdsToProcess : list string) (hoistedImportedIds : JsSet.t)
  : list (list string) :=
  match moduleIdsToProcess with
  | [] => [[]]
  | _ :: _ =>
      match fuel with
      | O => [moduleIdsToProcess]
      | S fuel' =>
          match expandFrontier getModuleInfo moduleIdsToProcess with
          | Throw e => [moduleIdsToProcess]
          | Ok importedIds =>
              moduleIdsToProcess
              :: walkFrontiers getModuleInfo fuel'
                   (filter (fun id => negb (JsSet.has hoistedImportedIds id)) importedIds)
                   (fold_left JsSet.add importedIds hoistedImportedIds)
          end
      end
  end.

(** *** What [buildEnd] registers *)




(** [shadcnItem] is the record of module [v]: its classification once
    resolved, its imports and its source. *)
Definition recordOf (cwd : string) (kebabCase : string -> string)
  (fileURLToPath_URL : string -> option string)
  (isShadcnComponent isComponent isComposable isUtil : string -> bool)
  (resolve : string -> option ResolvedId)
  (getModuleInfo : string -> option ModuleInfo)
  (configRootDir v : string) (shadcnItem : ShadcnItem) : Prop :=
  exists resolvedId shadcnItemMeta moduleInfo,
    resolve v = Some resolvedId /\
    getShadcnItemMeta cwd kebabCase fileURLToPath_URL
      isShadcnComponent isComponent isComposable isUtil configRootDir resolvedId
      = Ok shadcnItemMeta /\
    getModuleInfo v = Some moduleInfo /\
    shadcnItem = shadcnItemOf shadcnItemMeta moduleInfo.

(** *** The other hooks of the plugin *)

(** **** [options] and [convertToInputRecords]

    Rollup's [InputOption] is [string | string[] | Record<string, string>].
    An object is the list of its entries in property order; the objects
    built here receive index keys in ascending order and then one key that
    is no index, so that their property order is their insertion order. *)

Inductive InputOption : Type :=
| input_string (s : string)
| input_array (l : list string)
| input_record (r : JsMap.t string)
| input_undefined.

(** The property key of the array index [i]: its decimal notation. *)
Definition index_key (i : nat) : string :=
  DecimalString.NilEmpty.string_of_uint (Nat.to_uint i).

(** [for (const index in input) inputRecords[index] = input[index]], from
    the index [i] on. *)
Fixpoint assignIndices (i : nat) (input : list string) (inputRecords : JsMap.t string)
  : JsMap.t string :=
  match input with
  | [] => inputRecords
  | x :: rest => assignIndices (S i) rest (JsMap.set inputRecords (index_key i) x)
  end.

Definition convertToInputRecords (input : InputOption) : JsMap.t string :=
  match input with
  | input_string s => JsMap.of_entries [("0", s)]
  | input_array l => assignIndices 0 l JsMap.empty
  | input_record r => JsMap.of_entries (JsMap.entries r)
  | input_undefined => JsMap.of_entries []
  end.

(** Rollup's input options: [input], and the options the hook copies. *)
Record InputOptions (T : Type) : Type := {
  opt_input : InputOption;
  opt_others : T
}.
Arguments opt_input {T} _.
Arguments opt_others {T} _.

(** The [input] the hook [options] returns. *)
Definition registryInput (input : InputOption) : JsMap.t string :=
  JsMap.set (JsMap.of_entries (JsMap.entries (convertToInputRecords input)))
    "shadcn-registry" SHADCN_REGISTRY_VIRTUAL_MODULE_ID.

Definition options {T : Type} (o : InputOptions T) : InputOptions T :=
  {| opt_input := input_record (registryInput (opt_input o));
     opt_others := opt_others o |}.

(** **** [generateBundle]

    [JSON.stringify] is a parameter, one for each of the two shapes of
    object it is given. *)

(** What [RegistryImpl.toJSON] returns. *)
Record RegistryDocument : Type := {
  doc_schema : string;
  doc_name : string;
  doc_homepage : string;
  doc_items : list RegistryItem
}.

Definition toJSON (r : RegistryImpl) : RegistryDocument :=
  {| doc_schema := "https://shadcn-vue.com/schema/registry.json";
     doc_name := registry_name r;
     doc_homepage := registry_homepage r;
     doc_items := items r |}.

(** [{ $schema: ..., ...item }] *)
Record ItemDocument : Type := {
  itemdoc_schema : string;
  itemdoc_item : RegistryItem
}.

(** The argument of [this.emitFile]. *)
Record EmittedAsset : Type := {
  asset_type : string;
  fileName : string;
  source : string
}.

Section GenerateBundle.
Variable stringifyRegistry : RegistryDocument -> string.
Variable stringifyItem : ItemDocument -> string.

Definition emitItem (item : RegistryItem) : EmittedAsset :=
  {| asset_type := "asset";
     fileName := "shadcn-registry/" ++ item_name item ++ ".json";
     source := stringifyItem
                 {| itemdoc_schema := "https://shadcn-vue.com/schema/registry-item.json";
                    itemdoc_item := item |} |}.

(** The files emitted, in the order of the calls of [this.emitFile]. *)
Definition generateBundle (registry : RegistryImpl) : list EmittedAsset :=
  {| asset_type := "asset";
     fileName := "shadcn-registry/index.json";
     source := stringifyRegistry (toJSON registry) |}
  :: map emitItem (items registry).
End GenerateBundle.

(** **** [buildStart] and [load]

    [dirname] and [join] with any number of arguments, of [node:path]. *)

Fixpoint hasNonSlash (s : string) : bool :=
  match s with
  | EmptyString => false
  | String c s' => negb (Ascii.eqb c Path.slash) || hasNonSlash s'
  end.

(** What precedes the last separator of [s] that a character other than
    a separator follows. *)
Fixpoint beforeLastSeparator (s : string) : option string :=
  match s with
  | EmptyString => None
  | String c s' =>
      match beforeLastSeparator s' with
      | Some pre => Some (String c pre)
      | None =>
          if Ascii.eqb c Path.slash && hasNonSlash s' then Some EmptyString else None
      end
  end.

(** [path.dirname(path)]: the separator at the first position is not
    looked at. *)
Definition dirname (path : string) : string :=
  match path with
  | EmptyString => "."
  | String c rest =>
      let hasRoot := Ascii.eqb c Path.slash in
      match beforeLastSeparator rest with
      | None => if hasRoot then "/" else "."
      | Some pre => if hasRoot && (pre =? "") then "//" else String c pre
      end
  end.

(** [path.join(...args)] *)
Definition joinPath (args : list string) : string :=
  match filter (fun arg => negb (arg =? "")) args with
  | [] => "."
  | parts => Path.normalize (Path.join_slash parts)
  end.

(** What a hook that rejects or throws outside the build of the registry
    fails with. *)
Inductive hookError : Type :=
| StatRejected       (** [stat(path)] rejected *)
| UndefinedProperty. (** [TypeError]: a property of [undefined] was read *)

Inductive hookResult (A : Type) : Type :=
| Resolved (a : A)
| Rejected (e : hookError).
Arguments Resolved {A} a.
Arguments Rejected {A} e.

Definition hookBind {A B} (r : hookResult A) (k : A -> hookResult B) : hookResult B :=
  match r with
  | Resolved a => k a
  | Rejected e => Rejected e
  end.

(** The [aliases] of [components.json], once parsed. *)
Record ShadcnComponentAliases : Type := {
  alias_ui : string;
  alias_components : string;
  alias_composables : string;
  alias_utils : string;
  alias_lib : string
}.

(** [Object.entries(config.aliases)] *)
Definition aliasEntries (aliases : ShadcnComponentAliases) : list (string * string) :=
  [ ("ui", alias_ui aliases);
    ("components", alias_components aliases);
    ("composables", alias_composables aliases);
    ("utils", alias_utils aliases);
    ("lib", alias_lib aliases) ].

Record Pattern : Type := {
  pattern_entries : list string;
  pattern_include : list string;
  pattern_ignore : list string
}.

(** What the plugin reads of [fs.Stats]. *)
Record Stats : Type := { isFile : bool }.

Definition extGlob : string := ".{js,jsx,ts,tsx,vue}".

(** The parameters are
    - [resolveCustom alias resolveDir]: [this.resolve(alias, undefined,
      { custom })] with the plugin's custom options;
    - [stat path]: [stat] of [node:fs/promises], [None] when it rejects;
    - [glob include ignore]: [glob(include, { ignore })]. *)
Section BuildStart.
Variable resolveCustom : string -> bool -> option ResolvedId.
Variable stat : string -> option Stats.
Variable glob : list string -> list string -> list string.

(** [false == ["utils"].includes(name)] *)
Definition resolvesDir (name : string) : bool := negb (array_includes ["utils"] name).

(** The body of [for (const [name, alias] of Object.entries(config.aliases))]. *)
Definition resolveShadcnEntry (resolvedAliases : list (string * Pattern))
  (entry : string * string) : hookResult (list (string * Pattern)) :=
  let '(name, alias) := entry in
  let resolveDir := resolvesDir name in
  match resolveCustom alias resolveDir with
  | None => Resolved resolvedAliases
  | Some resolvedId =>
      match stat (resolved_id resolvedId) with
      | None => Rejected StatRejected
      | Some pathStats =>
          let path :=
            if resolveDir && isFile pathStats then dirname (resolved_id resolvedId)
            else resolved_id resolvedId in
          let include :=
            if resolveDir then
              [ joinPath [alias; "**/*" ++ extGlob];
                joinPath [path; "*" ++ extGlob];
                joinPath [path; "*"; "index" ++ extGlob] ]%string
            else [ joinPath [alias]; joinPath [path] ] in
          let ignore :=
            if resolveDir then [ joinPath [path; "index" ++ extGlob] ]%string else [] in
          Resolved (resolvedAliases
                      ++ [(name, {| pattern_entries := glob include ignore;
                                    pattern_include := include;
                                    pattern_ignore := ignore |})])
      end
  end.

Fixpoint resolveShadcnAliases (entries : list (string * string))
  (resolvedAliases : list (string * Pattern)) : hookResult (list (string * Pattern)) :=
  match entries with
  | [] => Resolved resolvedAliases
  | entry :: rest =>
      hookBind (resolveShadcnEntry resolvedAliases entry) (resolveShadcnAliases rest)
  end.

Definition resolveShadcnEntries (aliases : ShadcnComponentAliases)
  : hookResult (JsMap.t Pattern) :=
  hookBind (resolveShadcnAliases (aliasEntries aliases) [])
    (fun resolvedAliases => Resolved (JsMap.of_entries resolvedAliases)).
End BuildStart.

(** What [load] returns for the virtual module. *)
Record LoadResult : Type := {
  moduleType : string;
  load_code : string
}.

Definition quote : string := String "034"%char EmptyString.
Definition newline : string := String "010"%char EmptyString.

Fixpoint spaces (n : nat) : string :=
  match n with
  | O => EmptyString
  | S n' => String " "%char (spaces n')
  end.

(** [shadcnEntries.<name>.entries] *)
Definition entriesOf (shadcnEntries : JsMap.t Pattern) (name : string)
  : hookResult (list string) :=
  match JsMap.get shadcnEntries name with
  | Some pattern => Resolved (pattern_entries pattern)
  | None => Rejected UndefinedProperty
  end.

Definition importLine (entry : string) : string :=
  ("import " ++ quote ++ entry ++ quote ++ ";")%string.

(** [load(moduleId)]; [None] is [undefined]. *)
Definition load (shadcnEntries : JsMap.t Pattern) (moduleId : string)
  : hookResult (option LoadResult) :=
  if SHADCN_REGISTRY_VIRTUAL_MODULE_ID =? moduleId then
    hookBind (entriesOf shadcnEntries "components") (fun components =>
    hookBind (entriesOf shadcnEntries "composables") (fun composables =>
    hookBind (entriesOf shadcnEntries "lib") (fun lib =>
    hookBind (entriesOf shadcnEntries "utils") (fun utils =>
      Resolved
        (Some {| moduleType := "js";
                 load_code :=
                   (newline ++ spaces 12
                    ++ String.concat newline
                         (map importLine (components ++ composables ++ lib ++ utils))
                    ++ newline ++ spaces 10)%string |})))))
  else Resolved None.

(** *** Further example projects *)

(** A ladder of [n + 1] rungs: the two modules of a rung both import the
    two modules of the next rung. *)
Module Ladder.
Definition rung (side : bool) (i : nat) : string :=
  ((if side then "a" else "b") ++ index_key i)%string.

Definition imports_of (n i : nat) : list string :=
  if (i <? n)%nat then [rung true (S i); rung false (S i)] else [].

Definition getModuleInfo (n : nat) (moduleId : string) : option ModuleInfo :=
  match moduleId with
  | String c rest =>
      match DecimalString.NilEmpty.uint_of_string rest with
      | Some d =>
          let i := Nat.of_uint d in
          if (Ascii.eqb c "a" || Ascii.eqb c "b") && (rest =? index_key i) && (i <=? n)%nat
          then Some (Example.moduleInfo moduleId (imports_of n i) [])
          else None
      | None => None
      end
  | EmptyString => None
  end.

(** The modules of the ladder. *)
Definition modules (n : nat) : list string :=
  flat_map (fun i => [rung true i; rung false i]) (seq 0 (S n)).
End Ladder.

Module Scenario.
(** The virtual module imports a component that has no module information. *)
Definition danglingGraph : list ModuleInfo :=
  [ Example.moduleInfo SHADCN_REGISTRY_VIRTUAL_MODULE_ID [Example.card] [] ].

(** A composable kept in [src/composables/index.ts]. *)
Definition indexComposable : string := "/proj/src/composables/index.ts".
Definition indexGraph : list ModuleInfo :=
  [ Example.moduleInfo SHADCN_REGISTRY_VIRTUAL_MODULE_ID [indexComposable] [];
    Example.moduleInfo indexComposable [] [] ].

(** A primitive kept two directories below the primitives root. *)
Definition alertDialog : string := "/proj/src/components/ui/alert/dialog/index.ts".

(** A [components.json] whose alias for the composables does not resolve. *)
Definition aliases : ShadcnComponentAliases :=
  {| alias_ui := "@/components/ui";
     alias_components := "@/components";
     alias_composables := "@/composables";
     alias_utils := "@/lib/utils";
     alias_lib := "@/lib" |}.

Definition resolutions : list (string * string) :=
  [ ("@/components/ui", "/proj/src/components/ui");
    ("@/components", "/proj/src/components");
    ("@/lib/utils", "/proj/src/lib/utils.ts");
    ("@/lib", "/proj/src/lib/index.ts") ].

Definition resolveCustom (source : string) (resolveDir : bool) : option ResolvedId :=
  match JsMap.get resolutions source with
  | Some resolved => Some (Example.resolved resolved)
  | None => None
  end.

Definition stat (path : string) : option Stats :=
  Some {| isFile := Host.endsWith path ".ts" |}.

(** The files on disk, whatever the patterns. *)
Definition glob (include ignore : list string) : list string :=
  ["/proj/src/components/card/index.ts"].
End Scenario.

(* ================================================================= *)
(** ** Part II. Properties *)
(* ================================================================= *)

(** *** Strings and the result monad *)

Lemma array_includes_In (xs : list string) (x : string) :
  array_includes xs x = true <-> In x xs.
Proof.
  unfold array_includes. rewrite existsb_exists. split.
  - intros [y [Hy He]]. apply String.eqb_eq in He. now subst.
  - intros H. exists x. split; [assumption | apply String.eqb_refl].
Qed.

Lemma bind_Ok {A B} (r : result A) (k : A -> result B) (b : B) :
  bind r k = Ok b -> exists a, r = Ok a /\ k a = Ok b.
Proof. destruct r as [a|e]; simpl; [eauto | discriminate]. Qed.

Lemma bind_Throw {A B} (r : result A) (k : A -> result B) (e : error) :
  bind r k = Throw e -> r = Throw e \/ exists a, r = Ok a /\ k a = Throw e.
Proof. destruct r as [a|e']; simpl; [eauto | intros [= ->]; now left]. Qed.

(** A loop keeps what each round of its body keeps. *)
Lemma foldM_invariant {A S} (body : S -> A -> result S) (P : S -> Prop) (xs : list A) :
  (forall s x s', In x xs -> P s -> body s x = Ok s' -> P s') ->
  forall s s', P s -> foldM body xs s = Ok s' -> P s'.
Proof.
  induction xs as [|x xs IH]; simpl; intros Hstep s s' Hs Hrun.
  - now inversion Hrun; subst.
  - apply bind_Ok in Hrun as [s1 [H1 H2]].
    apply IH with (s := s1); eauto.
Qed.

(** A loop whose body throws at some element, whatever the state, throws. *)
Lemma foldM_throws {A S} (body : S -> A -> result S) (xs : list A) (x : A) :
  In x xs -> (forall s, exists e, body s x = Throw e) ->
  forall s, exists e, foldM body xs s = Throw e.
Proof.
  induction xs as [|y xs IH]; simpl; intros Hin Hx s; [contradiction|].
  destruct (body s y) as [s1|e] eqn:Hy; simpl; [|eauto].
  destruct Hin as [->|Hin]; [|now apply IH].
  destruct (Hx s) as [e He]. congruence.
Qed.

(** A loop throws only where its body does. *)
Lemma foldM_Throw_inv {A S} (body : S -> A -> result S) (xs : list A) (e : error) :
  forall s, foldM body xs s = Throw e -> exists s0 x, In x xs /\ body s0 x = Throw e.
Proof.
  induction xs as [|y xs IH]; simpl; intros s H; [discriminate|].
  apply bind_Throw in H as [H | [s1 [H1 H2]]].
  - exists s, y. auto.
  - destruct (IH _ H2) as [s0 [x [Hin Hx]]]. exists s0, x. auto.
Qed.

(** *** [Map] *)

Module JsMapFacts.
Import JsMap.

Section WithValues.
Context {V : Type}.
Implicit Types (m : JsMap.t V) (k : string) (v : V).

Lemma get_set_eq m k v : get (set m k v) k = Some v.
Proof.
  induction m as [|[k' v'] m IH]; simpl.
  - now rewrite String.eqb_refl.
  - destruct (k' =? k) eqn:E; simpl; [now rewrite String.eqb_refl | now rewrite E].
Qed.

Lemma get_set_ne m k k' v : k <> k' -> get (set m k v) k' = get m k'.
Proof.
  intros Hne. induction m as [|[k0 v0] m IH]; simpl.
  - apply String.eqb_neq in Hne. now rewrite Hne.
  - destruct (k0 =? k) eqn:E; simpl.
    + apply String.eqb_eq in E; subst k0.
      apply String.eqb_neq in Hne. now rewrite Hne.
    + now rewrite IH.
Qed.

Lemma get_In m k v : get m k = Some v -> In (k, v) m.
Proof.
  induction m as [|[k' v'] m IH]; simpl; [discriminate|].
  destruct (k' =? k) eqn:E.
  - apply String.eqb_eq in E. intros [= ->]. left. now subst.
  - intros H. right. auto.
Qed.

Lemma get_None_keys m k : get m k = None <-> ~ In k (keys m).
Proof.
  induction m as [|[k' v'] m IH]; simpl; [tauto|].
  destruct (k' =? k) eqn:E.
  - apply String.eqb_eq in E. split; [discriminate | intros H; exfalso; auto].
  - apply String.eqb_neq in E. rewrite IH. tauto.
Qed.

Lemma In_keys_get m k : In k (keys m) <-> exists v, get m k = Some v.
Proof.
  destruct (get m k) as [v|] eqn:E.
  - split; [eauto|]. intros _. apply get_In in E.
    apply in_map_iff. now exists (k, v).
  - apply get_None_keys in E. split; [tauto | intros [v Hv]; discriminate].
Qed.

Lemma In_get m k v : wf m -> In (k, v) m -> get m k = Some v.
Proof.
  unfold wf, keys. induction m as [|[k' v'] m IH]; simpl; [tauto|].
  intros Hnd [H|H].
  - inversion H; subst. now rewrite String.eqb_refl.
  - inversion Hnd as [|? ? Hnotin Hnd']; subst.
    destruct (k' =? k) eqn:E; [|auto].
    apply String.eqb_eq in E; subst k'. exfalso. apply Hnotin.
    apply in_map_iff. now exists (k, v).
Qed.

Lemma keys_set m k v :
  keys (set m k v) = if existsb (String.eqb k) (keys m) then keys m else keys m ++ [k].
Proof.
  unfold keys. induction m as [|[k' v'] m IH]; simpl; [reflexivity|].
  rewrite (String.eqb_sym k k').
  destruct (k' =? k) eqn:E; simpl.
  - apply String.eqb_eq in E. now subst.
  - rewrite IH. now destruct (existsb _ _).
Qed.

Lemma In_keys_set m k v k' : In k' (keys (set m k v)) <-> k' = k \/ In k' (keys m).
Proof.
  rewrite keys_set. destruct (existsb _ _) eqn:E.
  - apply existsb_exists in E as [y [Hy He]]. apply String.eqb_eq in He; subst y.
    split; [auto | intros [->|H]; auto].
  - rewrite in_app_iff; simpl. intuition.
Qed.

Lemma In_set m k v k' v' : In (k', v') (set m k v) -> (k', v') = (k, v) \/ In (k', v') m.
Proof.
  induction m as [|[k0 v0] m IH]; simpl.
  - intros [H|[]]. left. now symmetry.
  - destruct (k0 =? k); simpl; intros [H|H]; auto.
    destruct (IH H); auto.
Qed.

Lemma wf_set m k v : wf m -> wf (set m k v).
Proof.
  unfold wf. rewrite keys_set. destruct (existsb _ _) eqn:E; [auto|].
  intros Hnd. apply NoDup_app; [assumption | repeat constructor; simpl; tauto |].
  intros x Hx [->|[]].
  assert (existsb (String.eqb x) (keys m) = true); [|congruence].
  apply existsb_exists. exists x. split; [assumption | apply String.eqb_refl].
Qed.

Lemma wf_of_entries (es : list (string * V)) : wf (of_entries es).
Proof.
  unfold of_entries. assert (H : wf (@empty V)) by constructor. revert H.
  generalize (@empty V). induction es as [|e es IH]; simpl; auto using wf_set.
Qed.

Lemma set_fresh m k v : ~ In k (keys m) -> set m k v = m ++ [(k, v)].
Proof.
  unfold keys. induction m as [|[k' v'] m IH]; simpl; intros H; [reflexivity|].
  destruct (k' =? k) eqn:E.
  - apply String.eqb_eq in E. tauto.
  - rewrite IH; [reflexivity | tauto].
Qed.

Lemma fold_set_fresh (es : list (string * V)) :
  forall m, NoDup (keys (m ++ es)) ->
       fold_left (fun m e => set m (fst e) (snd e)) es m = m ++ es.
Proof.
  induction es as [|[k v] es IH]; simpl; intros m Hnd.
  - now rewrite app_nil_r.
  - assert (Hk : ~ In k (keys m)).
    { unfold keys in *. rewrite map_app in Hnd. simpl in Hnd.
      apply NoDup_remove_2 in Hnd. rewrite in_app_iff in Hnd. tauto. }
    rewrite (set_fresh _ _ _ Hk), IH; rewrite <- app_assoc; simpl; auto.
Qed.

(** On entries with distinct keys [new Map(entries)] is [entries]. *)
Lemma of_entries_wf (es : list (string * V)) : wf es -> of_entries es = es.
Proof. intros H. unfold of_entries. now rewrite fold_set_fresh. Qed.

Lemma fold_set_In (es : list (string * V)) :
  forall m e, In e (fold_left (fun m e => set m (fst e) (snd e)) es m) ->
         In e m \/ In e es.
Proof.
  induction es as [|[k v] es IH]; simpl; intros m e H; [auto|].
  apply IH in H as [H|H]; [|auto].
  destruct e as [k' v']. apply In_set in H as [H|H]; auto.
Qed.

Lemma of_entries_In (es : list (string * V)) e : In e (of_entries es) -> In e es.
Proof. intros H. apply fold_set_In in H as [[]|H]. exact H. Qed.

Lemma length_set_present m k v : get m k <> None -> length (set m k v) = length m.
Proof.
  induction m as [|[k' v'] m IH]; simpl; [congruence|].
  destruct (k' =? k); simpl; auto.
Qed.

Lemma fold_set_keys (es : list (string * V)) :
  forall m k, In k (keys (fold_left (fun m e => set m (fst e) (snd e)) es m)) <->
         In k (keys m) \/ In k (map fst es).
Proof.
  induction es as [|[k0 v0] es IH]; simpl; intros m k; [tauto|].
  rewrite IH, In_keys_set. intuition.
Qed.

Lemma of_entries_keys (es : list (string * V)) k :
  In k (keys (of_entries es)) <-> In k (map fst es).
Proof. unfold of_entries. rewrite fold_set_keys. simpl. tauto. Qed.

Lemma wf_filter (f : string * V -> bool) m : wf m -> wf (filter f m).
Proof.
  unfold wf, keys. induction m as [|e m IH]; simpl; intros Hnd; [constructor|].
  inversion Hnd as [|? ? Hnotin Hnd']; subst.
  destruct (f e); simpl; [|auto].
  constructor; [|auto]. intros Hin. apply Hnotin.
  apply in_map_iff in Hin as [x [Hx Hin]]. apply filter_In in Hin as [Hin _].
  apply in_map_iff. eauto.
Qed.
End WithValues.
End JsMapFacts.

(** *** [Set] *)

Module JsSetFacts.
Import JsSet.

Lemma has_In (s : JsSet.t) (x : string) : has s x = true <-> In x s.
Proof. apply array_includes_In. Qed.

Lemma In_add (s : JsSet.t) (x y : string) : In y (add s x) <-> y = x \/ In y s.
Proof.
  unfold add. destruct (has s x) eqn:E.
  - apply has_In in E. split; [auto | intros [->|H]; auto].
  - rewrite in_app_iff; simpl. intuition.
Qed.

Lemma NoDup_add (s : JsSet.t) (x : string) : NoDup s -> NoDup (add s x).
Proof.
  unfold add. destruct (has s x) eqn:E; [auto|]. intros Hnd.
  apply NoDup_app; [assumption | repeat constructor; simpl; tauto |].
  intros y Hy [->|[]]. apply has_In in Hy. congruence.
Qed.

Lemma In_fold_add (xs : list string) :
  forall s y, In y (fold_left add xs s) <-> In y s \/ In y xs.
Proof.
  induction xs as [|x xs IH]; simpl; intros s y; [tauto|].
  rewrite IH, In_add. intuition.
Qed.

Lemma NoDup_fold_add (xs : list string) :
  forall s, NoDup s -> NoDup (fold_left add xs s).
Proof. induction xs as [|x xs IH]; simpl; auto using NoDup_add. Qed.
End JsSetFacts.

(** *** Closure builder *)

Section ClosureBuilder.
Variable cwd : string.
Variable fileURLToPath_URL : string -> option string.
Variable originalItems : JsMap.t ShadcnItem.
Variable configRootDir : string.

Local Abbreviation localPath := (fun id => getLocalFilePath cwd fileURLToPath_URL id configRootDir).
Local Abbreviation enqueue := (enqueueDependency originalItems).
Local Abbreviation add_file := (addFile cwd fileURLToPath_URL originalItems configRootDir).
Local Abbreviation entry_step := (processEntry cwd fileURLToPath_URL originalItems configRootDir).
Local Abbreviation round := (processItems cwd fileURLToPath_URL originalItems configRootDir).
Local Abbreviation loop := (fun fuel => closureLoop cwd fileURLToPath_URL fuel originalItems configRootDir).
Local Abbreviation canonical := (canonical cwd fileURLToPath_URL originalItems configRootDir).
Local Abbreviation frontierOf := (frontierOf originalItems).
Local Abbreviation provenance := (provenance cwd fileURLToPath_URL originalItems configRootDir).
Local Abbreviation importsPresent := (importsPresent originalItems).
Local Abbreviation pathsFound := (pathsFound fileURLToPath_URL).
Local Abbreviation internalImportsDescend := (internalImportsDescend originalItems).

Import JsMap JsMapFacts.

(** **** The [forEach] of the internal case *)

Lemma enqueue_all_Ok (mods : list string) :
  forall nextItems nextItems',
    foldM enqueue mods nextItems = Ok nextItems' ->
    (forall d, In d mods -> exists item, get originalItems d = Some item) /\
    (forall d, In d (keys nextItems') <-> In d (keys nextItems) \/ In d mods) /\
    (forall d item, In (d, item) nextItems' ->
               In (d, item) nextItems \/ (In d mods /\ get originalItems d = Some item)).
Proof.
  induction mods as [|x mods IH]; simpl; intros next next' H.
  - inversion H; subst. repeat split; tauto.
  - apply bind_Ok in H as [next1 [H1 H2]].
    unfold enqueueDependency in H1.
    destruct (get originalItems x) as [xi|] eqn:Hx; [|discriminate].
    inversion H1; subst next1; clear H1.
    destruct (IH _ _ H2) as [Ha [Hb Hc]]. repeat split.
    + intros d [<-|Hd]; eauto.
    + rewrite Hb, In_keys_set. intuition.
    + rewrite Hb, In_keys_set. intuition.
    + intros d item Hin. apply Hc in Hin as [Hin|[Hin Hg]]; [|auto].
      apply In_set in Hin as [Heq|Hin]; [|auto].
      inversion Heq; subst. auto.
Qed.

Lemma enqueue_all_missing (mods : list string) (d : string) :
  In d mods -> get originalItems d = None ->
  forall nextItems, foldM enqueue mods nextItems = Throw MissingRecord.
Proof.
  induction mods as [|x mods IH]; simpl; intros Hin Hd next; [contradiction|].
  unfold enqueueDependency at 1.
  destruct (get originalItems x) as [xi|] eqn:Hx; simpl.
  - destruct Hin as [->|Hin]; [congruence | auto].
  - reflexivity.
Qed.

Lemma enqueue_all_Throw (mods : list string) (e : error) :
  forall nextItems, foldM enqueue mods nextItems = Throw e ->
    e = MissingRecord /\ exists d, In d mods /\ get originalItems d = None.
Proof.
  intros next H. apply foldM_Throw_inv in H as [s0 [d [Hin H]]].
  unfold enqueueDependency in H.
  destruct (get originalItems d) eqn:Hd; [discriminate|].
  inversion H. eauto.
Qed.

(** **** The [default:] case *)

Lemma add_file_Ok (id : string) (acc acc' : ClosureAcc) :
  add_file id acc = Ok acc' ->
  acc_dependencies acc' = acc_dependencies acc /\
  acc_registryDependencies acc' = acc_registryDependencies acc /\
  ((includes id "?" = true /\ acc_files acc' = acc_files acc) \/
   (queryFree id /\ exists p, localPath id = Ok p /\
      acc_files acc' = set (acc_files acc) id (fileEntry originalItems id p))).
Proof.
  unfold addFile, queryFree. destruct (includes id "?") eqn:Hq.
  - intros [= <-]. auto.
  - intros H. apply bind_Ok in H as [p [Hp H]]. inversion H; subst; simpl.
    repeat split. right. split; [reflexivity|]. exists p. auto.
Qed.

Lemma add_file_Throw (id : string) (acc : ClosureAcc) (e : error) :
  add_file id acc = Throw e ->
  e = InvalidFileURL /\ queryFree id /\ fileURLToPath_URL id = None.
Proof.
  unfold addFile, queryFree. destruct (includes id "?"); [discriminate|].
  unfold getLocalFilePath, getRegistryItemPath.
  destruct (fileURLToPath_URL id); simpl; [discriminate|]. intros [= <-]. auto.
Qed.
(** **** One entry of the frontier *)

Lemma entry_step_Ok (nextItems nextItems' : JsMap.t ShadcnItem) (acc acc' : ClosureAcc)
  (k : string) (item : ShadcnItem) :
  entry_step (nextItems, acc) (k, item) = Ok (nextItems', acc') ->
  (startsWith k NUL = true /\ nextItems' = nextItems /\ acc' = acc) \/
  (walked k /\
   ((type (meta item) = external /\ nextItems' = nextItems /\
     acc_dependencies acc' = JsSet.add (acc_dependencies acc) k /\
     acc_registryDependencies acc' = acc_registryDependencies acc /\
     acc_files acc' = acc_files acc) \/
    (type (meta item) = registry_shadcn /\ nextItems' = nextItems /\
     acc_dependencies acc' = acc_dependencies acc /\
     acc_registryDependencies acc' =
       JsSet.add (acc_registryDependencies acc) (name (meta item)) /\
     acc_files acc' = acc_files acc) \/
    (type (meta item) = registry_internal /\
     foldM enqueue (modules item) nextItems = Ok nextItems' /\
     add_file k acc = Ok acc') \/
    (producesFile (type (meta item)) /\ type (meta item) <> registry_internal /\
     nextItems' = nextItems /\ add_file k acc = Ok acc'))).
Proof.
  unfold processEntry, walked, producesFile.
  destruct (startsWith k NUL); [intros [= <- <-]; auto|].
  intros H. right. split; [reflexivity|].
  destruct (type (meta item)) eqn:Ety;
    try (apply bind_Ok in H as [acc1 [H1 [= <- <-]]];
         right; right; right; repeat split; (discriminate || assumption)).
  - inversion H; subst; simpl. auto 7.
  - apply bind_Ok in H as [next1 [H1 H2]].
    apply bind_Ok in H2 as [acc1 [H2 [= <- <-]]]. auto 6.
  - inversion H; subst; simpl. auto 7.
Qed.

Ltac effects_fin :=
  unfold walked, producesFile, queryFree in *;
  intuition (subst; eauto; congruence).

(** What one entry adds to the four collections. *)
Lemma entry_effects (nextItems nextItems' : JsMap.t ShadcnItem) (acc acc' : ClosureAcc)
  (k : string) (item : ShadcnItem) :
  entry_step (nextItems, acc) (k, item) = Ok (nextItems', acc') ->
  (forall x, In x (keys (acc_files acc')) <->
     In x (keys (acc_files acc)) \/
     (x = k /\ walked k /\ producesFile (type (meta item)) /\ queryFree k)) /\
  (forall x, In x (acc_dependencies acc') <->
     In x (acc_dependencies acc) \/
     (x = k /\ walked k /\ type (meta item) = external)) /\
  (forall n, In n (acc_registryDependencies acc') <->
     In n (acc_registryDependencies acc) \/
     (n = name (meta item) /\ walked k /\ type (meta item) = registry_shadcn)) /\
  (forall d, In d (keys nextItems') <->
     In d (keys nextItems) \/
     (walked k /\ type (meta item) = registry_internal /\ In d (modules item))) /\
  (forall d di, In (d, di) nextItems' ->
     In (d, di) nextItems \/ get originalItems d = Some di) /\
  (walked k -> type (meta item) = registry_internal ->
   forall d, In d (modules item) -> exists di, get originalItems d = Some di).
Proof.
  intros H. apply entry_step_Ok in H.
  destruct H as [[Hnul [-> ->]] | [Hw [H|[H|[H|H]]]]].
  - split; [|split; [|split; [|split; [|split]]]]; intros; effects_fin.
  - destruct H as [Ety [-> [Hd [Hr Hf]]]]. rewrite Hd, Hr, Hf.
    split; [|split; [|split; [|split; [|split]]]]; intros;
      rewrite ?JsSetFacts.In_add; effects_fin.
  - destruct H as [Ety [-> [Hd [Hr Hf]]]]. rewrite Hd, Hr, Hf.
    split; [|split; [|split; [|split; [|split]]]]; intros;
      rewrite ?JsSetFacts.In_add; effects_fin.
  - destruct H as [Ety [Hq Hf]].
    apply enqueue_all_Ok in Hq as [Hpres [Hkeys Hent]].
    apply add_file_Ok in Hf as [Hd [Hr Hf]]. rewrite Hd, Hr.
    split; [|split; [|split; [|split; [|split]]]]; intros;
      rewrite ?Hkeys; try (apply Hent in H);
      try (destruct Hf as [[Hq Hf]|[Hq [p [Hp Hf]]]]; rewrite Hf; rewrite ?In_keys_set);
      effects_fin.
  - destruct H as [Hpf [Hni [-> Hf]]].
    apply add_file_Ok in Hf as [Hd [Hr Hf]]. rewrite Hd, Hr.
    split; [|split; [|split; [|split; [|split]]]]; intros;
      try (destruct Hf as [[Hq Hf]|[Hq [p [Hp Hf]]]]; rewrite Hf; rewrite ?In_keys_set);
      effects_fin.
Qed.
(** **** One round over a frontier *)

(** What the entries [items] add to the four collections. *)
Lemma entries_effects (items : list (string * ShadcnItem)) :
  forall (nextItems nextItems' : JsMap.t ShadcnItem) (acc acc' : ClosureAcc),
    foldM entry_step items (nextItems, acc) = Ok (nextItems', acc') ->
    (forall x, In x (keys (acc_files acc')) <->
       In x (keys (acc_files acc)) \/
       exists item, In (x, item) items /\ walked x /\
                    producesFile (type (meta item)) /\ queryFree x) /\
    (forall x, In x (acc_dependencies acc') <->
       In x (acc_dependencies acc) \/
       exists item, In (x, item) items /\ walked x /\ type (meta item) = external) /\
    (forall n, In n (acc_registryDependencies acc') <->
       In n (acc_registryDependencies acc) \/
       exists k item, In (k, item) items /\ walked k /\
                      type (meta item) = registry_shadcn /\ n = name (meta item)) /\
    (forall d, In d (keys nextItems') <->
       In d (keys nextItems) \/
       exists k item, In (k, item) items /\ walked k /\
                      type (meta item) = registry_internal /\ In d (modules item)) /\
    (forall d di, In (d, di) nextItems' ->
       In (d, di) nextItems \/ get originalItems d = Some di) /\
    (forall k item d, In (k, item) items -> walked k ->
       type (meta item) = registry_internal -> In d (modules item) ->
       exists di, get originalItems d = Some di).
Proof.
  induction items as [|[k item] items IH]; simpl; intros next next' acc acc' H.
  - inversion H; subst.
    split; [|split; [|split; [|split; [|split]]]]; intros; try tauto; firstorder.
  - apply bind_Ok in H as [[next1 acc1] [H1 H2]].
    apply entry_effects in H1 as [F1 [D1 [R1 [N1 [E1 P1]]]]].
    apply IH in H2 as [F2 [D2 [R2 [N2 [E2 P2]]]]].
    split; [|split; [|split; [|split; [|split]]]].
    + intros x. rewrite F2, F1. split.
      * intros [[Hx|[-> Hx]]|[it [Hin Hx]]]; eauto 7.
      * intros [Hx|[it [[Heq|Hin] Hx]]]; [auto| |eauto].
        inversion Heq; subst. tauto.
    + intros x. rewrite D2, D1. split.
      * intros [[Hx|[-> Hx]]|[it [Hin Hx]]]; eauto 7.
      * intros [Hx|[it [[Heq|Hin] Hx]]]; [auto| |eauto].
        inversion Heq; subst. tauto.
    + intros n. rewrite R2, R1. split.
      * intros [[Hx|[-> Hx]]|[k' [it [Hin Hx]]]]; [auto| |eauto 8].
        right. exists k, item. tauto.
      * intros [Hx|[k' [it [[Heq|Hin] Hx]]]]; [auto| |eauto 8].
        inversion Heq; subst. tauto.
    + intros d. rewrite N2, N1. split.
      * intros [[Hx|Hx]|[k' [it [Hin Hx]]]]; [auto| |eauto 8].
        right. exists k, item. tauto.
      * intros [Hx|[k' [it [[Heq|Hin] Hx]]]]; [auto| |eauto 8].
        inversion Heq; subst. tauto.
    + intros d di Hin. apply E2 in Hin as [Hin|Hin]; [|auto]. now apply E1.
    + intros k' it d [Heq|Hin]; [|eauto].
      inversion Heq; subst. auto.
Qed.

Lemma canonical_entry (s s' : JsMap.t ShadcnItem * ClosureAcc) (e : string * ShadcnItem) :
  canonical (snd s) -> entry_step s e = Ok s' -> canonical (snd s').
Proof.
  destruct s as [next acc], s' as [next' acc'], e as [k item]; simpl.
  intros Hc H. apply entry_step_Ok in H.
  destruct H as [[_ [_ ->]] | [Hw [H|[H|[H|H]]]]]; [assumption| | | |].
  - destruct H as [_ [_ [_ [_ Hf]]]]. unfold canonical. now rewrite Hf.
  - destruct H as [_ [_ [_ [_ Hf]]]]. unfold canonical. now rewrite Hf.
  - destruct H as [_ [_ Hf]]. apply add_file_Ok in Hf as [_ [_ Hf]].
    destruct Hf as [[_ Hf]|[Hq [p [Hp Hf]]]]; unfold canonical; rewrite Hf; [assumption|].
    intros x f. destruct (string_dec k x) as [<-|Hne].
    + rewrite get_set_eq. intros [= <-]. eauto.
    + rewrite get_set_ne by assumption. apply Hc.
  - destruct H as [_ [_ [_ Hf]]]. apply add_file_Ok in Hf as [_ [_ Hf]].
    destruct Hf as [[_ Hf]|[Hq [p [Hp Hf]]]]; unfold canonical; rewrite Hf; [assumption|].
    intros x f. destruct (string_dec k x) as [<-|Hne].
    + rewrite get_set_eq. intros [= <-]. eauto.
    + rewrite get_set_ne by assumption. apply Hc.
Qed.

Lemma canonical_round (items nextItems : JsMap.t ShadcnItem) (acc acc' : ClosureAcc) :
  canonical acc -> round items acc = Ok (nextItems, acc') -> canonical acc'.
Proof.
  intros Hc H. unfold processItems in H.
  apply (foldM_invariant entry_step (fun s => canonical (snd s)) (entries items))
    with (s' := (nextItems, acc')) in H; [exact H | | exact Hc].
  intros s x s' _. apply canonical_entry.
Qed.
(** Where one entry throws. *)
Lemma entry_step_Throw (s : JsMap.t ShadcnItem * ClosureAcc) (k : string)
  (item : ShadcnItem) (e : error) :
  entry_step s (k, item) = Throw e ->
  walked k /\
  ((e = MissingRecord /\ type (meta item) = registry_internal /\
    exists d, In d (modules item) /\ get originalItems d = None) \/
   (e = InvalidFileURL /\ producesFile (type (meta item)) /\ queryFree k /\
    fileURLToPath_URL k = None)).
Proof.
  destruct s as [next acc]. unfold processEntry, walked, producesFile.
  destruct (startsWith k NUL); [discriminate|]. intros H. split; [reflexivity|].
  assert (Hfile : forall acc0 (k0 : ClosureAcc -> result (JsMap.t ShadcnItem * ClosureAcc)),
             (forall a, exists b, k0 a = Ok b) ->
             bind (add_file k acc0) k0 = Throw e ->
             e = InvalidFileURL /\ queryFree k /\ fileURLToPath_URL k = None).
  { intros acc0 k0 Hk0 Hb. apply bind_Throw in Hb as [Hb|[a [_ Hb]]].
    - now apply add_file_Throw in Hb.
    - destruct (Hk0 a) as [b Hb']. congruence. }
  destruct (type (meta item)) eqn:Ety; try discriminate;
    try (apply Hfile in H as [-> [Hq Hu]]; [|eauto];
         right; repeat split; (discriminate || assumption)).
  apply bind_Throw in H as [H|[next1 [_ H]]].
  - apply enqueue_all_Throw in H as [-> Hd]. auto.
  - apply Hfile in H as [-> [Hq Hu]]; [|eauto].
    right. repeat split; (discriminate || assumption).
Qed.

Lemma round_Throw (items : JsMap.t ShadcnItem) (acc : ClosureAcc) (e : error) :
  round items acc = Throw e ->
  exists k item, In (k, item) items /\ walked k /\
    ((e = MissingRecord /\ type (meta item) = registry_internal /\
      exists d, In d (modules item) /\ get originalItems d = None) \/
     (e = InvalidFileURL /\ producesFile (type (meta item)) /\ queryFree k /\
      fileURLToPath_URL k = None)).
Proof.
  intros H. apply foldM_Throw_inv in H as [s0 [[k item] [Hin H]]].
  apply entry_step_Throw in H as [Hw H]. eauto.
Qed.

(** **** The loop *)

Lemma frontierOf_round (items nextItems : JsMap.t ShadcnItem) (acc acc' : ClosureAcc) :
  round items acc = Ok (nextItems, acc') -> frontierOf nextItems.
Proof.
  intros H [d di] Hin. apply entries_effects in H as [_ [_ [_ [_ [E _]]]]].
  apply E in Hin as [[]|Hin]. now apply get_In.
Qed.

Lemma loop_step (fuel : nat) (items : JsMap.t ShadcnItem) (acc : ClosureAcc) :
  items <> [] ->
  loop (S fuel) items acc =
    match round items acc with
    | Throw e => Some (Throw e)
    | Ok (nextItems, acc') => loop fuel nextItems acc'
    end.
Proof. destruct items; [congruence | reflexivity]. Qed.

Lemma loop_unroll (fuel : nat) (items : JsMap.t ShadcnItem) (acc : ClosureAcc)
  (out : result ClosureAcc) :
  items <> [] -> loop fuel items acc = Some out ->
  exists fuel', fuel = S fuel' /\
    ((exists e, round items acc = Throw e /\ out = Throw e) \/
     (exists nextItems acc1, round items acc = Ok (nextItems, acc1) /\
                             loop fuel' nextItems acc1 = Some out)).
Proof.
  destruct items as [|e items]; [congruence|]. intros _.
  destruct fuel as [|fuel]; simpl; [discriminate|].
  intros H. exists fuel. split; [reflexivity|].
  destruct (processItems _ _ _ _ _ _) as [[next acc1]|e0].
  - right. eauto.
  - left. exists e0. split; congruence.
Qed.

Lemma provenance_round (items nextItems : JsMap.t ShadcnItem) (acc acc' : ClosureAcc) :
  frontierOf items -> provenance acc ->
  round items acc = Ok (nextItems, acc') -> provenance acc'.
Proof.
  intros Hfr [Hc [Hd Hr]] H. split; [eapply canonical_round; eauto|].
  apply entries_effects in H as [_ [D [R _]]].
  split.
  - intros x Hx. apply D in Hx as [Hx|[item [Hin Hx]]]; [auto|].
    exists item. split; [now apply Hfr | exact Hx].
  - intros n Hn. apply R in Hn as [Hn|[k [item [Hin Hn]]]]; [auto|].
    exists k, item. split; [now apply Hfr | exact Hn].
Qed.

Lemma loop_Ok (fuel : nat) :
  forall (items : JsMap.t ShadcnItem) (acc accF : ClosureAcc),
    loop fuel items acc = Some (Ok accF) ->
    frontierOf items -> provenance acc ->
    provenance accF /\
    (forall x, In x (keys (acc_files acc)) -> In x (keys (acc_files accF))).
Proof.
  induction fuel as [|fuel IH]; intros items acc accF H Hfr Hp.
  - destruct items; simpl in H; [|discriminate]. inversion H; subst. auto.
  - destruct items as [|e items]; [simpl in H; inversion H; subst; auto|].
    apply loop_unroll in H as [f [[= <-] [[e0 [_ He0]]|[next [acc1 [Hr Hl]]]]]];
      [discriminate | | discriminate].
    destruct (IH _ _ _ Hl) as [HpF Hmono].
    + eapply frontierOf_round; eauto.
    + eapply provenance_round; eauto.
    + split; [assumption|]. intros x Hx. apply Hmono.
      apply entries_effects in Hr as [F _]. apply F. auto.
Qed.

Lemma loop_Throw (fuel : nat) :
  forall (items : JsMap.t ShadcnItem) (acc : ClosureAcc) (e : error),
    loop fuel items acc = Some (Throw e) -> frontierOf items ->
    exists k item, In (k, item) originalItems /\ walked k /\
      ((e = MissingRecord /\ type (meta item) = registry_internal /\
        exists d, In d (modules item) /\ get originalItems d = None) \/
       (e = InvalidFileURL /\ producesFile (type (meta item)) /\ queryFree k /\
        fileURLToPath_URL k = None)).
Proof.
  induction fuel as [|fuel IH]; intros items acc e H Hfr.
  - destruct items; simpl in H; discriminate.
  - destruct items as [|e0 items]; [simpl in H; discriminate|].
    apply loop_unroll in H as [f [[= <-] [[e1 [Hr [= <-]]]|[next [acc1 [Hr Hl]]]]]];
      [ | | discriminate].
    + apply round_Throw in Hr as [k [item [Hin Hr]]].
      exists k, item. split; [now apply Hfr | exact Hr].
    + apply IH in Hl; [exact Hl|]. eapply frontierOf_round; eauto.
Qed.

(** **** The seed *)

Lemma seedItems_frontierOf (id : string) : frontierOf (seedItems id originalItems).
Proof.
  intros e He. unfold seedItems in He. apply of_entries_In in He.
  now apply filter_In in He.
Qed.

Lemma seedItems_wf (id : string) :
  wf originalItems ->
  seedItems id originalItems =
    filter (fun e => array_includes
                       (id :: match get originalItems id with
                              | Some item => modules item
                              | None => []
                              end) (fst e)) originalItems.
Proof. intros H. unfold seedItems. apply of_entries_wf. now apply wf_filter. Qed.

Lemma provenance_empty : provenance emptyAcc.
Proof.
  split; [|split]; simpl.
  - intros k f H. discriminate.
  - intros k [].
  - intros n [].
Qed.
(** **** From the loop to the result *)

Local Abbreviation create :=
  (fun fuel id => createShadcnItemDependencies cwd fileURLToPath_URL fuel id
                    originalItems configRootDir).
Local Abbreviation final_acc :=
  (fun fuel id => closureAcc cwd fileURLToPath_URL fuel id originalItems configRootDir).

Lemma create_Ok (fuel : nat) (id : string) (r : ShadcnItemDependencies) :
  create fuel id = Some (Ok r) ->
  exists acc, final_acc fuel id = Some (Ok acc) /\ r = closureResult acc.
Proof.
  unfold createShadcnItemDependencies.
  destruct (closureAcc _ _ _ _ _ _) as [[acc|e]|]; simpl; try discriminate.
  intros [= <-]. eauto.
Qed.

Lemma create_Throw (fuel : nat) (id : string) (e : error) :
  create fuel id = Some (Throw e) -> final_acc fuel id = Some (Throw e).
Proof.
  unfold createShadcnItemDependencies.
  destruct (closureAcc _ _ _ _ _ _) as [[acc|e']|]; simpl; congruence.
Qed.

Lemma final_acc_provenance (fuel : nat) (id : string) (acc : ClosureAcc) :
  final_acc fuel id = Some (Ok acc) -> provenance acc.
Proof.
  intros H. apply loop_Ok in H; [tauto | apply seedItems_frontierOf | apply provenance_empty].
Qed.

Lemma file_of_key (acc : ClosureAcc) (x : string) :
  canonical acc -> In x (keys (acc_files acc)) ->
  exists p, localPath x = Ok p /\
            In (fileEntry originalItems x p) (files (closureResult acc)).
Proof.
  intros Hc Hx. apply In_keys_get in Hx as [f Hf].
  destruct (Hc _ _ Hf) as [_ [_ [p [Hp ->]]]]. exists p. split; [assumption|].
  simpl. unfold values. apply get_In in Hf.
  apply in_map_iff. now exists (x, fileEntry originalItems x p).
Qed.

(** A walked, file-producing, query-free entry of a frontier the loop
    starts from ends up among the files. *)
Lemma loop_files_of_frontier (fuel : nat) (items : JsMap.t ShadcnItem)
  (acc accF : ClosureAcc) (k : string) (item : ShadcnItem) :
  loop fuel items acc = Some (Ok accF) -> frontierOf items -> provenance acc ->
  In (k, item) items -> walked k -> producesFile (type (meta item)) -> queryFree k ->
  In k (keys (acc_files accF)).
Proof.
  intros H Hfr Hp Hin Hw Hpf Hq.
  apply loop_unroll in H as [f [-> [[e [_ He]]|[next [acc1 [Hr Hl]]]]]];
    [discriminate | | intros ->; contradiction].
  apply loop_Ok in Hl as [_ Hmono];
    [ | eapply frontierOf_round; eauto | eapply provenance_round; eauto].
  apply Hmono. apply entries_effects in Hr as [F _]. apply F. eauto 6.
Qed.

(** The imports of a walked internal entry of a frontier form (part of) the
    frontier of the next round. *)
Lemma loop_next_of_internal (fuel : nat) (items : JsMap.t ShadcnItem)
  (acc accF : ClosureAcc) (k : string) (item : ShadcnItem) (d : string) :
  loop fuel items acc = Some (Ok accF) -> frontierOf items -> provenance acc ->
  In (k, item) items -> walked k -> type (meta item) = registry_internal ->
  In d (modules item) ->
  exists fuel' nextItems acc1 di,
    loop fuel' nextItems acc1 = Some (Ok accF) /\ frontierOf nextItems /\
    provenance acc1 /\ In (d, di) nextItems.
Proof.
  intros H Hfr Hp Hin Hw Hty Hd.
  apply loop_unroll in H as [f [-> [[e [_ He]]|[next [acc1 [Hr Hl]]]]]];
    [discriminate | | intros ->; contradiction].
  assert (Hk : In d (keys next)).
  { apply entries_effects in Hr as [_ [_ [_ [N _]]]]. apply N. eauto 7. }
  apply In_keys_get in Hk as [di Hdi]. apply get_In in Hdi.
  exists f, next, acc1, di. split; [assumption | split; [|split; [|assumption]]].
  - eapply frontierOf_round; eauto.
  - eapply provenance_round; eauto.
Qed.

(** **** When the loop ends *)

Lemma round_total (items : JsMap.t ShadcnItem) (acc : ClosureAcc) :
  importsPresent items -> pathsFound items ->
  exists nextItems acc', round items acc = Ok (nextItems, acc').
Proof.
  intros Himp Hpaths. destruct (round items acc) as [[next acc']|e] eqn:E; [eauto|].
  exfalso. apply round_Throw in E as [k [item [Hin [Hw [H|H]]]]].
  - destruct H as [_ [Hty [d [Hd Hmiss]]]]. exact (Himp k item d Hin Hw Hty Hd Hmiss).
  - destruct H as [_ [Hpf [Hq Hu]]]. exact (Hpaths k item Hin Hw Hpf Hq Hu).
Qed.

Lemma loop_nil (fuel : nat) (acc : ClosureAcc) : loop fuel [] acc = Some (Ok acc).
Proof. destruct fuel; reflexivity. Qed.

(** The loop ends, with a result or an error, when the internal helpers
    do not import each other in a cycle: fuel beyond the highest rank of a
    walked Internal entry of the frontier is enough. *)
Lemma loop_terminates (rank : string -> nat) :
  internalImportsDescend rank ->
  forall (bound : nat) (items : JsMap.t ShadcnItem) (acc : ClosureAcc) (fuel : nat),
    frontierOf items ->
    (forall k item, In (k, item) items -> walked k ->
       type (meta item) = registry_internal -> rank k < bound) ->
    bound < fuel ->
    exists out, loop fuel items acc = Some out.
Proof.
  intros Hrank. induction bound as [|bound IH]; intros items acc fuel Hfr Hb Hfuel.
  - destruct fuel as [|fuel]; [lia|].
    destruct items as [|e0 items]; [simpl; eauto|].
    rewrite loop_step by discriminate.
    destruct (round (e0 :: items) acc) as [[next acc']|e] eqn:E; [|eauto].
    assert (next = []) as ->; [|rewrite loop_nil; eauto].
    destruct next as [|[d di] next]; [reflexivity|]. exfalso.
    apply entries_effects in E as [_ [_ [_ [N _]]]].
    destruct (proj1 (N d) (or_introl eq_refl)) as [[]|[k [item [Hin [Hw [Hty _]]]]]].
    specialize (Hb k item Hin Hw Hty). lia.
  - destruct fuel as [|fuel]; [lia|].
    destruct items as [|e0 items]; [simpl; eauto|].
    rewrite loop_step by discriminate.
    destruct (round (e0 :: items) acc) as [[next acc']|e] eqn:E; [|eauto].
    apply IH; [eapply frontierOf_round; eauto | | lia].
    intros d di Hin Hw Hty.
    pose proof E as E'. apply entries_effects in E' as [_ [_ [_ [N [En _]]]]].
    assert (Hd : In d (keys next)) by (apply in_map_iff; now exists (d, di)).
    apply N in Hd as [[]|[k [item [Hink [Hwk [Htyk Hdk]]]]]].
    apply En in Hin as [[]|Hget].
    assert (rank d < rank k) by (eapply Hrank; eauto).
    specialize (Hb k item Hink Hwk Htyk). lia.
Qed.

(** The closure is produced when, in addition, no import of a walked
    Internal record is missing and the identities convert to paths. *)
Lemma create_returns (rank : string -> nat) (bound fuel : nat) (id : string) :
  internalImportsDescend rank ->
  (forall k item, In (k, item) originalItems -> rank k < bound) ->
  importsPresent originalItems -> pathsFound originalItems ->
  bound < fuel ->
  exists r, create fuel id = Some (Ok r).
Proof.
  intros Hrank Hbound Himp Hpaths Hfuel.
  destruct (loop_terminates rank Hrank bound (seedItems id originalItems) emptyAcc fuel)
    as [out Hout]; [apply seedItems_frontierOf | | assumption |].
  { intros k item Hin _ _. apply Hbound with item.
    exact (seedItems_frontierOf id _ Hin). }
  unfold createShadcnItemDependencies, closureAcc. rewrite Hout.
  destruct out as [acc|e]; [simpl; eauto|]. exfalso.
  apply loop_Throw in Hout as [k [item [Hin [Hw [H|H]]]]]; [| |apply seedItems_frontierOf].
  - destruct H as [_ [Hty [d [Hd Hmiss]]]]. exact (Himp k item d Hin Hw Hty Hd Hmiss).
  - destruct H as [_ [Hpf [Hq Hu]]]. exact (Hpaths k item Hin Hw Hpf Hq Hu).
Qed.

(** The files of the closure of [A] hold the entries of the internal helper
    [B] it imports and of the file-producing module [C] that [B] imports. *)
Lemma chain_files (fuel : nat) (A B C : string) (a b c : ShadcnItem)
  (r : ShadcnItemDependencies) :
  wf originalItems ->
  create fuel A = Some (Ok r) ->
  get originalItems A = Some a -> In B (modules a) ->
  get originalItems B = Some b -> type (meta b) = registry_internal ->
  walked B -> queryFree B -> In C (modules b) ->
  get originalItems C = Some c -> producesFile (type (meta c)) ->
  walked C -> queryFree C ->
  exists pB pC,
    localPath B = Ok pB /\ localPath C = Ok pC /\
    In (fileEntry originalItems B pB) (files r) /\
    In (fileEntry originalItems C pC) (files r).
Proof.
  intros Hwf Hrun HA HB Hb Hty HwB HqB HC Hc Hpf HwC HqC.
  apply create_Ok in Hrun as [acc [Hacc ->]].
  pose proof (final_acc_provenance _ _ _ Hacc) as [Hcan _].
  assert (HinB : In (B, b) (seedItems A originalItems)).
  { rewrite seedItems_wf by assumption. apply filter_In. split; [now apply get_In|].
    cbn [fst]. rewrite HA. apply array_includes_In. now right. }
  unfold closureAcc in Hacc.
  assert (HfB : In B (keys (acc_files acc))).
  { eapply loop_files_of_frontier; eauto using seedItems_frontierOf, provenance_empty.
    rewrite Hty. split; discriminate. }
  destruct (loop_next_of_internal _ _ _ _ _ _ C Hacc (seedItems_frontierOf A)
              provenance_empty HinB HwB Hty HC)
    as [f [next [acc1 [c' [Hl [Hfr [Hp HinC]]]]]]].
  assert (c' = c) as ->.
  { apply Hfr in HinC. apply In_get in HinC; [congruence | assumption]. }
  assert (HfC : In C (keys (acc_files acc))).
  { eapply loop_files_of_frontier; eauto. }
  destruct (file_of_key _ _ Hcan HfB) as [pB [HpB HinfB]].
  destruct (file_of_key _ _ Hcan HfC) as [pC [HpC HinfC]].
  exists pB, pC. auto.
Qed.

(** C1. A walked Internal module of a frontier has all its direct imports put
    into the next frontier and, unless its identity holds a query
    delimiter, becomes a file; so when item [A] imports the internal helper
    [B], which imports the file-producing module [C], the files of [A]'s
    closure hold the entries of both [B] and [C]; and that closure is
    produced whenever the internal helpers do not import each other in a
    cycle, none of their imports is missing and the identities convert to
    paths. *)
Theorem C1_internal_helpers_are_flattened :
  (forall (items nextItems : JsMap.t ShadcnItem) (acc acc' : ClosureAcc)
          (k : string) (item : ShadcnItem),
      round items acc = Ok (nextItems, acc') ->
      In (k, item) items -> type (meta item) = registry_internal -> walked k ->
      (forall d, In d (modules item) ->
         exists di, get originalItems d = Some di /\ get nextItems d = Some di) /\
      (queryFree k -> In k (keys (acc_files acc')))) /\
  (forall (fuel : nat) (A B C : string) (a b c : ShadcnItem) (r : ShadcnItemDependencies),
      wf originalItems ->
      create fuel A = Some (Ok r) ->
      get originalItems A = Some a -> In B (modules a) ->
      get originalItems B = Some b -> type (meta b) = registry_internal ->
      walked B -> queryFree B -> In C (modules b) ->
      get originalItems C = Some c -> producesFile (type (meta c)) ->
      walked C -> queryFree C ->
      exists pB pC,
        localPath B = Ok pB /\ localPath C = Ok pC /\
        In (fileEntry originalItems B pB) (files r) /\
        In (fileEntry originalItems C pC) (files r)) /\
  (forall (rank : string -> nat) (bound fuel : nat) (A B C : string) (a b c : ShadcnItem),
      wf originalItems ->
      internalImportsDescend rank ->
      (forall k item, In (k, item) originalItems -> rank k < bound) ->
      importsPresent originalItems -> pathsFound originalItems -> bound < fuel ->
      get originalItems A = Some a -> In B (modules a) ->
      get originalItems B = Some b -> type (meta b) = registry_internal ->
      walked B -> queryFree B -> In C (modules b) ->
      get originalItems C = Some c -> producesFile (type (meta c)) ->
      walked C -> queryFree C ->
      exists r pB pC,
        create fuel A = Some (Ok r) /\
        localPath B = Ok pB /\ localPath C = Ok pC /\
        In (fileEntry originalItems B pB) (files r) /\
        In (fileEntry originalItems C pC) (files r)).
Proof.
  split; [|split].
  - intros items next acc acc' k item H Hin Hty Hw.
    apply entries_effects in H as [F [_ [_ [N [E _]]]]]. split.
    + intros d Hd.
      assert (Hk : In d (keys next)) by (apply N; eauto 7).
      apply In_keys_get in Hk as [di Hdi]. exists di. split; [|assumption].
      apply get_In in Hdi. apply E in Hdi as [[]|Hdi]. exact Hdi.
    + intros Hq. apply F. right. exists item.
      repeat split; try assumption; rewrite Hty; discriminate.
  - intros fuel A B C a b c r. apply chain_files.
  - intros rank bound fuel A B C a b c Hwf Hrank Hbound Himp Hpaths Hfuel
      HA HB Hb Hty HwB HqB HC Hc Hpf HwC HqC.
    destruct (create_returns rank bound fuel A Hrank Hbound Himp Hpaths Hfuel) as [r Hr].
    destruct (chain_files fuel A B C a b c r) as [pB [pC H]]; try assumption.
    exists r, pB, pC. tauto.
Qed.

(** C2, as amended. Component, Hook and Lib modules of a frontier become
    files when their identity is walked and query-free; nothing is put
    into the next frontier but the imports of walked Internal modules;
    and every cross-reference is the name of a walked ShadcnPrimitive
    record. *)
Theorem C2_nested_items_are_embedded_not_walked :
  (forall (items nextItems : JsMap.t ShadcnItem) (acc acc' : ClosureAcc),
      round items acc = Ok (nextItems, acc') ->
      (forall k item, In (k, item) items ->
         type (meta item) = registry_component \/ type (meta item) = registry_hook \/
         type (meta item) = registry_lib ->
         walked k -> queryFree k -> In k (keys (acc_files acc'))) /\
      (forall d, In d (keys nextItems) ->
         exists k item, In (k, item) items /\ walked k /\
                        type (meta item) = registry_internal /\ In d (modules item)) /\
      (forall n, In n (acc_registryDependencies acc') ->
         In n (acc_registryDependencies acc) \/
         exists k item, In (k, item) items /\ walked k /\
                        type (meta item) = registry_shadcn /\ n = name (meta item))) /\
  (forall (fuel : nat) (A B : string) (a b : ShadcnItem) (r : ShadcnItemDependencies),
      wf originalItems -> create fuel A = Some (Ok r) ->
      get originalItems A = Some a -> In B (modules a) ->
      get originalItems B = Some b ->
      type (meta b) = registry_component \/ type (meta b) = registry_hook \/
      type (meta b) = registry_lib ->
      walked B -> queryFree B ->
      exists p, localPath B = Ok p /\ In (fileEntry originalItems B p) (files r)) /\
  (forall (fuel : nat) (id : string) (r : ShadcnItemDependencies),
      create fuel id = Some (Ok r) ->
      forall n, In n (registryDependencies r) ->
        exists k item, In (k, item) originalItems /\ walked k /\
                       type (meta item) = registry_shadcn /\ n = name (meta item)).
Proof.
  split; [|split].
  - intros items next acc acc' H.
    apply entries_effects in H as [F [_ [R [N _]]]]. split; [|split].
    + intros k item Hin Hty Hw Hq. apply F. right. exists item.
      repeat split; try assumption; destruct Hty as [-> | [-> | ->]]; discriminate.
    + intros d Hd. apply N in Hd as [[]|Hd]. exact Hd.
    + intros n Hn. now apply R.
  - intros fuel A B a b r Hwf Hrun HA HB Hb Hty Hw Hq.
    apply create_Ok in Hrun as [acc [Hacc ->]].
    pose proof (final_acc_provenance _ _ _ Hacc) as [Hcan _].
    apply file_of_key; [assumption|]. unfold closureAcc in Hacc.
    eapply loop_files_of_frontier with (item := b);
      eauto using seedItems_frontierOf, provenance_empty.
    + rewrite seedItems_wf by assumption. apply filter_In. split; [now apply get_In|].
      cbn [fst]. rewrite HA. apply array_includes_In. now right.
    + split; destruct Hty as [-> | [-> | ->]]; discriminate.
  - intros fuel id r Hrun n Hn.
    apply create_Ok in Hrun as [acc [Hacc ->]].
    apply final_acc_provenance in Hacc as [_ [_ Hreg]]. now apply Hreg.
Qed.

(** C3. The files of a closure never hold an entry for an identity that
    starts with the marker or holds a query delimiter; marked identities
    contribute no dependency or cross-reference either, and a marked entry
    of a frontier is skipped: it changes neither the collections nor the
    next frontier. *)
Theorem C3_no_marked_or_query_files :
  (forall (fuel : nat) (id : string) (r : ShadcnItemDependencies),
      create fuel id = Some (Ok r) ->
      exists acc,
        final_acc fuel id = Some (Ok acc) /\
        files r = values (acc_files acc) /\
        (forall k, In k (keys (acc_files acc)) ->
           startsWith k NUL = false /\ includes k "?" = false) /\
        (forall x, In x (dependencies r) -> startsWith x NUL = false) /\
        (forall n, In n (registryDependencies r) ->
           exists k item, In (k, item) originalItems /\ startsWith k NUL = false /\
                          type (meta item) = registry_shadcn /\ n = name (meta item))) /\
  (forall (s : JsMap.t ShadcnItem * ClosureAcc) (k : string) (item : ShadcnItem),
      startsWith k NUL = true -> entry_step s (k, item) = Ok s).
Proof.
  split.
  - intros fuel id r Hrun. apply create_Ok in Hrun as [acc [Hacc ->]].
    exists acc. destruct (final_acc_provenance _ _ _ Hacc) as [Hcan [Hdep Hreg]].
    split; [assumption | split; [reflexivity | split; [|split]]].
    + intros k Hk. apply In_keys_get in Hk as [f Hf].
      destruct (Hcan _ _ Hf) as [Hw [Hq _]]. split; assumption.
    + intros x Hx. apply Hdep in Hx as [item [_ [Hw _]]]. exact Hw.
    + intros n Hn. apply Hreg in Hn. exact Hn.
  - intros [next acc] k item Hnul. unfold processEntry. now rewrite Hnul.
Qed.

(** C5. A walked Internal module of the frontier with an import that the
    record map lacks makes the round, and the loop, throw (the
    missing-record error, unless the path conversion of an entry has
    failed before); when every import of every walked Internal module is
    in the map, the missing-record error is not raised. *)
Theorem C5_missing_record_is_fatal :
  (forall (items : JsMap.t ShadcnItem) (acc : ClosureAcc) (k : string)
          (item : ShadcnItem) (d : string),
      In (k, item) items -> type (meta item) = registry_internal -> walked k ->
      In d (modules item) -> get originalItems d = None ->
      exists e, (e = MissingRecord \/ e = InvalidFileURL) /\
                (pathsFound items -> e = MissingRecord) /\
                round items acc = Throw e /\
                forall fuel, loop (S fuel) items acc = Some (Throw e)) /\
  (forall (items : JsMap.t ShadcnItem) (acc : ClosureAcc),
      (forall k item d, In (k, item) items -> type (meta item) = registry_internal ->
         walked k -> In d (modules item) -> get originalItems d <> None) ->
      round items acc <> Throw MissingRecord) /\
  ((forall k item d, In (k, item) originalItems ->
      type (meta item) = registry_internal -> walked k ->
      In d (modules item) -> get originalItems d <> None) ->
   forall (fuel : nat) (id : string), create fuel id <> Some (Throw MissingRecord)).
Proof.
  split; [|split].
  - intros items acc k item d Hin Hty Hw Hd Hmiss.
    destruct (foldM_throws entry_step (entries items) (k, item) Hin) with (s := (empty (V := ShadcnItem), acc))
      as [e He].
    { intros [next acc0]. exists MissingRecord. unfold processEntry.
      unfold walked in Hw. rewrite Hw, Hty.
      now rewrite (enqueue_all_missing _ d Hd Hmiss). }
    exists e. split; [|split; [|split]].
    + apply round_Throw in He as [k' [item' [_ [_ [[-> _] | [-> _]]]]]]; auto.
    + intros Hpaths.
      apply round_Throw in He as [k' [item' [Hin' [Hw' [[-> _] | [_ [Hpf [Hq Hu]]]]]]]];
        [reflexivity|].
      exfalso. exact (Hpaths k' item' Hin' Hw' Hpf Hq Hu).
    + exact He.
    + intros fuel. rewrite loop_step by (intros ->; contradiction).
      unfold processItems. now rewrite He.
  - intros items acc Hall H.
    apply round_Throw in H as [k [item [Hin [Hw [[_ [Hty [d [Hd Hmiss]]]]|[H _]]]]]];
      [|discriminate].
    now apply (Hall k item d).
  - intros Hall fuel id H. apply create_Throw in H. unfold closureAcc in H.
    apply loop_Throw in H; [|apply seedItems_frontierOf].
    destruct H as [k [item [Hin [Hw [[_ [Hty [d [Hd Hmiss]]]]|[H _]]]]]]; [|discriminate].
    now apply (Hall k item d).
Qed.

(** C10. The seed holds only identities of the record map, so an import of
    the target that the map lacks is dropped without an error; a target
    that the map lacks gives the empty result; a seed without a walked
    Internal module ends the computation after one round, without the
    missing-record error and, when the identities of the seed convert to
    paths, with a result; and the missing-record error is only ever raised
    for an import of a walked Internal module. *)
Theorem C10_seed_drops_absent_imports :
  (forall (id k : string),
      In k (keys (seedItems id originalItems)) <->
      In k (keys originalItems) /\
      (k = id \/ exists a, get originalItems id = Some a /\ In k (modules a))) /\
  (forall (id : string) (fuel : nat),
      get originalItems id = None ->
      create fuel id =
        Some (Ok {| dependencies := []; registryDependencies := []; files := [] |})) /\
  (forall (id : string) (fuel : nat),
      (forall k item, In (k, item) (seedItems id originalItems) -> walked k ->
         type (meta item) <> registry_internal) ->
      (exists out, create (S fuel) id = Some out /\ out <> Throw MissingRecord) /\
      (pathsFound (seedItems id originalItems) ->
       exists r, create (S fuel) id = Some (Ok r))) /\
  (forall (id : string) (fuel : nat),
      create fuel id = Some (Throw MissingRecord) ->
      exists k item d, In (k, item) originalItems /\ walked k /\
        type (meta item) = registry_internal /\ In d (modules item) /\
        get originalItems d = None).
Proof.
  split; [|split; [|split]].
  - intros id k. unfold seedItems. rewrite of_entries_keys. unfold entries, keys.
    rewrite !in_map_iff. split.
    + intros [[k' v] [<- Hin]]. apply filter_In in Hin as [Hin Hk].
      cbn [fst] in *. split; [now exists (k', v)|].
      apply array_includes_In in Hk as [Hk|Hk]; [auto|].
      destruct (get originalItems id) as [a|]; [eauto | contradiction].
    + intros [[[k' v] [<- Hin]] Hk]. exists (k', v). split; [reflexivity|].
      apply filter_In. split; [assumption|]. cbn [fst] in *.
      apply array_includes_In. destruct Hk as [->|[a [-> Ha]]]; [now left | now right].
  - intros id fuel Hnone.
    assert (Hseed : seedItems id originalItems = []).
    { destruct (seedItems id originalItems) as [|[k v] rest] eqn:E; [reflexivity|].
      assert (Hk : In k (keys (seedItems id originalItems))) by (rewrite E; now left).
      unfold seedItems in Hk. rewrite of_entries_keys in Hk.
      apply in_map_iff in Hk as [[k' v'] [Hfst Hin]]. apply filter_In in Hin as [Hin Hk].
      rewrite Hnone in Hk. cbn [fst] in Hk. apply array_includes_In in Hk as [Hk|[]].
      assert (In id (keys originalItems)) by (apply in_map_iff; exists (k', v'); auto).
      apply get_None_keys in Hnone. contradiction. }
    unfold createShadcnItemDependencies, closureAcc. rewrite Hseed.
    destruct fuel; reflexivity.
  - intros id fuel Hnone.
    assert (Hrun : forall nextItems acc1,
               round (seedItems id originalItems) emptyAcc = Ok (nextItems, acc1) ->
               create (S fuel) id = Some (Ok (closureResult acc1))).
    { intros next acc1 Hr.
      assert (next = []) as ->.
      { destruct next as [|[d di] next]; [reflexivity|]. exfalso.
        apply entries_effects in Hr as [_ [_ [_ [N _]]]].
        destruct (proj1 (N d) (or_introl eq_refl)) as [[]|[k [item [Hin [Hw [Hty _]]]]]].
        exact (Hnone k item Hin Hw Hty). }
      unfold createShadcnItemDependencies, closureAcc.
      destruct (seedItems id originalItems) as [|e0 seed] eqn:Hseed.
      - unfold processItems in Hr. simpl in Hr. inversion Hr; subst. reflexivity.
      - rewrite loop_step by discriminate. rewrite Hr, loop_nil. reflexivity. }
    split.
    + destruct (round (seedItems id originalItems) emptyAcc) as [[next acc1]|e] eqn:Hr.
      * rewrite (Hrun _ _ eq_refl). eexists. split; [reflexivity | discriminate].
      * exists (Throw e). split.
        -- unfold createShadcnItemDependencies, closureAcc.
           rewrite loop_step, Hr; [reflexivity|].
           intros Hnil. rewrite Hnil in Hr. discriminate.
        -- intros [= ->].
           apply round_Throw in Hr as [k [item [Hin [Hw [[_ [Hty _]]|[H _]]]]]];
             [|discriminate].
           exact (Hnone k item Hin Hw Hty).
    + intros Hpaths.
      destruct (round_total (seedItems id originalItems) emptyAcc) as [next [acc1 Hr]];
        [|assumption|eauto].
      intros k item d Hin Hw Hty. exfalso. exact (Hnone k item Hin Hw Hty).
  - intros id fuel H. apply create_Throw in H. unfold closureAcc in H.
    apply loop_Throw in H; [|apply seedItems_frontierOf].
    destruct H as [k [item [Hin [Hw [[_ [Hty [d [Hd Hmiss]]]]|[H _]]]]]]; [|discriminate].
    exists k, item, d. auto.
Qed.
End ClosureBuilder.

(** **** The closure builder on the example project *)

Lemma example_wf : JsMap.wf Example.originalItems.
Proof.
  unfold JsMap.wf. simpl.
  repeat (constructor; [simpl; intuition discriminate|]). constructor.
Qed.

Ltac example_entry Hin :=
  simpl in Hin;
  repeat (destruct Hin as [Hin|Hin]; [inversion Hin; subst; clear Hin|]);
  [..|contradiction].

Lemma example_importsPresent :
  importsPresent Example.originalItems Example.originalItems.
Proof.
  intros k item d Hin Hw Hty Hd. example_entry Hin;
    try discriminate Hty; try discriminate Hw.
  simpl in Hd. destruct Hd as [<-|[]]. vm_compute. discriminate.
Qed.

Lemma example_pathsFound :
  pathsFound Host.fileURLToPath_URL Example.originalItems.
Proof.
  intros k item Hin Hw [Hpf1 Hpf2] Hq. example_entry Hin;
    try discriminate Hw; try discriminate Hq;
    try (exfalso; apply Hpf1; reflexivity); try (exfalso; apply Hpf2; reflexivity);
    vm_compute; discriminate.
Qed.

Lemma example_internalImportsDescend :
  internalImportsDescend Example.originalItems (fun _ => 0).
Proof.
  intros k item d item' Hin Hw Hty Hd Hget Hwd Htyd. example_entry Hin;
    try discriminate Hty; try discriminate Hw.
  simpl in Hd. destruct Hd as [<-|[]]. vm_compute in Hget.
  inversion Hget; subst. discriminate Htyd.
Qed.

Lemma C1_witness :
  exists r pB pC,
    Host.closure 5 Example.root Example.card Example.originalItems = Some (Ok r) /\
    getLocalFilePath Example.root Host.fileURLToPath_URL Example.format Example.root
      = Ok pB /\
    getLocalFilePath Example.root Host.fileURLToPath_URL Example.useDate Example.root
      = Ok pC /\
    In (fileEntry Example.originalItems Example.format pB) (files r) /\
    In (fileEntry Example.originalItems Example.useDate pC) (files r).
Proof.
  apply (proj2 (proj2 (C1_internal_helpers_are_flattened Example.root
                         Host.fileURLToPath_URL Example.originalItems Example.root)))
    with (rank := fun _ => 0) (bound := 1) (a := Example.cardItem)
         (b := Example.formatItem) (c := Example.useDateItem);
    try (vm_compute; reflexivity).
  - exact example_wf.
  - exact example_internalImportsDescend.
  - exact example_importsPresent.
  - exact example_pathsFound.
  - lia.
  - simpl. tauto.
  - simpl. tauto.
  - split; discriminate.
Defined.

(** C2 as stated fails: the script block of a Vue composable is classified
    Hook and is in the seed of [card], yet no file is added for it. *)
Lemma C2_counterexample :
  Host.classify Example.root (Example.resolved Example.clock)
    = Ok {| name := "use-clock"; type := registry_hook |} /\
  ~ (forall (items nextItems : JsMap.t ShadcnItem) (acc acc' : ClosureAcc)
            (k : string) (item : ShadcnItem),
        processItems Example.root Host.fileURLToPath_URL Example.originalItems
          Example.root items acc = Ok (nextItems, acc') ->
        In (k, item) items ->
        type (meta item) = registry_component \/ type (meta item) = registry_hook \/
        type (meta item) = registry_lib ->
        In k (JsMap.keys (acc_files acc'))).
Proof.
  split; [vm_compute; reflexivity|]. intros H.
  assert (E : exists nextItems acc',
             processItems Example.root Host.fileURLToPath_URL Example.originalItems
               Example.root (seedItems Example.card Example.originalItems) emptyAcc
             = Ok (nextItems, acc') /\
             ~ In Example.clock (JsMap.keys (acc_files acc'))).
  { eexists. eexists. split; [vm_compute; reflexivity|].
    vm_compute. intuition discriminate. }
  destruct E as [nextItems [acc' [E Hn]]]. apply Hn.
  apply (H _ _ _ _ Example.clock Example.clockItem E).
  - vm_compute. tauto.
  - right. left. reflexivity.
Qed.

Lemma C2_witness :
  exists r,
    Host.closure 5 Example.root Example.useDate Example.originalItems = Some (Ok r) /\
    exists p,
      getLocalFilePath Example.root Host.fileURLToPath_URL Example.pad Example.root = Ok p /\
      In (fileEntry Example.originalItems Example.pad p) (files r).
Proof.
  eexists. split; [vm_compute; reflexivity|].
  apply (proj1 (proj2 (C2_nested_items_are_embedded_not_walked Example.root
                         Host.fileURLToPath_URL Example.originalItems Example.root)))
    with (fuel := 5) (A := Example.useDate) (a := Example.useDateItem)
         (b := Example.item "utils" registry_lib [Example.gone] "pad");
    try (vm_compute; reflexivity).
  - exact example_wf.
  - simpl. tauto.
  - right. right. reflexivity.
Defined.

Lemma C3_witness :
  exists r,
    Host.closure 5 Example.root Example.card Example.originalItems = Some (Ok r) /\
    exists acc,
      closureAcc Example.root Host.fileURLToPath_URL 5 Example.card
        Example.originalItems Example.root = Some (Ok acc) /\
      files r = JsMap.values (acc_files acc) /\
      (forall k, In k (JsMap.keys (acc_files acc)) ->
         startsWith k NUL = false /\ includes k "?" = false) /\
      (forall x, In x (dependencies r) -> startsWith x NUL = false) /\
      (forall n, In n (registryDependencies r) ->
         exists k item, In (k, item) Example.originalItems /\ startsWith k NUL = false /\
                        type (meta item) = registry_shadcn /\ n = name (meta item)).
Proof.
  eexists. split; [vm_compute; reflexivity|].
  apply (proj1 (C3_no_marked_or_query_files Example.root Host.fileURLToPath_URL
                  Example.originalItems Example.root) 5 Example.card).
  vm_compute. reflexivity.
Defined.

Lemma C5_witness :
  (exists e, (e = MissingRecord \/ e = InvalidFileURL) /\
     (pathsFound Host.fileURLToPath_URL (seedItems Example.card Example.brokenItems) ->
      e = MissingRecord) /\
     processItems Example.root Host.fileURLToPath_URL Example.brokenItems Example.root
       (seedItems Example.card Example.brokenItems) emptyAcc = Throw e /\
     forall fuel,
       closureLoop Example.root Host.fileURLToPath_URL (S fuel) Example.brokenItems
         Example.root (seedItems Example.card Example.brokenItems) emptyAcc
       = Some (Throw e)) /\
  (forall fuel id, Host.closure fuel Example.root id Example.originalItems
                   <> Some (Throw MissingRecord)).
Proof.
  split.
  - apply (proj1 (C5_missing_record_is_fatal Example.root Host.fileURLToPath_URL
                    Example.brokenItems Example.root))
      with (k := Example.format)
           (item := Example.item Example.format registry_internal [Example.gone] "format")
           (d := Example.gone);
      try (vm_compute; reflexivity).
    + vm_compute. tauto.
    + simpl. tauto.
  - apply (proj2 (proj2 (C5_missing_record_is_fatal Example.root Host.fileURLToPath_URL
                           Example.originalItems Example.root))).
    intros k item d Hin Hty Hw Hd.
    exact (example_importsPresent k item d Hin Hw Hty Hd).
Defined.

Lemma C10_witness :
  (JsMap.get Example.originalItems Example.gone = None /\
   Host.closure 0 Example.root Example.gone Example.originalItems =
     Some (Ok {| dependencies := []; registryDependencies := []; files := [] |})) /\
  (In Example.gone (modules (Example.item "utils" registry_lib [Example.gone] "pad")) /\
   ~ In Example.gone (JsMap.keys (seedItems Example.pad Example.originalItems)) /\
   exists r, Host.closure 1 Example.root Example.pad Example.originalItems = Some (Ok r)).
Proof.
  pose proof (C10_seed_drops_absent_imports Example.root Host.fileURLToPath_URL
                Example.originalItems Example.root) as [Hseed [Habsent [Hround _]]].
  split; [split; [reflexivity | apply Habsent; reflexivity]|].
  split; [simpl; tauto|]. split.
  - intros Hin. apply Hseed in Hin as [Hin _]. vm_compute in Hin. intuition discriminate.
  - destruct (Hround Example.pad 0) as [_ Hok].
    + intros k item Hin Hw. vm_compute in Hin.
      destruct Hin as [Hin|[]]. inversion Hin; subst. discriminate.
    + apply Hok. intros k item Hin _ _ _. vm_compute in Hin.
      destruct Hin as [Hin|[]]. inversion Hin; subst. vm_compute. discriminate.
Defined.

(** *** Registry store *)

Section RegistryStore.
Import JsMap JsMapFacts.

(** The registry after the calls [addItem(i1)], ..., [addItem(in)]. *)
Local Abbreviation added :=
  (fun (r : RegistryImpl) (calls : list RegistryItem) => fold_left addItem calls r).

(** The most recent of [calls] whose name is [n]. *)
Local Abbreviation latest :=
  (fun (n : string) (calls : list RegistryItem) =>
     find (fun item => item_name item =? n) (rev calls)).

Lemma getItem_addItem_same (r : RegistryImpl) (item : RegistryItem) :
  getItem (addItem r item) (item_name item) = Some item.
Proof. apply get_set_eq. Qed.

Lemma getItem_addItem_other (r : RegistryImpl) (item : RegistryItem) (n : string) :
  n <> item_name item -> getItem (addItem r item) n = getItem r n.
Proof. intros H. apply get_set_ne. congruence. Qed.

Lemma getItem_added (calls : list RegistryItem) :
  forall (r : RegistryImpl) (n : string),
    getItem (added r calls) n =
      match latest n calls with
      | Some item => Some item
      | None => getItem r n
      end.
Proof.
  induction calls as [|item calls IH] using rev_ind; intros r n; [reflexivity|].
  rewrite fold_left_app, rev_app_distr. simpl.
  destruct (item_name item =? n) eqn:E.
  - apply String.eqb_eq in E. subst n. apply getItem_addItem_same.
  - apply String.eqb_neq in E. rewrite getItem_addItem_other by congruence. apply IH.
Qed.

Lemma keys_added (calls : list RegistryItem) :
  forall r : RegistryImpl,
    keys (itemsMap (added r calls)) =
      fold_left JsSet.add (map item_name calls) (keys (itemsMap r)).
Proof.
  induction calls as [|item calls IH]; intros r; [reflexivity|].
  simpl. rewrite IH. simpl. now rewrite keys_set.
Qed.

(** Every item is stored under its own name. *)
Lemma keyed_by_name (calls : list RegistryItem) :
  forall r : RegistryImpl,
    (forall k item, In (k, item) (itemsMap r) -> k = item_name item) ->
    forall k item, In (k, item) (itemsMap (added r calls)) -> k = item_name item.
Proof.
  induction calls as [|c calls IH]; intros r Hr; [exact Hr|].
  simpl. apply IH. simpl. intros k item Hin.
  apply In_set in Hin as [[= -> ->]|Hin]; [reflexivity | now apply Hr].
Qed.

Lemma names_are_keys (m : JsMap.t RegistryItem) :
  (forall k item, In (k, item) m -> k = item_name item) ->
  map item_name (values m) = keys m.
Proof.
  unfold values, keys. induction m as [|[k v] m IH]; simpl; intros H; [reflexivity|].
  rewrite IH by auto. f_equal. symmetry. auto.
Qed.

(** C8. After any sequence of [addItem] calls on a new registry, [getItem n]
    is the most recently added item named [n], or null; [addItem] replaces
    the item of the same name and leaves the others; and [items] lists the
    distinct names once each, in the order of their first insertion, every
    entry being the most recently added item of its name. *)
Theorem C8_registry_store_last_write_wins (name homepage : string)
  (calls : list RegistryItem) :
  let r := added (newRegistryImpl name homepage) calls in
  (forall n, getItem r n = latest n calls) /\
  (forall (r' : RegistryImpl) (item : RegistryItem),
      getItem (addItem r' item) (item_name item) = Some item /\
      (forall n, n <> item_name item -> getItem (addItem r' item) n = getItem r' n) /\
      (getItem r' (item_name item) <> None ->
       length (items (addItem r' item)) = length (items r'))) /\
  map item_name (items r) = fold_left JsSet.add (map item_name calls) [] /\
  NoDup (map item_name (items r)) /\
  (forall n, In n (map item_name (items r)) <-> In n (map item_name calls)) /\
  (forall item, In item (items r) -> latest (item_name item) calls = Some item).
Proof.
  intros r.
  assert (Hget : forall n, getItem r n = latest n calls).
  { intros n. unfold r. rewrite getItem_added. now destruct (find _ _). }
  assert (Hkeyed : forall k item, In (k, item) (itemsMap r) -> k = item_name item).
  { apply keyed_by_name. intros k item []. }
  assert (Hnames : map item_name (items r) = fold_left JsSet.add (map item_name calls) []).
  { unfold items. rewrite names_are_keys by assumption. unfold r. now rewrite keys_added. }
  split; [exact Hget|]. split; [|split; [exact Hnames|split; [|split]]].
  - intros r' item. split; [apply getItem_addItem_same|].
    split; [intros n; apply getItem_addItem_other|].
    intros Hpresent. unfold items, values, addItem; simpl. rewrite !length_map.
    now apply length_set_present.
  - rewrite Hnames. apply JsSetFacts.NoDup_fold_add. constructor.
  - intros n. rewrite Hnames, JsSetFacts.In_fold_add. simpl. tauto.
  - intros item Hin. unfold items, values in Hin.
    apply in_map_iff in Hin as [[k v] [Hv Hin]]. simpl in Hv. subst v.
    pose proof (Hkeyed _ _ Hin) as ->.
    rewrite <- Hget. apply In_get; [|assumption].
    unfold wf. rewrite <- names_are_keys by assumption. fold (items r).
    rewrite Hnames. apply JsSetFacts.NoDup_fold_add. constructor.
Qed.
End RegistryStore.

Lemma C8_witness :
  let utils1 := {| item_name := "utils"; item_type := registry_lib; item_files := [];
                   item_dependencies := ["clsx"]; item_registryDependencies := [] |} in
  let card := {| item_name := "card"; item_type := registry_component; item_files := [];
                 item_dependencies := []; item_registryDependencies := ["button"] |} in
  let utils2 := {| item_name := "utils"; item_type := registry_lib; item_files := [];
                   item_dependencies := []; item_registryDependencies := [] |} in
  let r := fold_left addItem [utils1; card; utils2] (newRegistryImpl "some name" "some homepage") in
  getItem r "utils" = Some utils2 /\ getItem r "button" = None /\
  items r = [utils2; card] /\
  map item_name (items r) = ["utils"; "card"].
Proof.
  intros utils1 card utils2 r.
  destruct (C8_registry_store_last_write_wins "some name" "some homepage"
              [utils1; card; utils2]) as [Hget [_ [Hnames _]]].
  split; [exact (Hget "utils")|]. split; [exact (Hget "button")|].
  split; [reflexivity | exact Hnames].
Defined.

(** *** Graph walker *)

Section GraphWalker.
Variable getModuleInfo : string -> option ModuleInfo.

Local Abbreviation edge := (imports getModuleInfo).
Local Abbreviation reach := (reachable getModuleInfo).
Local Abbreviation expand := (expandFrontier getModuleInfo).
Local Abbreviation walk := (walkLoop getModuleInfo).
Local Abbreviation walkInvariant := (walkInvariant getModuleInfo).

Lemma mapM_moduleInfo_Ok (xs : list string) (infos : list ModuleInfo) :
  mapM (moduleInfoOrThrow getModuleInfo) xs = Ok infos ->
  Forall2 (fun x moduleInfo => getModuleInfo x = Some moduleInfo) xs infos.
Proof.
  revert infos. induction xs as [|x xs IH]; simpl; intros infos H.
  - inversion H. constructor.
  - apply bind_Ok in H as [moduleInfo [H1 H2]].
    apply bind_Ok in H2 as [infos' [H2 [= <-]]].
    unfold moduleInfoOrThrow in H1.
    destruct (getModuleInfo x) eqn:E; [|discriminate]. inversion H1; subst.
    constructor; auto.
Qed.

(** The expansion of a frontier lists exactly the imports of its members. *)
Lemma expand_Ok (xs ids : list string) :
  expand xs = Ok ids ->
  (forall x, In x xs -> getModuleInfo x <> None) /\
  (forall y, In y ids <-> exists x, In x xs /\ edge x y).
Proof.
  unfold expandFrontier. intros H. apply bind_Ok in H as [infos [H [= <-]]].
  apply mapM_moduleInfo_Ok in H.
  induction H as [|x moduleInfo xs infos Hx H IH]; simpl.
  - split; [intros x [] | intros y; split; [intros [] | intros [x [[] _]]]].
  - destruct IH as [IH1 IH2]. split.
    + intros x' [<-|Hin]; [congruence | auto].
    + intros y. rewrite in_app_iff, IH2. unfold walkerImportedIds, imports. split.
      * intros [Hy|[x' [Hin Hy]]]; [exists x; eauto | exists x'; auto].
      * intros [x' [[<-|Hin] Hy]]; [|eauto].
        destruct Hy as [moduleInfo' [Hm Hy]]. left. congruence.
Qed.

Lemma expand_total (xs : list string) :
  (forall x, In x xs -> getModuleInfo x <> None) -> exists ids, expand xs = Ok ids.
Proof.
  unfold expandFrontier. intros H.
  assert (exists infos, mapM (moduleInfoOrThrow getModuleInfo) xs = Ok infos) as [infos ->];
    [|simpl; eauto].
  induction xs as [|x xs IH]; simpl; [eauto|].
  unfold moduleInfoOrThrow at 1.
  destruct (getModuleInfo x) eqn:E; [|exfalso; apply (H x); simpl; auto].
  destruct IH as [infos ->]; [intros; apply H; simpl; auto|]. simpl. eauto.
Qed.

Lemma walk_nil (fuel : nat) (hoisted : JsSet.t) : walk fuel [] hoisted = Some (Ok hoisted).
Proof. destruct fuel; reflexivity. Qed.

Lemma walkInvariant_step (root : string) (toProcess ids : list string) (hoisted : JsSet.t) :
  walkInvariant root toProcess hoisted -> expand toProcess = Ok ids ->
  walkInvariant root (filter (fun id => negb (JsSet.has hoisted id)) ids)
    (fold_left JsSet.add ids hoisted).
Proof.
  intros [Hnd [Hreach [Hfront Hclosed]]] Hexp.
  apply expand_Ok in Hexp as [_ Hids].
  assert (Hnew : forall y, In y ids -> reach root y).
  { intros y Hy. apply Hids in Hy as [x [Hx Hxy]].
    destruct (Hfront x Hx) as [->|Hrx].
    - now apply t_step.
    - eapply t_trans; [exact Hrx | now apply t_step]. }
  split; [|split; [|split]].
  - now apply JsSetFacts.NoDup_fold_add.
  - intros h Hh. apply JsSetFacts.In_fold_add in Hh as [Hh|Hh]; auto.
  - intros p Hp. apply filter_In in Hp as [Hp _]. auto.
  - intros h Hh.
    assert (Hcase : (h = root \/ In h hoisted) \/ (In h ids /\ ~ In h hoisted)).
    { destruct Hh as [Hh|Hh]; [auto|].
      apply JsSetFacts.In_fold_add in Hh as [Hh|Hh]; [auto|].
      destruct (JsSet.has hoisted h) eqn:E.
      - apply JsSetFacts.has_In in E. auto.
      - right. split; [assumption|]. intros Hin. apply JsSetFacts.has_In in Hin. congruence. }
    destruct Hcase as [Hold|[Hin Hnot]].
    + right. intros y Hy. apply JsSetFacts.In_fold_add.
      destruct (Hclosed h Hold) as [Hp|Hall]; [|auto].
      right. apply Hids. eauto.
    + left. apply filter_In. split; [assumption|].
      destruct (JsSet.has hoisted h) eqn:E; [|reflexivity].
      apply JsSetFacts.has_In in E. contradiction.
Qed.

(** Partial correctness: what the loop returns is the set of the
    identities reachable from [root]. *)
Lemma walk_correct (root : string) (fuel : nat) :
  forall (toProcess : list string) (hoisted s : JsSet.t),
    walkInvariant root toProcess hoisted ->
    walk fuel toProcess hoisted = Some (Ok s) ->
    NoDup s /\ forall v, In v s <-> reach root v.
Proof.
  induction fuel as [|fuel IH]; intros toProcess hoisted s Hinv H.
  - destruct toProcess; simpl in H; [|discriminate]. inversion H; subst.
    destruct Hinv as [Hnd [Hreach [_ Hclosed]]]. split; [assumption|].
    intros v. split; [apply Hreach|]. intros Hv.
    apply clos_trans_tn1 in Hv. induction Hv as [y Hy|y z Hyz Hv IHv].
    + destruct (Hclosed root (or_introl eq_refl)) as [[]|Hall]. auto.
    + destruct (Hclosed y (or_intror IHv)) as [[]|Hall]. auto.
  - destruct toProcess as [|p toProcess].
    + simpl in H. inversion H; subst.
      destruct Hinv as [Hnd [Hreach [_ Hclosed]]]. split; [assumption|].
      intros v. split; [apply Hreach|]. intros Hv.
      apply clos_trans_tn1 in Hv. induction Hv as [y Hy|y z Hyz Hv IHv].
      * destruct (Hclosed root (or_introl eq_refl)) as [[]|Hall]. auto.
      * destruct (Hclosed y (or_intror IHv)) as [[]|Hall]. auto.
    + cbn [walkLoop] in H.
      destruct (expand (p :: toProcess)) as [ids|e] eqn:Hexp; [|discriminate].
      eapply IH; [|exact H].
      now apply walkInvariant_step with (toProcess := p :: toProcess).
Qed.

(** Termination: on a graph with finitely many modules whose imports all
    have module information, fuel beyond the number of modules not yet
    hoisted is enough. *)
Lemma walk_terminates (nodes : list string) :
  (forall x, getModuleInfo x <> None -> In x nodes) ->
  (forall a b, edge a b -> getModuleInfo b <> None) ->
  forall (fuel : nat) (toProcess : list string) (hoisted : JsSet.t),
    (forall p, In p toProcess -> getModuleInfo p <> None) ->
    (forall h, In h hoisted -> getModuleInfo h <> None) ->
    NoDup hoisted ->
    length nodes - length hoisted < fuel ->
    exists s, walk fuel toProcess hoisted = Some (Ok s).
Proof.
  intros Hfin Hclosed.
  induction fuel as [|fuel IH]; intros toProcess hoisted Hp Hh Hnd Hfuel; [lia|].
  destruct toProcess as [|p toProcess]; [simpl; eauto|].
  cbn [walkLoop].
  destruct (expand_total (p :: toProcess) Hp) as [ids Hexp]. rewrite Hexp.
  apply expand_Ok in Hexp as [_ Hids].
  assert (Hids' : forall y, In y ids -> getModuleInfo y <> None).
  { intros y Hy. apply Hids in Hy as [x [_ Hxy]]. eauto. }
  set (next := filter (fun id => negb (JsSet.has hoisted id)) ids).
  set (hoisted' := fold_left JsSet.add ids hoisted).
  assert (Hh' : forall h, In h hoisted' -> getModuleInfo h <> None).
  { intros h Hin. apply JsSetFacts.In_fold_add in Hin as [Hin|Hin]; auto. }
  assert (Hnd' : NoDup hoisted') by now apply JsSetFacts.NoDup_fold_add.
  destruct next as [|x next'] eqn:Hnext.
  { rewrite walk_nil. eauto. }
  apply IH; try assumption.
  - intros q Hq. apply Hids'. rewrite <- Hnext in Hq. now apply filter_In in Hq.
  - assert (Hx : In x ids /\ ~ In x hoisted).
    { assert (Hin : In x next) by (rewrite Hnext; now left).
      apply filter_In in Hin as [Hin Hneg]. split; [assumption|].
      intros Hc. apply JsSetFacts.has_In in Hc. rewrite Hc in Hneg. discriminate. }
    destruct Hx as [Hx Hnot].
    assert (Hgrow : length (x :: hoisted) <= length hoisted').
    { apply NoDup_incl_length; [now constructor|].
      intros y [<-|Hy]; apply JsSetFacts.In_fold_add; auto. }
    assert (Hbound : length hoisted' <= length nodes).
    { apply NoDup_incl_length; [assumption|]. intros y Hy. auto. }
    simpl in Hgrow. lia.
Qed.

(** More fuel does not change what the loop returns. *)
Lemma walk_more_fuel (fuel : nat) :
  forall (toProcess : list string) (hoisted : JsSet.t) (out : result JsSet.t) (extra : nat),
    walk fuel toProcess hoisted = Some out ->
    walk (fuel + extra) toProcess hoisted = Some out.
Proof.
  induction fuel as [|fuel IH]; intros toProcess hoisted out extra H.
  - destruct toProcess; simpl in H; [|discriminate]. now rewrite walk_nil.
  - destruct toProcess as [|p toProcess]; [now rewrite walk_nil|].
    cbn [walkLoop Nat.add] in *.
    destruct (expand (p :: toProcess)) as [ids|e]; [auto | assumption].
Qed.

(** C4. On a finite import graph in which every import has module
    information, cyclic or not, the walk from [root] ends: with fuel beyond
    the number of modules it returns a set, without duplicates, that holds
    exactly the identities reachable from [root] through one or more
    static or dynamic imports. *)
Theorem C4_walker_terminates_with_reachable_set (nodes : list string) (root : string) :
  (forall x, getModuleInfo x <> None -> In x nodes) ->
  (forall a b, imports getModuleInfo a b -> getModuleInfo b <> None) ->
  getModuleInfo root <> None ->
  exists s,
    (forall fuel, length nodes < fuel ->
       getHoistedImportedIds getModuleInfo fuel root = Some (Ok s)) /\
    NoDup s /\
    (forall v, In v s <-> reachable getModuleInfo root v).
Proof.
  intros Hfin Hclosed Hroot.
  assert (Hinv : walkInvariant root [root] JsSet.empty).
  { split; [constructor | split; [intros h [] | split]].
    - intros p [<-|[]]. now left.
    - intros h [->|[]]. left. now left. }
  assert (Hrun : exists s, walk (S (length nodes)) [root] JsSet.empty = Some (Ok s)).
  { apply (walk_terminates nodes Hfin Hclosed).
    - intros p [<-|[]]. assumption.
    - intros h [].
    - constructor.
    - simpl. lia. }
  destruct Hrun as [s Hs]. exists s. split.
  - intros fuel Hfuel. unfold getHoistedImportedIds.
    replace fuel with (S (length nodes) + (fuel - S (length nodes))) by lia.
    now apply walk_more_fuel.
  - eapply walk_correct; eauto.
Qed.
End GraphWalker.

(** **** Module graphs given as tables *)

Lemma table_lookup (graph : list ModuleInfo) (x : string) (moduleInfo : ModuleInfo) :
  Host.getModuleInfo graph x = Some moduleInfo -> In moduleInfo graph /\ id moduleInfo = x.
Proof.
  unfold Host.getModuleInfo. intros H. apply find_some in H as [Hin He].
  apply String.eqb_eq in He. auto.
Qed.

Lemma table_finite (graph : list ModuleInfo) (x : string) :
  Host.getModuleInfo graph x <> None -> In x (map id graph).
Proof.
  destruct (Host.getModuleInfo graph x) as [moduleInfo|] eqn:E; [|congruence].
  intros _. apply table_lookup in E as [Hin <-]. now apply in_map.
Qed.

Lemma table_closed (graph : list ModuleInfo) :
  Host.closedGraph graph = true ->
  forall a b, imports (Host.getModuleInfo graph) a b -> Host.getModuleInfo graph b <> None.
Proof.
  unfold Host.closedGraph. rewrite forallb_forall. intros H a b [moduleInfo [Ha Hb]].
  apply table_lookup in Ha as [Hin _]. specialize (H _ Hin).
  rewrite forallb_forall in H. specialize (H _ Hb).
  apply existsb_exists in H as [m [Hm He]].
  unfold Host.getModuleInfo. intros Hnone.
  apply (find_none _ _ Hnone) in Hm. congruence.
Qed.

Lemma C4_witness :
  exists s,
    (forall fuel, 2 < fuel ->
       getHoistedImportedIds (Host.getModuleInfo Example.cycleGraph) fuel Example.ping
       = Some (Ok s)) /\
    NoDup s /\
    (forall v, In v s <-> reachable (Host.getModuleInfo Example.cycleGraph) Example.ping v).
Proof.
  apply (C4_walker_terminates_with_reachable_set (Host.getModuleInfo Example.cycleGraph)
           (map id Example.cycleGraph) Example.ping).
  - apply table_finite.
  - apply table_closed. vm_compute. reflexivity.
  - vm_compute. discriminate.
Defined.

(** *** Orders of insertion *)

Section InsertionOrder.
Variable cwd : string.
Variable fileURLToPath_URL : string -> option string.
Variable originalItems : JsMap.t ShadcnItem.
Variable configRootDir : string.

Local Abbreviation enqueue := (enqueueDependency originalItems).
Local Abbreviation add_file := (addFile cwd fileURLToPath_URL originalItems configRootDir).
Local Abbreviation entry_step := (processEntry cwd fileURLToPath_URL originalItems configRootDir).
Local Abbreviation round := (processItems cwd fileURLToPath_URL originalItems configRootDir).

Import JsMap JsMapFacts.

Lemma keys_set_add {V} (m : JsMap.t V) (k : string) (v : V) :
  keys (set m k v) = JsSet.add (keys m) k.
Proof. now rewrite keys_set. Qed.

Lemma enqueue_all_keys (mods : list string) :
  forall nextItems nextItems',
    foldM enqueue mods nextItems = Ok nextItems' ->
    keys nextItems' = fold_left JsSet.add mods (keys nextItems).
Proof.
  induction mods as [|d mods IH]; simpl; intros next next' H.
  - now inversion H.
  - apply bind_Ok in H as [next1 [H1 H2]]. unfold enqueueDependency in H1.
    destruct (get originalItems d); [|discriminate]. inversion H1; subst.
    rewrite (IH _ _ H2). now rewrite keys_set_add.
Qed.

Lemma add_file_keys (k : string) (acc acc' : ClosureAcc) :
  add_file k acc = Ok acc' ->
  acc_dependencies acc' = acc_dependencies acc /\
  acc_registryDependencies acc' = acc_registryDependencies acc /\
  keys (acc_files acc') =
    if includes k "?" then keys (acc_files acc) else JsSet.add (keys (acc_files acc)) k.
Proof.
  intros H. apply add_file_Ok in H as [Hd [Hr Hf]]. split; [assumption|]. split; [assumption|].
  unfold queryFree in Hf. destruct Hf as [[Hq ->]|[Hq [p [_ ->]]]]; rewrite Hq;
    [reflexivity | apply keys_set_add].
Qed.

Lemma frontierImports_cons (e : string * ShadcnItem) (items : list (string * ShadcnItem)) :
  frontierImports (e :: items) = frontierImports [e] ++ frontierImports items.
Proof. unfold frontierImports. simpl. now rewrite app_nil_r. Qed.

Lemma map_filter_cons {A B} (f : A -> B) (p : A -> bool) (x : A) (xs : list A) :
  map f (filter p (x :: xs)) = map f (filter p [x]) ++ map f (filter p xs).
Proof. simpl. now destruct (p x). Qed.

Lemma frontierFiles_cons (e : string * ShadcnItem) (items : list (string * ShadcnItem)) :
  frontierFiles (e :: items) = frontierFiles [e] ++ frontierFiles items.
Proof. apply map_filter_cons. Qed.

Lemma frontierDependencies_cons (e : string * ShadcnItem) (items : list (string * ShadcnItem)) :
  frontierDependencies (e :: items) = frontierDependencies [e] ++ frontierDependencies items.
Proof. apply map_filter_cons. Qed.

Lemma frontierCrossReferences_cons (e : string * ShadcnItem)
  (items : list (string * ShadcnItem)) :
  frontierCrossReferences (e :: items) =
    frontierCrossReferences [e] ++ frontierCrossReferences items.
Proof. apply map_filter_cons. Qed.

(** What one entry appends, and where. *)
Lemma entry_order (nextItems nextItems' : JsMap.t ShadcnItem) (acc acc' : ClosureAcc)
  (e : string * ShadcnItem) :
  entry_step (nextItems, acc) e = Ok (nextItems', acc') ->
  keys nextItems' = fold_left JsSet.add (frontierImports [e]) (keys nextItems) /\
  keys (acc_files acc') = fold_left JsSet.add (frontierFiles [e]) (keys (acc_files acc)) /\
  acc_dependencies acc' =
    fold_left JsSet.add (frontierDependencies [e]) (acc_dependencies acc) /\
  acc_registryDependencies acc' =
    fold_left JsSet.add (frontierCrossReferences [e]) (acc_registryDependencies acc).
Proof.
  destruct e as [k item]. unfold processEntry.
  unfold frontierImports, frontierFiles, frontierDependencies, frontierCrossReferences,
    walkedb. cbn [flat_map filter map fst snd].
  destruct (startsWith k NUL) eqn:Hnul; cbn [negb andb].
  { intros [= <- <-]. destruct (type (meta item)); simpl; auto. }
  destruct (type (meta item)) eqn:Hty; intros H;
    try (apply bind_Ok in H as [acc1 [H [= <- <-]]];
         apply add_file_keys in H as [-> [-> ->]];
         destruct (includes k "?"); simpl; auto).
  - inversion H; subst; simpl. auto.
  - apply bind_Ok in H as [next1 [H1 H2]].
    apply bind_Ok in H2 as [acc1 [H2 [= <- <-]]].
    apply enqueue_all_keys in H1. apply add_file_keys in H2 as [-> [-> ->]].
    rewrite H1, app_nil_r. destruct (includes k "?"); simpl; auto.
  - inversion H; subst; simpl. auto.
Qed.

(** What a round appends, and where. *)
Lemma entries_order (items : list (string * ShadcnItem)) :
  forall (nextItems nextItems' : JsMap.t ShadcnItem) (acc acc' : ClosureAcc),
    foldM entry_step items (nextItems, acc) = Ok (nextItems', acc') ->
    keys nextItems' = fold_left JsSet.add (frontierImports items) (keys nextItems) /\
    keys (acc_files acc') = fold_left JsSet.add (frontierFiles items) (keys (acc_files acc)) /\
    acc_dependencies acc' =
      fold_left JsSet.add (frontierDependencies items) (acc_dependencies acc) /\
    acc_registryDependencies acc' =
      fold_left JsSet.add (frontierCrossReferences items) (acc_registryDependencies acc).
Proof.
  induction items as [|e items IH]; intros next next' acc acc' H.
  - simpl in H. inversion H; subst. simpl. auto.
  - simpl in H. apply bind_Ok in H as [[next1 acc1] [H1 H2]].
    apply entry_order in H1 as [N1 [F1 [D1 R1]]].
    apply IH in H2 as [N2 [F2 [D2 R2]]].
    rewrite frontierImports_cons, frontierFiles_cons, frontierDependencies_cons,
      frontierCrossReferences_cons, !fold_left_app.
    rewrite N2, F2, D2, R2, N1, F1, D1, R1. auto.
Qed.

(** C9, as amended. The walker lists the static imports of a module before
    its dynamic ones and expands a frontier member by member; the record
    of a module lists the dynamic imports before the static ones; the seed
    frontier of the closure builder follows the order of the record map;
    a round goes through the frontier in its order, so the next frontier
    is made of the imports of its walked Internal entries in the order of
    the records, and the files, dependencies and cross-references grow in
    the order of the frontier, each key staying where it was first
    inserted. *)
Theorem C9_orders_of_insertion :
  (forall moduleInfo : ModuleInfo,
      walkerImportedIds moduleInfo =
        importedIds moduleInfo ++ dynamicallyImportedIds moduleInfo) /\
  (forall (getModuleInfo : string -> option ModuleInfo)
          (moduleIdsToProcess : list string) (infos : list ModuleInfo),
      mapM (moduleInfoOrThrow getModuleInfo) moduleIdsToProcess = Ok infos ->
      expandFrontier getModuleInfo moduleIdsToProcess =
        Ok (flat_map (fun moduleInfo =>
                        importedIds moduleInfo ++ dynamicallyImportedIds moduleInfo) infos)) /\
  (forall (shadcnItemMeta : ShadcnItemMeta) (moduleInfo : ModuleInfo),
      modules (shadcnItemOf shadcnItemMeta moduleInfo) =
        dynamicallyImportedIds moduleInfo ++ importedIds moduleInfo) /\
  (wf originalItems ->
   forall id : string,
     seedItems id originalItems =
       filter (fun e => array_includes
                          (id :: match get originalItems id with
                                 | Some item => modules item
                                 | None => []
                                 end) (fst e))
         (entries originalItems)) /\
  (forall (items nextItems : JsMap.t ShadcnItem) (acc acc' : ClosureAcc),
      round items acc = Ok (nextItems, acc') ->
      keys nextItems = fold_left JsSet.add (frontierImports items) [] /\
      keys (acc_files acc') =
        fold_left JsSet.add (frontierFiles items) (keys (acc_files acc)) /\
      acc_dependencies acc' =
        fold_left JsSet.add (frontierDependencies items) (acc_dependencies acc) /\
      acc_registryDependencies acc' =
        fold_left JsSet.add (frontierCrossReferences items) (acc_registryDependencies acc)).
Proof.
  split; [reflexivity|]. split; [|split; [reflexivity|split]].
  - intros getModuleInfo xs infos H. unfold expandFrontier. now rewrite H.
  - intros Hwf id. now apply seedItems_wf.
  - intros items next acc acc' H. now apply entries_order in H.
Qed.
End InsertionOrder.

(** C9 as stated fails: the record of a module lists its dynamic import in
    front of its static one, and the files of the closure follow that
    order. *)
Lemma C9_counterexample :
  ~ (forall (shadcnItemMeta : ShadcnItemMeta) (moduleInfo : ModuleInfo),
        modules (shadcnItemOf shadcnItemMeta moduleInfo) =
          importedIds moduleInfo ++ dynamicallyImportedIds moduleInfo) /\
  importedIds Example.formatInfo = [Example.static] /\
  dynamicallyImportedIds Example.formatInfo = [Example.lazy] /\
  Example.filePaths (Host.build 5 Example.root [] Example.lazyGraph) "card" =
    Some ["src/components/card/index.ts"; "src/components/card/format.ts";
          "src/components/card/lazy.ts"; "src/components/card/static.ts"].
Proof.
  split; [|split; [reflexivity | split; [reflexivity | vm_compute; reflexivity]]].
  intros H.
  specialize (H {| name := Example.format; type := registry_internal |} Example.formatInfo).
  vm_compute in H. discriminate.
Qed.

Lemma C9_witness :
  exists nextItems acc',
    processItems Example.root Host.fileURLToPath_URL Example.originalItems Example.root
      (seedItems Example.card Example.originalItems) emptyAcc = Ok (nextItems, acc') /\
    JsMap.keys nextItems = [Example.useDate] /\
    JsMap.keys (acc_files acc') = [Example.card; Example.format] /\
    acc_dependencies acc' = [Example.clsx] /\
    acc_registryDependencies acc' = ["button"].
Proof.
  destruct (processItems Example.root Host.fileURLToPath_URL Example.originalItems
              Example.root (seedItems Example.card Example.originalItems) emptyAcc)
    as [[nextItems acc']|e] eqn:H; [|vm_compute in H; discriminate].
  exists nextItems, acc'. split; [reflexivity|].
  destruct (proj2 (proj2 (proj2 (proj2 (C9_orders_of_insertion Example.root
                                          Host.fileURLToPath_URL Example.originalItems
                                          Example.root)))) _ _ _ _ H)
    as [H1 [H2 [H3 H4]]].
  rewrite H1, H2, H3, H4. vm_compute. auto.
Defined.

(** *** Paths *)

Module PathFacts.
Import Path.

Lemma append_nil_r (a : string) : (a ++ "")%string = a.
Proof. induction a as [|x a IH]; simpl; [reflexivity | now rewrite IH]. Qed.

Lemma length_append (a b : string) :
  String.length (a ++ b)%string = String.length a + String.length b.
Proof. induction a as [|x a IH]; simpl; [reflexivity | now rewrite IH]. Qed.

Lemma split_slash_nonempty (s : string) : split_slash s <> [].
Proof.
  induction s as [|c s IH]; simpl; [discriminate|].
  destruct (Ascii.eqb c slash); [discriminate|].
  destruct (split_slash s); [contradiction | discriminate].
Qed.

(** [(a + "/" + b).split("/")] is [a.split("/")] followed by [b.split("/")]. *)
Lemma split_slash_app (a b : string) :
  split_slash (a ++ String slash b)%string = split_slash a ++ split_slash b.
Proof.
  induction a as [|c a IH]; simpl.
  - reflexivity.
  - rewrite IH. destruct (Ascii.eqb c slash); [reflexivity|].
    pose proof (split_slash_nonempty a) as Hne.
    destruct (split_slash a); [contradiction | reflexivity].
Qed.

Lemma split_slashFree (s : string) : slashFree s = true -> split_slash s = [s].
Proof.
  induction s as [|c s IH]; simpl; [reflexivity|].
  intros H. apply andb_true_iff in H as [Hc Hs].
  apply negb_true_iff in Hc. rewrite Hc, (IH Hs). reflexivity.
Qed.

Lemma isSegment_inv (s : string) :
  isSegment s = true -> s <> "" /\ s <> "." /\ s <> ".." /\ slashFree s = true.
Proof.
  unfold isSegment. rewrite !andb_true_iff, !negb_true_iff, !String.eqb_neq. tauto.
Qed.

Lemma split_join (segs : list string) :
  segs <> [] -> Forall (fun s => isSegment s = true) segs ->
  split_slash (join_slash segs) = segs.
Proof.
  induction segs as [|x segs IH]; [congruence|]. intros _ Hall.
  inversion Hall as [|? ? Hx Hsegs]; subst.
  apply isSegment_inv in Hx as [_ [_ [_ Hx]]].
  destruct segs as [|y segs].
  - simpl. now apply split_slashFree.
  - change (join_slash (x :: y :: segs)) with (x ++ String slash (join_slash (y :: segs)))%string.
    rewrite split_slash_app, split_slashFree by assumption.
    rewrite IH by (assumption || discriminate). reflexivity.
Qed.

(** Segments are kept as they are by [normalizeString]. *)
Lemma normalizeSegs_segments (allowAboveRoot : bool) (segs : list string) :
  Forall (fun s => isSegment s = true) segs ->
  forall stack, normalizeSegs allowAboveRoot stack segs = rev stack ++ segs.
Proof.
  induction segs as [|x segs IH]; intros Hall stack; simpl.
  - now rewrite app_nil_r.
  - inversion Hall as [|? ? Hx Hsegs]; subst.
    apply isSegment_inv in Hx as [H1 [H2 [H3 _]]].
    apply String.eqb_neq in H1, H2, H3. rewrite H1, H2, H3. simpl.
    rewrite (IH Hsegs). simpl. now rewrite <- app_assoc.
Qed.

Lemma split_absolutePath (segs : list string) :
  Forall (fun s => isSegment s = true) segs ->
  normalizeSegs false [] (split_slash (absolutePath segs)) = segs.
Proof.
  intros Hall. unfold absolutePath.
  change ("/" ++ join_slash segs)%string with (("" ++ String slash (join_slash segs))%string).
  rewrite split_slash_app. simpl.
  destruct segs as [|x segs]; [reflexivity|].
  rewrite split_join by (assumption || discriminate).
  now rewrite normalizeSegs_segments.
Qed.

Lemma isAbsolute_absolutePath (segs : list string) : isAbsolute (absolutePath segs) = true.
Proof. unfold absolutePath. now destruct (join_slash segs). Qed.

Lemma resolve_absolutePath (cwd : string) (segs : list string) :
  Forall (fun s => isSegment s = true) segs ->
  resolve cwd (absolutePath segs) = segs.
Proof.
  intros Hall. unfold resolve. rewrite isAbsolute_absolutePath.
  now apply split_absolutePath.
Qed.

Lemma strip_common_prefix (p t : list string) : strip_common p (p ++ t) = ([], t).
Proof.
  induction p as [|x p IH]; simpl; [now destruct t|]. now rewrite String.eqb_refl.
Qed.

(** [relative(root, below)] is the path from [root] down to [below]. *)
Lemma relative_below (cwd : string) (segs below : list string) :
  Forall (fun s => isSegment s = true) segs ->
  Forall (fun s => isSegment s = true) below ->
  relative cwd (absolutePath segs) (absolutePath (segs ++ below)) = join_slash below.
Proof.
  intros Hs Hb. unfold relative.
  rewrite !resolve_absolutePath by (try apply Forall_app; auto).
  now rewrite strip_common_prefix.
Qed.

Lemma endsWithSlash_app (a b : string) :
  b <> "" -> endsWithSlash (a ++ b)%string = endsWithSlash b.
Proof.
  intros Hb. induction a as [|c a IH]; simpl; [reflexivity|].
  rewrite IH. destruct (a ++ b)%string eqn:E; [|reflexivity].
  destruct a; simpl in E; [contradiction | discriminate].
Qed.

Lemma join_slash_nonempty (segs : list string) :
  segs <> [] -> Forall (fun s => isSegment s = true) segs -> join_slash segs <> "".
Proof.
  destruct segs as [|x segs]; [congruence|]. intros _ Hall.
  inversion Hall as [|? ? Hx _]; subst. apply isSegment_inv in Hx as [Hx _].
  destruct x; [contradiction|]. destruct segs; simpl; discriminate.
Qed.

(** [join(root, below)] for a normalized absolute [root] and a relative
    path [below] made of segments. *)
Lemma join_absolutePath (segs below : list string) (b : string) :
  Forall (fun s => isSegment s = true) segs ->
  Forall (fun s => isSegment s = true) below ->
  below <> [] -> split_slash b = below -> endsWithSlash b = false ->
  join (absolutePath segs) b = absolutePath (segs ++ below).
Proof.
  intros Hs Hb Hne Hsplit Hend.
  assert (Hb0 : b <> "") by (intros ->; simpl in Hsplit; subst; inversion Hb; discriminate).
  unfold join. apply String.eqb_neq in Hb0 as Hb1. rewrite Hb1.
  replace (absolutePath segs =? "") with false by now unfold absolutePath.
  set (p := (absolutePath segs ++ "/" ++ b)%string).
  assert (Hp0 : (p =? "") = false) by now unfold p, absolutePath.
  assert (Habs : isAbsolute p = true).
  { unfold p, absolutePath. simpl. now destruct (join_slash segs ++ _)%string. }
  assert (Hend' : endsWithSlash p = false).
  { unfold p. rewrite endsWithSlash_app by discriminate.
    change ("/" ++ b)%string with ("/" ++ b)%string.
    rewrite (endsWithSlash_app "/" b Hb0). exact Hend. }
  assert (Hnorm : normalizeSegs false [] (split_slash p) = segs ++ below).
  { unfold p. change ("/" ++ b)%string with (String slash b).
    rewrite split_slash_app, Hsplit. unfold absolutePath.
    change ("/" ++ join_slash segs)%string with ("" ++ String slash (join_slash segs))%string.
    rewrite split_slash_app. simpl.
    destruct segs as [|x segs].
    - simpl. now rewrite normalizeSegs_segments.
    - rewrite split_join by (assumption || discriminate).
      rewrite normalizeSegs_segments by (apply Forall_app; auto). reflexivity. }
  assert (Hbody : join_slash (segs ++ below) <> "").
  { apply join_slash_nonempty; [|apply Forall_app; auto].
    destruct segs; simpl; [assumption | discriminate]. }
  apply String.eqb_neq in Hbody.
  unfold normalize. rewrite Hp0, Habs, Hend'. simpl negb. rewrite Hnorm, Hbody.
  unfold absolutePath. now rewrite append_nil_r.
Qed.

Lemma isAbsolute_segment (f : string) : isSegment f = true -> isAbsolute f = false.
Proof.
  intros H. apply isSegment_inv in H as [H0 [_ [_ Hf]]].
  destruct f as [|c f]; [contradiction|]. simpl in Hf.
  apply andb_true_iff in Hf as [Hc _]. apply negb_true_iff in Hc.
  unfold isAbsolute, startsWith.
  change (prefix "/" (String c f)) with (if ascii_dec "/" c then prefix "" f else false).
  destruct (ascii_dec "/" c) as [<-|_]; [|reflexivity].
  unfold slash in Hc. now rewrite Ascii.eqb_refl in Hc.
Qed.

Lemma remove_first_slash_slashFree (s : string) :
  slashFree s = true -> remove_first_slash s = s.
Proof.
  induction s as [|c s IH]; simpl; [reflexivity|].
  intros H. apply andb_true_iff in H as [Hc Hs]. apply negb_true_iff in Hc.
  now rewrite Hc, IH.
Qed.

(** [parse] of a single segment: no directory. *)
Lemma parse_segment (f : string) :
  isSegment f = true ->
  parse f = {| dir := ""; base := f; ext := snd (split_ext f); name := fst (split_ext f) |}.
Proof.
  intros H. unfold parse. rewrite (isAbsolute_segment f H).
  apply isSegment_inv in H as [H0 [_ [_ Hf]]].
  rewrite split_slashFree by assumption. simpl.
  apply String.eqb_neq in H0. now rewrite H0.
Qed.

(** [parse] of a segment below one directory. *)
Lemma parse_dir_segment (d f : string) :
  isSegment d = true -> isSegment f = true ->
  parse (d ++ String slash f)%string =
    {| dir := d; base := f; ext := snd (split_ext f); name := fst (split_ext f) |}.
Proof.
  intros Hd Hf. unfold parse.
  apply isSegment_inv in Hd as [Hd0 [_ [_ Hd]]].
  apply isSegment_inv in Hf as [Hf0 [_ [_ Hf]]].
  rewrite split_slash_app, !split_slashFree by assumption. simpl.
  apply String.eqb_neq in Hf0, Hd0. rewrite Hf0.
  change (join_slash (rev [d])) with d. now rewrite Hd0, andb_false_r.
Qed.



End PathFacts.

(** *** Classifier *)

Section Classifier.
Variable cwd : string.
Variable kebabCase : string -> string.
Variable fileURLToPath_URL : string -> option string.
Variables isShadcnComponent isComponent isComposable isUtil : string -> bool.

Local Abbreviation itemName := (getRegistryItemName cwd kebabCase fileURLToPath_URL).
Local Abbreviation classify :=
  (getShadcnItemMeta cwd kebabCase fileURLToPath_URL
     isShadcnComponent isComponent isComposable isUtil).

Import PathFacts.

(** The name of a module [file] right below the directory [below] of the
    root: the path relative to the root joined with [registryItemType]. *)
Lemma itemName_relative (segs below rest : list string) (registryItemType id : string) :
  Forall (fun s => isSegment s = true) segs ->
  Forall (fun s => isSegment s = true) below ->
  Forall (fun s => isSegment s = true) rest ->
  below <> [] -> Path.split_slash registryItemType = below ->
  Path.endsWithSlash registryItemType = false ->
  id = absolutePath ((segs ++ below) ++ rest) ->
  fileURLToPath_URL id = Some id ->
  itemName id (absolutePath segs) registryItemType =
    let parsed := Path.parse (Path.join_slash rest) in
    let dir := remove_first_slash (Path.dir parsed) in
    Ok (kebabCase (if dir =? "" then Path.name parsed else dir)).
Proof.
  intros Hs Hb Hr Hne Hsplit Hend -> Hurl.
  unfold getRegistryItemName, getRegistryItemPath. rewrite Hurl. simpl bind.
  rewrite (join_absolutePath segs below) by assumption.
  rewrite relative_below by (try apply Forall_app; auto). reflexivity.
Qed.



(** The name of every module right below [src/utils]: the path is taken
    relative to [src], so the directory [utils] gives the name. *)
Lemma lib_name_is_utils (segs : list string) (file : string) :
  Forall (fun s => isSegment s = true) segs ->
  isSegment file = true ->
  let id := absolutePath (segs ++ ["src"; "utils"; file]) in
  fileURLToPath_URL id = Some id ->
  itemName id (absolutePath segs) srcDir = Ok (kebabCase "utils").
Proof.
  intros Hs Hf id Hu. unfold id.
  rewrite (itemName_relative segs ["src"] ["utils"; file]);
    try reflexivity; try assumption; try discriminate.
  - change (Path.join_slash ["utils"; file]) with ("utils" ++ String Path.slash file)%string.
    rewrite parse_dir_segment by (assumption || reflexivity). reflexivity.
  - repeat constructor.
  - repeat constructor; assumption.
  - now rewrite <- app_assoc.
Qed.
End Classifier.

(** The classifier on a module right below [src/utils]: category Lib, and
    the name of the directory, whatever the file. *)
Lemma lib_meta_is_utils (cwd : string) (kebabCase : string -> string)
  (fileURLToPath_URL : string -> option string)
  (isShadcnComponent isComponent isComposable isUtil : string -> bool)
  (segs : list string) (file : string) (flag : ExternalFlag) :
  Forall (fun s => isSegment s = true) segs ->
  isSegment file = true ->
  let id := absolutePath (segs ++ ["src"; "utils"; file]) in
  fileURLToPath_URL id = Some id ->
  isShadcnComponent id = false -> isComponent id = false ->
  isComposable id = false -> isUtil id = true ->
  getShadcnItemMeta cwd kebabCase fileURLToPath_URL
    isShadcnComponent isComponent isComposable isUtil (absolutePath segs)
    {| resolved_id := id; resolved_external := flag |}
  = Ok {| name := kebabCase "utils"; type := registry_lib |}.
Proof.
  intros Hs Hf id Hu H1 H2 H3 H4. unfold getShadcnItemMeta. simpl resolved_id.
  rewrite H1, H2, H3, H4. unfold id in *.
  now rewrite (lib_name_is_utils cwd kebabCase fileURLToPath_URL segs file Hs Hf Hu).
Qed.

(** The classifier itself takes a single file below [src/components] for a
    component only with the extensions [vue], [jsx] and [tsx]; with [ts]
    the module is Internal and named by its identity. *)
Remark single_file_components :
  Host.classify Example.root (Example.resolved "/proj/src/components/foo-bar/index.ts")
    = Ok {| name := "foo-bar"; type := registry_component |} /\
  Host.classify Example.root (Example.resolved "/proj/src/components/foo-bar.vue")
    = Ok {| name := "foo-bar"; type := registry_component |} /\
  Host.classify Example.root (Example.resolved "/proj/src/components/foo-bar.ts")
    = Ok {| name := "/proj/src/components/foo-bar.ts"; type := registry_internal |}.
Proof. repeat split; vm_compute; reflexivity. Qed.



(** C6 fails on the code: a module right below [src/utils] is classified
    Lib, but its name is taken relative to [src], not to [src/utils]:
    [format-date.ts] and [cn.ts] are both named [utils], where their base
    names give [format-date] and [cn], and the registry built from the
    two keeps a single item, the one added last. *)
Theorem C6_lib_modules_are_all_named_utils :
  Host.classify Example.root (Example.resolved Example.formatDate)
    = Ok {| name := "utils"; type := registry_lib |} /\
  Host.classify Example.root (Example.resolved Example.cn)
    = Ok {| name := "utils"; type := registry_lib |} /\
  Host.kebabCase (Path.name (Path.parse "format-date.ts")) = "format-date" /\
  Host.kebabCase (Path.name (Path.parse "cn.ts")) = "cn" /\
  getRegistryItemName Example.root Host.kebabCase Host.fileURLToPath_URL
    Example.formatDate Example.root (Path.join srcDir "utils") = Ok "format-date" /\
  Example.itemNames (Host.build 5 Example.root [] Example.utilsGraph) = Some ["utils"] /\
  Example.filePaths (Host.build 5 Example.root [] Example.utilsGraph) "utils"
    = Some ["src/utils/cn.ts"].
Proof. repeat split; vm_compute; reflexivity. Qed.

(** **** The whole pass on the example component

    [buildEnd] on the graph of [card]: one item, with the package as
    dependency, the primitive as cross-reference, and the component and its
    internal helper as files. *)
Remark card_registry :
  Host.build 5 Example.root [Example.clsx] Example.cardGraph =
    Some (Ok {| registry_name := "some name";
                registry_homepage := "some homepage";
                itemsMap :=
                  [("card",
                    {| item_name := "card";
                       item_type := registry_component;
                       item_files :=
                         [{| file_type := "registry:file";
                             path := "src/components/card/index.ts";
                             target := "src/components/card/index.ts";
                             content := Some Example.card |};
                          {| file_type := "registry:file";
                             path := "src/components/card/format.ts";
                             target := "src/components/card/format.ts";
                             content := Some Example.format |}];
                       item_dependencies := ["clsx"];
                       item_registryDependencies := ["button"] |})] |}).
Proof. vm_compute. reflexivity. Qed.

(** **** Helpers that import each other

    The loop of the closure builder keeps no record of the modules it has
    walked: when two internal helpers import each other it has no end. *)

Lemma cyclic_round (acc : ClosureAcc) :
  (exists acc',
     processItems Example.root Host.fileURLToPath_URL Example.cyclicItems Example.root
       [(Example.format, Example.item Example.format registry_internal [Example.gone] "format")]
       acc
     = Ok ([(Example.gone,
             Example.item Example.gone registry_internal [Example.format] "gone")], acc')) /\
  (exists acc',
     processItems Example.root Host.fileURLToPath_URL Example.cyclicItems Example.root
       [(Example.gone, Example.item Example.gone registry_internal [Example.format] "gone")]
       acc
     = Ok ([(Example.format,
             Example.item Example.format registry_internal [Example.gone] "format")], acc')).
Proof. split; eexists; lazy; reflexivity. Qed.

Lemma cyclic_loop (fuel : nat) :
  forall acc : ClosureAcc,
    closureLoop Example.root Host.fileURLToPath_URL fuel Example.cyclicItems Example.root
      [(Example.format, Example.item Example.format registry_internal [Example.gone] "format")]
      acc = None /\
    closureLoop Example.root Host.fileURLToPath_URL fuel Example.cyclicItems Example.root
      [(Example.gone, Example.item Example.gone registry_internal [Example.format] "gone")]
      acc = None.
Proof.
  induction fuel as [|fuel IH]; intros acc; [split; reflexivity|].
  destruct (cyclic_round acc) as [[acc1 H1] [acc2 H2]].
  rewrite !loop_step by discriminate. rewrite H1, H2.
  split; apply IH.
Qed.

Remark closure_has_no_end_on_internal_cycle (fuel : nat) :
  Host.closure fuel Example.root Example.card Example.cyclicItems = None.
Proof.
  destruct fuel as [|fuel]; [reflexivity|].
  unfold Host.closure, createShadcnItemDependencies, closureAcc.
  rewrite loop_step by (vm_compute; discriminate).
  replace (processItems Example.root Host.fileURLToPath_URL Example.cyclicItems
             Example.root (seedItems Example.card Example.cyclicItems) emptyAcc)
    with (Ok ([(Example.gone,
                Example.item Example.gone registry_internal [Example.format] "gone")],
              {| acc_dependencies := [];
                 acc_registryDependencies := [];
                 acc_files :=
                   [(Example.card,
                     fileEntry Example.cyclicItems Example.card "src/components/card/index.ts");
                    (Example.format,
                     fileEntry Example.cyclicItems Example.format
                       "src/components/card/format.ts")] |}))
    by (vm_compute; reflexivity).
  now rewrite (proj2 (cyclic_loop fuel _)).
Qed.

(* ================================================================= *)
(** ** Part III. Further properties of the code *)
(* ================================================================= *)

(** *** What a closure holds *)

Section ClosureContents.
Variable cwd : string.
Variable fileURLToPath_URL : string -> option string.
Variable originalItems : JsMap.t ShadcnItem.
Variable configRootDir : string.

Local Abbreviation localPath := (fun id => getLocalFilePath cwd fileURLToPath_URL id configRootDir).
Local Abbreviation round := (processItems cwd fileURLToPath_URL originalItems configRootDir).
Local Abbreviation loop := (fun fuel => closureLoop cwd fileURLToPath_URL fuel originalItems configRootDir).
Local Abbreviation create :=
  (fun fuel id => createShadcnItemDependencies cwd fileURLToPath_URL fuel id
                    originalItems configRootDir).
Local Abbreviation canonical := (canonical cwd fileURLToPath_URL originalItems configRootDir).
Local Abbreviation frontierOf := (frontierOf originalItems).
Local Abbreviation provenance := (provenance cwd fileURLToPath_URL originalItems configRootDir).
Local Abbreviation feeds := (feeds originalItems).
Local Abbreviation reachedFrom := (reachedFrom originalItems).
Local Abbreviation inClosure := (inClosure originalItems).

Import JsMap JsMapFacts.

Hypothesis originalItems_wf : wf originalItems.

(** In a frontier, an entry is its key with the record of the map. *)
Lemma frontier_entry (items : JsMap.t ShadcnItem) (k : string) (item : ShadcnItem) :
  frontierOf items ->
  (In (k, item) items <-> In k (keys items) /\ get originalItems k = Some item).
Proof.
  intros Hfr. split.
  - intros Hin. split; [apply in_map_iff; now exists (k, item)|].
    apply In_get; [assumption | now apply Hfr].
  - intros [Hk Hget]. apply in_map_iff in Hk as [[k' item'] [Hfst Hin]].
    simpl in Hfst. subst k'.
    assert (get originalItems k = Some item') by (apply In_get; [assumption | now apply Hfr]).
    congruence.
Qed.

(** What a frontier leads to is the frontier and what the next one leads to. *)
Lemma reachedFrom_round (items nextItems : JsMap.t ShadcnItem) (acc acc' : ClosureAcc) :
  frontierOf items -> round items acc = Ok (nextItems, acc') ->
  forall k, reachedFrom (keys items) k <->
            In k (keys items) \/ reachedFrom (keys nextItems) k.
Proof.
  intros Hfr Hr k.
  apply entries_effects in Hr as [_ [_ [_ [N _]]]].
  split.
  - intros [s [Hs Hrt]]. apply clos_rt_rt1n in Hrt.
    destruct Hrt as [|y z [sit [Hget [Hw [Hty Hy]]]] Hrt]; [now left|].
    right. exists y. split; [|now apply clos_rt1n_rt].
    apply N. right. exists s, sit. split; [|auto].
    apply frontier_entry; auto.
  - intros [Hk|[s [Hs Hrt]]].
    + exists k. split; [assumption | apply rt_refl].
    + apply N in Hs as [[]|[p [pit [Hin [Hw [Hty Hd]]]]]].
      apply frontier_entry in Hin as [Hp Hget]; [|assumption].
      exists p. split; [assumption|].
      eapply rt_trans; [apply rt_step; exists pit; eauto | exact Hrt].
Qed.

(** The collections when the loop ends: what they held, and what the
    entries the frontier leads to have added. *)
Lemma loop_contents (fuel : nat) :
  forall (items : JsMap.t ShadcnItem) (acc accF : ClosureAcc),
    frontierOf items -> loop fuel items acc = Some (Ok accF) ->
    (forall k, In k (keys (acc_files accF)) <->
       In k (keys (acc_files acc)) \/
       exists item, reachedFrom (keys items) k /\ get originalItems k = Some item /\
                    walked k /\ producesFile (type (meta item)) /\ queryFree k) /\
    (forall x, In x (acc_dependencies accF) <->
       In x (acc_dependencies acc) \/
       exists item, reachedFrom (keys items) x /\ get originalItems x = Some item /\
                    walked x /\ type (meta item) = external) /\
    (forall n, In n (acc_registryDependencies accF) <->
       In n (acc_registryDependencies acc) \/
       exists k item, reachedFrom (keys items) k /\ get originalItems k = Some item /\
                      walked k /\ type (meta item) = registry_shadcn /\
                      n = name (meta item)).
Proof.
  assert (Hnil : forall acc accF, Some (Ok acc) = Some (Ok accF) ->
            (forall k, In k (keys (acc_files accF)) <->
               In k (keys (acc_files acc)) \/
               exists item, reachedFrom (@nil string) k /\ get originalItems k = Some item /\
                            walked k /\ producesFile (type (meta item)) /\ queryFree k) /\
            (forall x, In x (acc_dependencies accF) <->
               In x (acc_dependencies acc) \/
               exists item, reachedFrom (@nil string) x /\ get originalItems x = Some item /\
                            walked x /\ type (meta item) = external) /\
            (forall n, In n (acc_registryDependencies accF) <->
               In n (acc_registryDependencies acc) \/
               exists k item, reachedFrom (@nil string) k /\ get originalItems k = Some item /\
                              walked k /\ type (meta item) = registry_shadcn /\
                              n = name (meta item))).
  { intros acc accF H. inversion H; subst.
    split; [|split]; intros x; (split; [auto|]); (intros [?|H0]; [assumption|]).
    - destruct H0 as [? [[s [[] _]] _]].
    - destruct H0 as [? [[s [[] _]] _]].
    - destruct H0 as [? [? [[s [[] _]] _]]]. }
  induction fuel as [|fuel IH]; intros items acc accF Hfr H.
  - destruct items; simpl in H; [|discriminate]. now apply Hnil.
  - destruct items as [|e0 items]; [now apply Hnil|].
    apply loop_unroll in H as [f [Hf [[e [_ He]]|[next [acc1 [Hr Hl]]]]]];
      [discriminate | | discriminate].
    injection Hf as <-.
    pose proof (frontierOf_round _ _ _ _ _ _ _ _ Hr) as Hfr'.
    pose proof (reachedFrom_round _ _ _ _ Hfr Hr) as Hreach.
    destruct (IH _ _ _ Hfr' Hl) as [F2 [D2 R2]].
    apply entries_effects in Hr as [F1 [D1 [R1 _]]].
    split; [|split].
    + intros k. rewrite F2, F1. split.
      * intros [[Hk|[item [Hin Hc]]]|[item [Hre Hc]]]; [auto| |].
        -- right. exists item. apply frontier_entry in Hin as [Hk Hget]; [|assumption].
           split; [apply Hreach; auto | tauto].
        -- right. exists item. split; [apply Hreach; auto | tauto].
      * intros [Hk|[item [Hre [Hget Hc]]]]; [auto|].
        apply Hreach in Hre as [Hk|Hre].
        -- left. right. exists item. split; [apply frontier_entry; auto | exact Hc].
        -- right. exists item. auto.
    + intros x. rewrite D2, D1. split.
      * intros [[Hk|[item [Hin Hc]]]|[item [Hre Hc]]]; [auto| |].
        -- right. exists item. apply frontier_entry in Hin as [Hk Hget]; [|assumption].
           split; [apply Hreach; auto | tauto].
        -- right. exists item. split; [apply Hreach; auto | tauto].
      * intros [Hk|[item [Hre [Hget Hc]]]]; [auto|].
        apply Hreach in Hre as [Hk|Hre].
        -- left. right. exists item. split; [apply frontier_entry; auto | exact Hc].
        -- right. exists item. auto.
    + intros n. rewrite R2, R1. split.
      * intros [[Hk|[k [item [Hin Hc]]]]|[k [item [Hre Hc]]]]; [auto| |].
        -- right. exists k, item. apply frontier_entry in Hin as [Hk Hget]; [|assumption].
           split; [apply Hreach; auto | tauto].
        -- right. exists k, item. split; [apply Hreach; auto | tauto].
      * intros [Hk|[k [item [Hre [Hget Hc]]]]]; [auto|].
        apply Hreach in Hre as [Hk|Hre].
        -- left. right. exists k, item. split; [apply frontier_entry; auto | exact Hc].
        -- right. exists k, item. auto.
Qed.

(** The collections never hold an entry twice. *)
Lemma distinct_entry (nextItems nextItems' : JsMap.t ShadcnItem) (acc acc' : ClosureAcc)
  (k : string) (item : ShadcnItem) :
  processEntry cwd fileURLToPath_URL originalItems configRootDir (nextItems, acc) (k, item)
    = Ok (nextItems', acc') ->
  distinctAcc acc -> distinctAcc acc'.
Proof.
  intros H [Hd [Hr Hf]]. unfold distinctAcc.
  assert (Hfile : forall a a',
            addFile cwd fileURLToPath_URL originalItems configRootDir k a = Ok a' ->
            distinctAcc a -> distinctAcc a').
  { intros a a' Ha [Hd' [Hr' Hf']]. unfold distinctAcc.
    apply add_file_Ok in Ha as [E1 [E2 [[_ E3]|[_ [p [_ E3]]]]]];
      rewrite E1, E2, E3; auto using wf_set. }
  apply entry_step_Ok in H
    as [[_ [_ ->]]|[_ [[_ [_ [E1 [E2 E3]]]]|[[_ [_ [E1 [E2 E3]]]]|[[_ [_ Ha]]|[_ [_ [_ Ha]]]]]]]];
    try (rewrite E1, E2, E3); auto using JsSetFacts.NoDup_add.
  - now apply (Hfile acc acc').
  - now apply (Hfile acc acc').
Qed.

Lemma distinct_round (items nextItems : JsMap.t ShadcnItem) (acc acc' : ClosureAcc) :
  round items acc = Ok (nextItems, acc') -> distinctAcc acc -> distinctAcc acc'.
Proof.
  intros H Hd. unfold processItems in H.
  apply (foldM_invariant _ (fun s => distinctAcc (snd s)) _) in H; [exact H | | exact Hd].
  intros [n a] [k item] [n' a'] _ Ha Hs. simpl in *. eapply distinct_entry; eauto.
Qed.

Lemma distinct_loop (fuel : nat) :
  forall (items : JsMap.t ShadcnItem) (acc accF : ClosureAcc),
    loop fuel items acc = Some (Ok accF) -> distinctAcc acc -> distinctAcc accF.
Proof.
  induction fuel as [|fuel IH]; intros items acc accF H Hd.
  - destruct items; simpl in H; [|discriminate]. now inversion H; subst.
  - destruct items as [|e0 items]; [simpl in H; now inversion H; subst|].
    apply loop_unroll in H as [f [Hf [[e [_ He]]|[next [acc1 [Hr Hl]]]]]];
      [discriminate | | discriminate].
    injection Hf as <-. eapply IH; [exact Hl|]. eapply distinct_round; eauto.
Qed.

Lemma distinct_empty : distinctAcc emptyAcc.
Proof. repeat split; constructor. Qed.

(** The keys of the seed are the target and its direct imports that have a
    record. *)
Lemma seedItems_keys (id s : string) :
  In s (keys (seedItems id originalItems)) <->
  In s (seedKeys originalItems id) /\ In s (keys originalItems).
Proof.
  rewrite seedItems_wf by assumption. unfold keys. rewrite !in_map_iff. split.
  - intros [[s' item] [Hs Hin]]. simpl in Hs. subst s'.
    apply filter_In in Hin as [Hin Hinc]. apply array_includes_In in Hinc.
    split; [exact Hinc | now exists (s, item)].
  - intros [Hseed [[s' item] [Hs Hin]]]. simpl in Hs. subst s'.
    exists (s, item). split; [reflexivity|]. apply filter_In. split; [assumption|].
    now apply array_includes_In.
Qed.

(** What the seed leads to, among the identities that have a record, is
    the closure. *)
Lemma seed_reached (id k : string) (item : ShadcnItem) :
  get originalItems k = Some item ->
  (reachedFrom (keys (seedItems id originalItems)) k <-> inClosure id k).
Proof.
  intros Hget. split; intros [s [Hs Hrt]]; exists s; (split; [|assumption]).
  - now apply seedItems_keys in Hs.
  - apply seedItems_keys. split; [assumption|].
    apply clos_rt_rt1n in Hrt. destruct Hrt as [|y z [sit [Hsit _]] _].
    + apply In_keys_get. eauto.
    + apply In_keys_get. eauto.
Qed.

(** The values of a map stand to its keys as its entries do. *)
Lemma values_of_keys {V} (R : string -> V -> Prop) (m : JsMap.t V) :
  (forall k v, In (k, v) m -> R k v) -> Forall2 R (keys m) (values m).
Proof.
  induction m as [|[k v] m IH]; intros H; simpl; constructor.
  - apply H. now left.
  - apply IH. intros k' v' Hin. apply H. now right.
Qed.

(** X1.  When the closure of [id] is produced, its files are, one for one,
    the file entries of distinct identities: exactly the records the
    closure goes through (the target, its direct imports, and the imports
    of walked Internal records reached so far) that are not marked, are
    neither External nor ShadcnPrimitive, and have no query delimiter. *)
Theorem closure_files_exact (fuel : nat) (id : string) (r : ShadcnItemDependencies) :
  create fuel id = Some (Ok r) ->
  exists ks,
    NoDup ks /\
    (forall k, In k ks <->
       exists item, inClosure id k /\ get originalItems k = Some item /\
                    walked k /\ producesFile (type (meta item)) /\ queryFree k) /\
    Forall2 (fun k f => exists p, localPath k = Ok p /\ f = fileEntry originalItems k p)
            ks (files r).
Proof.
  intros H. apply create_Ok in H as [acc [Hacc ->]].
  pose proof (final_acc_provenance _ _ _ _ _ _ _ Hacc) as [Hcan _].
  pose proof (distinct_loop _ _ _ _ Hacc distinct_empty) as [_ [_ Hwf]].
  pose proof (loop_contents _ _ _ _ (seedItems_frontierOf _ id) Hacc) as [F _].
  exists (keys (acc_files acc)). split; [exact Hwf|]. split.
  - intros k. rewrite F. split.
    + intros [[]|[item [Hre [Hget Hc]]]]. exists item.
      split; [now apply (seed_reached id k item Hget) | auto].
    + intros [item [Hcl [Hget Hc]]]. right. exists item.
      split; [now apply (seed_reached id k item Hget) | auto].
  - simpl. apply values_of_keys. intros k f Hin.
    apply In_get in Hin; [|exact Hwf].
    destruct (Hcan _ _ Hin) as [_ [_ Hp]]. exact Hp.
Qed.

(** X2.  When the closure of [id] is produced, its dependencies are,
    without repetition, exactly the identities of the unmarked External
    records the closure goes through, and its registry dependencies are,
    without repetition, exactly the names of the unmarked ShadcnPrimitive
    records it goes through. *)
Theorem closure_dependencies_exact (fuel : nat) (id : string)
  (r : ShadcnItemDependencies) :
  create fuel id = Some (Ok r) ->
  (NoDup (dependencies r) /\
   forall x, In x (dependencies r) <->
     exists item, inClosure id x /\ get originalItems x = Some item /\
                  walked x /\ type (meta item) = external) /\
  (NoDup (registryDependencies r) /\
   forall n, In n (registryDependencies r) <->
     exists k item, inClosure id k /\ get originalItems k = Some item /\
                    walked k /\ type (meta item) = registry_shadcn /\
                    n = name (meta item)).
Proof.
  intros H. apply create_Ok in H as [acc [Hacc ->]].
  pose proof (distinct_loop _ _ _ _ Hacc distinct_empty) as [Hd [Hr _]].
  pose proof (loop_contents _ _ _ _ (seedItems_frontierOf _ id) Hacc) as [_ [D R]].
  split; (split; [assumption|]); simpl; unfold JsSet.values.
  - intros x. rewrite D. split.
    + intros [[]|[item [Hre [Hget Hc]]]]. exists item.
      split; [now apply (seed_reached id x item Hget) | auto].
    + intros [item [Hcl [Hget Hc]]]. right. exists item.
      split; [now apply (seed_reached id x item Hget) | auto].
  - intros n. rewrite R. split.
    + intros [[]|[k [item [Hre [Hget Hc]]]]]. exists k, item.
      split; [now apply (seed_reached id k item Hget) | auto].
    + intros [k [item [Hcl [Hget Hc]]]]. right. exists k, item.
      split; [now apply (seed_reached id k item Hget) | auto].
Qed.

(** *** When the closure loop ends *)

Local Abbreviation feedChain := (feedChain originalItems).
Local Abbreviation onInternalCycle := (onInternalCycle originalItems).

(** What an entry of the frontier feeds is in the next frontier. *)
Lemma feeds_next (items nextItems : JsMap.t ShadcnItem) (acc acc' : ClosureAcc)
  (k d : string) :
  frontierOf items -> round items acc = Ok (nextItems, acc') ->
  In k (keys items) -> feeds k d -> In d (keys nextItems).
Proof.
  intros Hfr Hr Hk [item [Hget [Hw [Hty Hd]]]].
  apply entries_effects in Hr as [_ [_ [_ [N _]]]].
  apply N. right. exists k, item. split; [|auto]. apply frontier_entry; auto.
Qed.

(** A key of the next frontier is fed by a key of the frontier. *)
Lemma next_fed (items nextItems : JsMap.t ShadcnItem) (acc acc' : ClosureAcc)
  (d : string) :
  frontierOf items -> round items acc = Ok (nextItems, acc') ->
  In d (keys nextItems) -> exists k, In k (keys items) /\ feeds k d.
Proof.
  intros Hfr Hr Hd.
  apply entries_effects in Hr as [_ [_ [_ [N _]]]].
  apply N in Hd as [[]|[k [item [Hin [Hw [Hty Hd]]]]]].
  apply frontier_entry in Hin as [Hk Hget]; [|assumption].
  exists k. split; [assumption|]. exists item. auto.
Qed.

(** An identity on a cycle that the frontier leads to keeps the loop from
    returning. *)
Lemma loop_on_cycle (fuel : nat) :
  forall (items : JsMap.t ShadcnItem) (acc accF : ClosureAcc) (k : string),
    frontierOf items -> reachedFrom (keys items) k -> onInternalCycle k ->
    loop fuel items acc <> Some (Ok accF).
Proof.
  induction fuel as [|fuel IH]; intros items acc accF k Hfr Hre Hcy H.
  - destruct items; simpl in H; [|discriminate]. destruct Hre as [s [[] _]].
  - destruct items as [|e0 items]; [destruct Hre as [s [[] _]]|].
    apply loop_unroll in H as [f [Hf [[e [_ He]]|[next [acc1 [Hr Hl]]]]]];
      [discriminate | | discriminate].
    injection Hf as <-.
    pose proof (frontierOf_round _ _ _ _ _ _ _ _ Hr) as Hfr'.
    apply (reachedFrom_round _ _ _ _ Hfr Hr) in Hre as [Hk|Hre].
    + unfold onInternalCycle in Hcy. apply clos_trans_t1n in Hcy.
      inversion Hcy as [y Hy|y z Hy Hyk]; subst.
      * refine (IH _ _ accF k Hfr' _ _ Hl); [|now apply clos_t1n_trans].
        exists k. split; [exact (feeds_next _ _ _ _ _ _ Hfr Hr Hk Hy) | apply rt_refl].
      * refine (IH _ _ accF y Hfr' _ _ Hl).
        -- exists y. split; [exact (feeds_next _ _ _ _ _ _ Hfr Hr Hk Hy) | apply rt_refl].
        -- eapply t_trans; [apply clos_t1n_trans; exact Hyk | now apply t_step].
    + exact (IH _ _ accF k Hfr' Hre Hcy Hl).
Qed.

(** X4.  When an internal helper the closure of [id] goes through imports
    itself through internal helpers, the closure builder does not return
    a closure, however long it runs. *)
Theorem closure_never_returns_on_internal_cycle (id k : string) :
  inClosure id k -> onInternalCycle k ->
  forall (fuel : nat) (r : ShadcnItemDependencies), create fuel id <> Some (Ok r).
Proof.
  intros Hcl Hcy fuel r H. apply create_Ok in H as [acc [Hacc _]].
  assert (Hget : exists item, get originalItems k = Some item).
  { unfold onInternalCycle in Hcy. apply clos_trans_t1n in Hcy.
    inversion Hcy as [y [item [Hg _]]|y z [item [Hg _]] _]; eauto. }
  destruct Hget as [item Hget].
  apply (seed_reached id k item Hget) in Hcl.
  exact (loop_on_cycle fuel _ _ acc k (seedItems_frontierOf _ id) Hcl Hcy Hacc).
Qed.

(** A loop that runs out of fuel has gone along a chain of that many
    identities, from the frontier. *)
Lemma loop_None_chain (fuel : nat) :
  forall (items : JsMap.t ShadcnItem) (acc : ClosureAcc),
    frontierOf items -> loop fuel items acc = None ->
    exists s path, In s (keys items) /\ length path = fuel /\ feedChain (s :: path).
Proof.
  induction fuel as [|fuel IH]; intros items acc Hfr H.
  - destruct items as [|[s item] items]; simpl in H; [discriminate|].
    exists s, []. simpl. auto.
  - destruct items as [|e0 items]; [simpl in H; discriminate|].
    rewrite loop_step in H by discriminate.
    destruct (round (e0 :: items) acc) as [[next acc1]|e] eqn:Hr; [|discriminate].
    pose proof (frontierOf_round _ _ _ _ _ _ _ _ Hr) as Hfr'.
    destruct (IH _ _ Hfr' H) as [s' [path [Hs' [Hlen Hch]]]].
    destruct (next_fed _ _ _ _ _ Hfr Hr Hs') as [s [Hs Hfeed]].
    exists s, (s' :: path). simpl. split; [assumption|]. split; [now rewrite Hlen|].
    split; assumption.
Qed.

Lemma feedChain_app_r (l1 l2 : list string) : feedChain (l1 ++ l2) -> feedChain l2.
Proof.
  induction l1 as [|x l1 IH]; [auto|]. simpl.
  destruct (l1 ++ l2) eqn:E; [|intros [_ H]; auto].
  destruct l1; [|discriminate]. simpl in E. subst. auto.
Qed.

Lemma feedChain_trans (l : list string) :
  forall x y, feedChain (x :: l ++ y :: nil) ->
              clos_trans string feeds x y.
Proof.
  induction l as [|a l IH]; intros x y H.
  - simpl in H. apply t_step. tauto.
  - destruct H as [Hxa H]. eapply t_trans; [apply t_step; exact Hxa | now apply IH].
Qed.

Lemma feedChain_app_l (l1 l2 : list string) : feedChain (l1 ++ l2) -> feedChain l1.
Proof.
  induction l1 as [|x l1 IH]; [simpl; auto|]. simpl.
  destruct l1 as [|y l1]; [simpl; auto|]. simpl. intros [H1 H2]. split; [assumption|].
  now apply IH.
Qed.

(** Every identity of a chain but the last has a record. *)
Lemma feedChain_sources (l : list string) :
  feedChain l -> forall x, In x (removelast l) -> In x (keys originalItems).
Proof.
  induction l as [|a l IH]; [intros _ x []|].
  destruct l as [|b l]; [intros _ x []|].
  intros [[item [Hget _]] Hch] x Hx.
  change (removelast (a :: b :: l)) with (a :: removelast (b :: l)) in Hx.
  destruct Hx as [<-|Hx]; [apply In_keys_get; eauto | now apply IH].
Qed.

Lemma removelast_cons_length (path : list string) :
  forall s, length (removelast (s :: path)) = length path.
Proof.
  induction path as [|a path IH]; intros s; [reflexivity|].
  change (removelast (s :: a :: path)) with (s :: removelast (a :: path)).
  change (S (length (removelast (a :: path))) = S (length path)). f_equal. apply IH.
Qed.

(** A list with a repetition, split at it. *)
Lemma repetition (l : list string) :
  ~ NoDup l -> exists x l1 l2 l3, l = l1 ++ x :: l2 ++ x :: l3.
Proof.
  induction l as [|a l IH]; intros H; [exfalso; apply H; constructor|].
  destruct (in_dec string_dec a l) as [Hin|Hin].
  - apply in_split in Hin as [l2 [l3 ->]]. exists a, [], l2, l3. reflexivity.
  - destruct IH as [x [l1 [l2 [l3 ->]]]].
    + intros Hnd. apply H. now constructor.
    + exists x, (a :: l1), l2, l3. reflexivity.
Qed.

(** X3.  When no internal helper the closure of [id] goes through imports
    itself through internal helpers, the closure builder ends, with a
    closure or an error, within one round per record of the map; it ends
    with a closure when, in addition, the imports of the walked Internal
    records have a record and the identities to turn into files convert
    to paths. *)
Theorem closure_ends_without_internal_cycle (id : string) (fuel : nat) :
  (forall k, inClosure id k -> ~ onInternalCycle k) ->
  length (keys originalItems) < fuel ->
  (exists out, create fuel id = Some out) /\
  (importsPresent originalItems originalItems ->
   pathsFound fileURLToPath_URL originalItems ->
   exists r, create fuel id = Some (Ok r)).
Proof.
  intros Hacyclic Hfuel.
  assert (Hends : exists out,
            loop fuel (seedItems id originalItems) emptyAcc = Some out).
  { destruct (loop fuel (seedItems id originalItems) emptyAcc) as [out|] eqn:Hl; [eauto|].
    exfalso.
    apply loop_None_chain in Hl as [s [path [Hs [Hlen Hch]]]];
      [|apply seedItems_frontierOf].
    assert (Hrep : ~ NoDup (removelast (s :: path))).
    { intros Hnd. apply NoDup_incl_length with (l' := keys originalItems) in Hnd.
      - rewrite removelast_cons_length in Hnd. lia.
      - intros x Hx. now apply (feedChain_sources _ Hch). }
    apply repetition in Hrep as [x [l1 [l2 [l3 Hsplit]]]].
    assert (Hpath : s :: path = l1 ++ x :: l2 ++ x :: l3 ++ [last (s :: path) s]).
    { rewrite (app_removelast_last (l := s :: path) s) at 1 by discriminate.
      rewrite Hsplit. now rewrite <- !app_assoc; simpl; rewrite <- !app_assoc. }
    rewrite Hpath in Hch.
    assert (Hcy : onInternalCycle x).
    { apply feedChain_app_r in Hch.
      replace (x :: l2 ++ x :: l3 ++ [last (s :: path) s])
        with ((x :: l2 ++ [x]) ++ (l3 ++ [last (s :: path) s])) in Hch
        by (simpl; now rewrite <- app_assoc).
      apply feedChain_app_l in Hch. now apply feedChain_trans in Hch. }
    assert (Hx : exists item, get originalItems x = Some item).
    { unfold onInternalCycle in Hcy. apply clos_trans_t1n in Hcy.
      inversion Hcy as [y [item [Hg _]]|y z [item [Hg _]] _]; eauto. }
    destruct Hx as [xitem Hx].
    apply (Hacyclic x); [|exact Hcy].
    apply (seed_reached id x xitem Hx).
    exists s. split; [assumption|].
    destruct l1 as [|s' l1]; simpl in Hpath.
    - injection Hpath as -> _. apply rt_refl.
    - injection Hpath as <- _. apply clos_t_clos_rt.
      replace ((s :: l1) ++ x :: l2 ++ x :: l3 ++ [last (s :: path) s])
        with ((s :: l1 ++ [x]) ++ (l2 ++ x :: l3 ++ [last (s :: path) s])) in Hch
        by (simpl; now rewrite <- app_assoc).
      apply feedChain_app_l in Hch. now apply feedChain_trans in Hch. }
  destruct Hends as [out Hout]. split.
  - unfold createShadcnItemDependencies, closureAcc. rewrite Hout.
    destruct out; simpl; eauto.
  - intros Himp Hpaths.
    unfold createShadcnItemDependencies, closureAcc. rewrite Hout.
    destruct out as [acc|e]; [simpl; eauto|]. exfalso.
    apply loop_Throw in Hout as [k [item [Hin [Hw [H|H]]]]]; [| |apply seedItems_frontierOf].
    + destruct H as [_ [Hty [d [Hd Hmiss]]]]. exact (Himp k item d Hin Hw Hty Hd Hmiss).
    + destruct H as [_ [Hpf [Hq Hu]]]. exact (Hpaths k item Hin Hw Hpf Hq Hu).
Qed.

(** A chain of internal helpers starts at a walked Internal record. *)
Lemma feeds_source (x y : string) :
  clos_trans string feeds x y ->
  exists item, get originalItems x = Some item /\ walked x /\
               type (meta item) = registry_internal.
Proof.
  induction 1 as [x y [item [Hget [Hw [Hty _]]]]|x y z _ IH _ _]; [eauto | exact IH].
Qed.

(** Ranked internal helpers are on no cycle. *)
Lemma ranked_no_cycle (rank : string -> nat) (k : string) :
  internalImportsDescend originalItems rank -> ~ onInternalCycle k.
Proof.
  intros Hrank Hcy.
  assert (Hlt : forall x y, clos_trans string feeds x y ->
            (exists item, get originalItems y = Some item /\ walked y /\
                          type (meta item) = registry_internal) ->
            rank y < rank x).
  { induction 1 as [x y [item [Hget [Hw [Hty Hd]]]]|x y z Hxy IH1 Hyz IH2].
    - intros [item' [Hget' [Hw' Hty']]].
      apply (Hrank x item y item'); auto. now apply get_In.
    - intros Hz. specialize (IH2 Hz). specialize (IH1 (feeds_source _ _ Hyz)). lia. }
  specialize (Hlt k k Hcy (feeds_source _ _ Hcy)). lia.
Qed.
End ClosureContents.

Lemma closure_files_exact_witness :
  exists r,
    Host.closure 5 Example.root Example.card Example.originalItems = Some (Ok r) /\
    exists ks,
      NoDup ks /\
      (forall k, In k ks <->
         exists item, inClosure Example.originalItems Example.card k /\
                      JsMap.get Example.originalItems k = Some item /\
                      walked k /\ producesFile (type (meta item)) /\ queryFree k) /\
      Forall2 (fun k f =>
                 exists p, getLocalFilePath Example.root Host.fileURLToPath_URL k
                             Example.root = Ok p /\
                           f = fileEntry Example.originalItems k p)
              ks (files r).
Proof.
  destruct (Host.closure 5 Example.root Example.card Example.originalItems)
    as [[r|e]|] eqn:H; [|vm_compute in H; discriminate..].
  exists r. split; [reflexivity|].
  exact (closure_files_exact Example.root Host.fileURLToPath_URL Example.originalItems
           Example.root example_wf 5 Example.card r H).
Defined.

Lemma closure_dependencies_exact_witness :
  exists r,
    Host.closure 5 Example.root Example.card Example.originalItems = Some (Ok r) /\
    (NoDup (dependencies r) /\
     forall x, In x (dependencies r) <->
       exists item, inClosure Example.originalItems Example.card x /\
                    JsMap.get Example.originalItems x = Some item /\
                    walked x /\ type (meta item) = external) /\
    (NoDup (registryDependencies r) /\
     forall n, In n (registryDependencies r) <->
       exists k item, inClosure Example.originalItems Example.card k /\
                      JsMap.get Example.originalItems k = Some item /\
                      walked k /\ type (meta item) = registry_shadcn /\
                      n = name (meta item)).
Proof.
  destruct (Host.closure 5 Example.root Example.card Example.originalItems)
    as [[r|e]|] eqn:H; [|vm_compute in H; discriminate..].
  exists r. split; [reflexivity|].
  exact (closure_dependencies_exact Example.root Host.fileURLToPath_URL
           Example.originalItems Example.root example_wf 5 Example.card r H).
Defined.

Lemma closure_ends_without_internal_cycle_witness :
  (exists out, Host.closure 9 Example.root Example.card Example.originalItems = Some out) /\
  (importsPresent Example.originalItems Example.originalItems ->
   pathsFound Host.fileURLToPath_URL Example.originalItems ->
   exists r, Host.closure 9 Example.root Example.card Example.originalItems = Some (Ok r)).
Proof.
  apply (closure_ends_without_internal_cycle Example.root Host.fileURLToPath_URL
           Example.originalItems Example.root example_wf Example.card 9).
  - intros k _. exact (ranked_no_cycle Example.originalItems (fun _ => 0) k
                         example_internalImportsDescend).
  - simpl. lia.
Defined.

Lemma cyclic_wf : JsMap.wf Example.cyclicItems.
Proof.
  unfold JsMap.wf. simpl.
  repeat (constructor; [simpl; intuition discriminate|]). constructor.
Qed.

Lemma closure_never_returns_on_internal_cycle_witness :
  ~ exists (fuel : nat) (r : ShadcnItemDependencies),
      Host.closure fuel Example.root Example.card Example.cyclicItems = Some (Ok r).
Proof.
  intros [fuel [r H]]. revert H.
  apply (closure_never_returns_on_internal_cycle Example.root Host.fileURLToPath_URL
           Example.cyclicItems Example.root cyclic_wf Example.card Example.format).
  - exists Example.format. split; [simpl; tauto | apply rt_refl].
  - apply t_trans with Example.gone; apply t_step; eexists; vm_compute; intuition.
Defined.

(** *** How a walk ends *)

Section WalkerOutcome.
Variable getModuleInfo : string -> option ModuleInfo.

Local Abbreviation reach := (reachable getModuleInfo).
Local Abbreviation expand := (expandFrontier getModuleInfo).
Local Abbreviation walk := (walkLoop getModuleInfo).
Local Abbreviation walkInvariant := (walkInvariant getModuleInfo).
Local Abbreviation infoKnown := (infoKnown getModuleInfo).

(** The expansion of a frontier fails at a member without module
    information, and in no other way. *)
Lemma expand_Throw (xs : list string) (e : error) :
  expand xs = Throw e ->
  e = ModuleInfoNotFound /\ exists x, In x xs /\ getModuleInfo x = None.
Proof.
  unfold expandFrontier.
  destruct (mapM (moduleInfoOrThrow getModuleInfo) xs) as [infos|e'] eqn:H;
    simpl; [discriminate|].
  intros [= <-]. revert e' H. induction xs as [|x xs IH]; simpl; intros e' H.
  - discriminate.
  - unfold moduleInfoOrThrow at 1 in H.
    destruct (getModuleInfo x) as [moduleInfo|] eqn:E; simpl in H.
    + destruct (mapM (moduleInfoOrThrow getModuleInfo) xs) as [infos|e1] eqn:H1;
        simpl in H; [discriminate|].
      injection H as <-. destruct (IH e1 eq_refl) as [-> [y [Hy Hnone]]].
      split; [reflexivity|]. exists y. auto.
    + injection H as <-. split; [reflexivity|]. exists x. auto.
Qed.

Lemma infoKnown_step (root : string) (toProcess ids : list string) (hoisted : JsSet.t) :
  infoKnown root toProcess hoisted -> expand toProcess = Ok ids ->
  infoKnown root (filter (fun id => negb (JsSet.has hoisted id)) ids)
    (fold_left JsSet.add ids hoisted).
Proof.
  intros Hknown Hexp h Hh. apply expand_Ok in Hexp as [Hinfo _].
  assert (Hcase : (h = root \/ In h hoisted) \/ (In h ids /\ JsSet.has hoisted h = false)).
  { destruct Hh as [Hh|Hh]; [auto|].
    apply JsSetFacts.In_fold_add in Hh as [Hh|Hh]; [auto|].
    destruct (JsSet.has hoisted h) eqn:E; [|auto].
    apply JsSetFacts.has_In in E. auto. }
  destruct Hcase as [Hold|[Hin Hnot]].
  - right. destruct (Hknown h Hold) as [Hp|Hi]; auto.
  - left. apply filter_In. split; [assumption | now rewrite Hnot].
Qed.

(** A walk that returns a set has found module information for the root
    and for every identity of the set. *)
Lemma walk_info (root : string) (fuel : nat) :
  forall (toProcess : list string) (hoisted s : JsSet.t),
    infoKnown root toProcess hoisted ->
    walk fuel toProcess hoisted = Some (Ok s) ->
    forall h, h = root \/ In h s -> getModuleInfo h <> None.
Proof.
  induction fuel as [|fuel IH]; intros toProcess hoisted s Hknown H.
  - destruct toProcess; simpl in H; [|discriminate]. inversion H; subst.
    intros h Hh. destruct (Hknown h Hh) as [[]|Hi]. exact Hi.
  - destruct toProcess as [|p toProcess].
    + simpl in H. inversion H; subst.
      intros h Hh. destruct (Hknown h Hh) as [[]|Hi]. exact Hi.
    + cbn [walkLoop] in H.
      destruct (expand (p :: toProcess)) as [ids|e] eqn:Hexp; [|discriminate].
      eapply IH; [|exact H].
      now apply infoKnown_step with (toProcess := p :: toProcess).
Qed.

(** A walk that throws has met the root or a reachable identity without
    module information. *)
Lemma walk_Throw (root : string) (fuel : nat) :
  forall (toProcess : list string) (hoisted : JsSet.t) (e : error),
    walkInvariant root toProcess hoisted ->
    walk fuel toProcess hoisted = Some (Throw e) ->
    e = ModuleInfoNotFound /\
    exists v, (v = root \/ reach root v) /\ getModuleInfo v = None.
Proof.
  induction fuel as [|fuel IH]; intros toProcess hoisted e Hinv H.
  - destruct toProcess; simpl in H; discriminate.
  - destruct toProcess as [|p toProcess]; [simpl in H; discriminate|].
    cbn [walkLoop] in H.
    destruct (expand (p :: toProcess)) as [ids|e'] eqn:Hexp.
    + eapply IH; [|exact H].
      now apply walkInvariant_step with (toProcess := p :: toProcess).
    + injection H as <-. apply expand_Throw in Hexp as [-> [x [Hx Hnone]]].
      split; [reflexivity|]. exists x. split; [|assumption].
      destruct Hinv as [_ [_ [Hfront _]]]. auto.
Qed.

(** On a graph with finitely many modules the walk ends, whether or not
    the imports have module information. *)
Lemma walk_ends (nodes : list string) (root : string) :
  (forall x, getModuleInfo x <> None -> In x nodes) ->
  forall (fuel : nat) (toProcess : list string) (hoisted : JsSet.t),
    infoKnown root toProcess hoisted -> NoDup hoisted ->
    0 < fuel ->
    ((forall p, In p toProcess -> getModuleInfo p <> None) ->
     length nodes - length hoisted + 1 < fuel) ->
    exists out, walk fuel toProcess hoisted = Some out.
Proof.
  intros Hfin.
  induction fuel as [|fuel IH]; intros toProcess hoisted Hknown Hnd Hpos Hfuel; [lia|].
  destruct toProcess as [|p toProcess]; [simpl; eauto|].
  cbn [walkLoop].
  destruct (expand (p :: toProcess)) as [ids|e] eqn:Hexp; [|eauto].
  pose proof (infoKnown_step _ _ _ _ Hknown Hexp) as Hknown'.
  apply expand_Ok in Hexp as [Hinfo _]. specialize (Hfuel Hinfo).
  assert (Hh : forall h, In h hoisted -> In h nodes).
  { intros h Hh. apply Hfin. destruct (Hknown h (or_intror Hh)) as [Hp|Hi]; auto. }
  assert (Hlen : length hoisted <= length nodes) by now apply NoDup_incl_length.
  set (next := filter (fun id => negb (JsSet.has hoisted id)) ids) in *.
  set (hoisted' := fold_left JsSet.add ids hoisted) in *.
  assert (Hnd' : NoDup hoisted') by now apply JsSetFacts.NoDup_fold_add.
  destruct next as [|x next'] eqn:Hnext; [rewrite walk_nil; eauto|].
  apply IH; try assumption; [lia|].
  intros Hinfo'.
  assert (Hx : In x ids /\ ~ In x hoisted).
  { assert (Hin : In x next) by (rewrite Hnext; now left).
    apply filter_In in Hin as [Hin Hneg]. split; [assumption|].
    intros Hc. apply JsSetFacts.has_In in Hc. rewrite Hc in Hneg. discriminate. }
  destruct Hx as [Hx Hnot].
  assert (Hgrow : length (x :: hoisted) <= length hoisted').
  { apply NoDup_incl_length; [now constructor|].
    intros y [<-|Hy]; apply JsSetFacts.In_fold_add; auto. }
  assert (Hbound : length hoisted' <= length nodes).
  { apply NoDup_incl_length; [assumption|]. intros y Hy. apply Hfin.
    destruct (Hknown' y (or_intror Hy)) as [Hp|Hi]; [|assumption].
    now apply Hinfo'. }
  simpl in Hgrow. lia.
Qed.

(** X5.  On a graph with finitely many modules the walk from [root] ends
    within one round per module and one more.  It returns a set only
    when the root and every identity reachable from it have module
    information; otherwise it throws the module-information error, and
    then the root or an identity reachable from it has none. *)
Theorem walker_outcome (nodes : list string) (root : string) (fuel : nat) :
  (forall x, getModuleInfo x <> None -> In x nodes) ->
  length nodes + 1 < fuel ->
  exists out,
    getHoistedImportedIds getModuleInfo fuel root = Some out /\
    match out with
    | Ok s =>
        forall v, v = root \/ reach root v -> getModuleInfo v <> None
    | Throw e =>
        e = ModuleInfoNotFound /\
        exists v, (v = root \/ reach root v) /\ getModuleInfo v = None
    end.
Proof.
  intros Hfin Hfuel.
  assert (Hinv : walkInvariant root [root] JsSet.empty).
  { split; [constructor | split; [intros h [] | split]].
    - intros p [<-|[]]. now left.
    - intros h [->|[]]. left. now left. }
  assert (Hknown : infoKnown root [root] JsSet.empty).
  { intros h [->|[]]. left. now left. }
  destruct (walk_ends nodes root Hfin fuel [root] JsSet.empty Hknown) as [out Hout].
  - constructor.
  - lia.
  - intros _. simpl. lia.
  - exists out. split; [exact Hout|]. destruct out as [s|e].
    + intros v Hv. apply (walk_info root fuel _ _ s Hknown Hout).
      destruct Hv as [Hv|Hv]; [auto|]. right.
      now apply (walk_correct getModuleInfo root fuel _ _ s Hinv Hout).
    + exact (walk_Throw root fuel _ _ e Hinv Hout).
Qed.
End WalkerOutcome.

(** *** What [buildEnd] registers, and how it fails *)

Section BuildEnd.
Variable cwd : string.
Variable kebabCase : string -> string.
Variable fileURLToPath_URL : string -> option string.
Variables isShadcnComponent isComponent isComposable isUtil : string -> bool.
Variable resolve : string -> option ResolvedId.
Variable getModuleInfo : string -> option ModuleInfo.
Variable configRootDir : string.

Local Abbreviation classify :=
  (getShadcnItemMeta cwd kebabCase fileURLToPath_URL
     isShadcnComponent isComponent isComposable isUtil configRootDir).
Local Abbreviation collect :=
  (collectShadcnItem cwd kebabCase fileURLToPath_URL
     isShadcnComponent isComponent isComposable isUtil resolve getModuleInfo configRootDir).
Local Abbreviation recordOf :=
  (recordOf cwd kebabCase fileURLToPath_URL
     isShadcnComponent isComponent isComposable isUtil resolve getModuleInfo configRootDir).
Local Abbreviation register :=
  (fun fuel shadcnItems =>
     registerShadcnItems cwd fileURLToPath_URL fuel configRootDir shadcnItems).
Local Abbreviation create :=
  (fun fuel id shadcnItems =>
     createShadcnItemDependencies cwd fileURLToPath_URL fuel id shadcnItems configRootDir).
Local Abbreviation reach := (reachable getModuleInfo).
Local Abbreviation root := SHADCN_REGISTRY_VIRTUAL_MODULE_ID.

Import JsMap JsMapFacts.

(** The host reports a module under the identity it was asked for. *)
Hypothesis moduleInfo_id :
  forall x moduleInfo, getModuleInfo x = Some moduleInfo -> id moduleInfo = x.

Lemma name_Throw (x ty : string) (e : error) :
  getRegistryItemName cwd kebabCase fileURLToPath_URL x configRootDir ty = Throw e ->
  e = InvalidFileURL /\ fileURLToPath_URL x = None.
Proof.
  unfold getRegistryItemName, getRegistryItemPath.
  destruct (fileURLToPath_URL x); simpl; [discriminate|]. intros [= <-]. auto.
Qed.

(** The classifier fails only where the identity does not convert to a
    path. *)
Lemma classify_Throw (resolvedId : ResolvedId) (e : error) :
  classify resolvedId = Throw e ->
  e = InvalidFileURL /\ fileURLToPath_URL (resolved_id resolvedId) = None.
Proof.
  unfold getShadcnItemMeta. intros H.
  repeat match type of H with
         | (if ?c then _ else _) = _ => destruct c
         end;
    try discriminate;
    apply bind_Throw in H as [H|[n [_ H]]]; try discriminate;
    now apply name_Throw in H.
Qed.


Lemma collect_Ok (shadcnItems shadcnItems' : JsMap.t ShadcnItem) (v : string) :
  collect shadcnItems v = Ok shadcnItems' ->
  exists shadcnItem, recordOf v shadcnItem /\ shadcnItems' = set shadcnItems v shadcnItem.
Proof.
  unfold collectShadcnItem. destruct (resolve v) as [resolvedId|] eqn:Hres; [|discriminate].
  intros H. apply bind_Ok in H as [shadcnItemMeta [Hmeta H]].
  apply bind_Ok in H as [moduleInfo [Hinfo H]].
  unfold moduleInfoOrThrow in Hinfo.
  destruct (getModuleInfo v) as [moduleInfo'|] eqn:Hget; [|discriminate].
  injection Hinfo as <-. injection H as <-.
  rewrite (moduleInfo_id _ _ Hget).
  exists (shadcnItemOf shadcnItemMeta moduleInfo'). split; [|reflexivity].
  exists resolvedId, shadcnItemMeta, moduleInfo'. auto.
Qed.

Lemma collect_Throw (shadcnItems : JsMap.t ShadcnItem) (v : string) (e : error) :
  collect shadcnItems v = Throw e ->
  (e = UnableToResolve /\ resolve v = None) \/
  (e = InvalidFileURL /\
   exists resolvedId, resolve v = Some resolvedId /\
                      fileURLToPath_URL (resolved_id resolvedId) = None) \/
  (e = ModuleInfoNotFound /\ getModuleInfo v = None).
Proof.
  unfold collectShadcnItem. destruct (resolve v) as [resolvedId|] eqn:Hres.
  - intros H. apply bind_Throw in H as [H|[shadcnItemMeta [_ H]]].
    + apply classify_Throw in H as [-> H]. right. left. eauto.
    + apply bind_Throw in H as [H|[moduleInfo [_ H]]]; [|discriminate].
      unfold moduleInfoOrThrow in H. destruct (getModuleInfo v); [discriminate|].
      injection H as <-. auto.
  - intros [= <-]. auto.
Qed.

(** The first loop of [buildEnd] stores one record for each hoisted
    identity, and nothing else. *)
Lemma collect_all (vs : list string) :
  forall shadcnItems shadcnItems',
    foldM collect vs shadcnItems = Ok shadcnItems' ->
    wf shadcnItems ->
    (forall k rec, In (k, rec) shadcnItems -> recordOf k rec) ->
    wf shadcnItems' /\
    (forall k rec, In (k, rec) shadcnItems' -> recordOf k rec) /\
    (forall k, In k (keys shadcnItems') <-> In k (keys shadcnItems) \/ In k vs).
Proof.
  induction vs as [|v vs IH]; simpl; intros m m' H Hwf Hrec.
  - inversion H; subst. repeat split; auto. tauto.
  - apply bind_Ok in H as [m1 [H1 H2]].
    apply collect_Ok in H1 as [rec1 [Hrec1 ->]].
    apply IH in H2 as [Hwf' [Hrec' Hkeys]].
    + split; [assumption|]. split; [assumption|].
      intros k. rewrite Hkeys, In_keys_set. intuition.
    + now apply wf_set.
    + intros k rec Hin. apply In_set in Hin as [[= -> ->]|Hin]; auto.
Qed.

(** A record determines nothing but its module. *)
Lemma recordOf_unique (v : string) (rec rec' : ShadcnItem) :
  recordOf v rec -> recordOf v rec' -> rec = rec'.
Proof.
  intros [r [m [i [Hr [Hm [Hi ->]]]]]] [r' [m' [i' [Hr' [Hm' [Hi' ->]]]]]].
  congruence.
Qed.

(** The second loop fails only where a closure fails. *)
Lemma register_Throw (fuel : nat) (shadcnItems : JsMap.t ShadcnItem)
  (entries : list (string * ShadcnItem)) :
  forall (registry : RegistryImpl) (e : error),
    register fuel shadcnItems entries registry = Some (Throw e) ->
    exists k rec, In (k, rec) entries /\ create fuel k shadcnItems = Some (Throw e).
Proof.
  induction entries as [|[k rec] entries IH]; simpl; intros registry e H; [discriminate|].
  destruct (type (meta rec)) eqn:Hty; simpl in H;
    try (apply IH in H as [k' [rec' [Hin H]]]; exists k', rec'; now auto);
    (destruct (createShadcnItemDependencies cwd fileURLToPath_URL fuel k shadcnItems
                 configRootDir) as [[deps|e']|] eqn:Hc; simpl in H;
     [apply IH in H as [k' [rec' [Hin H]]]; exists k', rec'; now auto
     |injection H as <-; exists k, rec; now auto
     |discriminate]).
Qed.



Lemma walk_start : walkInvariant getModuleInfo root [root] JsSet.empty.
Proof.
  split; [constructor | split; [intros h [] | split]].
  - intros p [<-|[]]. now left.
  - intros h [->|[]]. left. now left.
Qed.

(** The record map of [buildEnd]: one record for each identity reachable
    from the virtual module, and in it every import of a record has a
    record. *)
Lemma records_complete (fuel : nat) (hoisted : JsSet.t) (shadcnItems : JsMap.t ShadcnItem) :
  getHoistedImportedIds getModuleInfo fuel root = Some (Ok hoisted) ->
  foldM collect (JsSet.values hoisted) JsMap.empty = Ok shadcnItems ->
  wf shadcnItems /\
  (forall v rec, In (v, rec) shadcnItems <-> reach root v /\ recordOf v rec) /\
  (forall k rec d, In (k, rec) shadcnItems -> In d (modules rec) ->
     get shadcnItems d <> None).
Proof.
  intros Hwalk Hcollect.
  apply (walk_correct getModuleInfo root fuel _ _ hoisted walk_start) in Hwalk
    as [_ Hreach].
  apply collect_all in Hcollect as [Hwf [Hrec Hkeys]];
    [|constructor|intros k rec []].
  assert (Hk : forall k, In k (keys shadcnItems) <-> reach root k).
  { intros k. rewrite Hkeys, <- Hreach. unfold JsSet.values. simpl. tauto. }
  split; [assumption|]. split.
  - intros v rec. split.
    + intros Hin. split; [|now apply Hrec].
      apply Hk. apply in_map_iff. now exists (v, rec).
    + intros [Hv Hr]. apply Hk in Hv. apply in_map_iff in Hv as [[v' rec'] [E Hin]].
      simpl in E. subst v'.
      now rewrite (recordOf_unique v rec rec' Hr (Hrec _ _ Hin)).
  - intros k rec d Hin Hd.
    assert (Hkr : reach root k) by (apply Hk; apply in_map_iff; now exists (k, rec)).
    destruct (Hrec _ _ Hin) as [r [m [i [_ [_ [Hi ->]]]]]]. simpl in Hd.
    assert (Hkd : imports getModuleInfo k d).
    { exists i. split; [assumption|]. rewrite in_app_iff in *. tauto. }
    assert (Hdr : reach root d) by (eapply t_trans; [exact Hkr | now apply t_step]).
    apply Hk in Hdr. apply In_keys_get in Hdr as [rec' Hget]. congruence.
Qed.

(** X6.  [buildEnd] never fails with the missing-record error of the
    closure builder: the record map it builds holds a record for every
    import of every record.  When it fails, the virtual module or a module
    reachable from it has no module information, or a reachable module
    does not resolve, or the identity of a reachable module, or the one
    it resolves to, does not convert to a path. *)
Theorem buildEnd_failures (fuel : nat) (e : error) :
  buildEnd cwd kebabCase fileURLToPath_URL isShadcnComponent isComponent isComposable
    isUtil resolve getModuleInfo fuel configRootDir = Some (Throw e) ->
  e <> MissingRecord /\
  ((e = ModuleInfoNotFound /\
    exists v, (v = root \/ reach root v) /\ getModuleInfo v = None) \/
   (e = UnableToResolve /\ exists v, reach root v /\ resolve v = None) \/
   (e = InvalidFileURL /\
    exists v, reach root v /\
      (fileURLToPath_URL v = None \/
       exists resolvedId, resolve v = Some resolvedId /\
                          fileURLToPath_URL (resolved_id resolvedId) = None))).
Proof.
  intros H.
  assert (Hcases :
    (e = ModuleInfoNotFound /\
     exists v, (v = root \/ reach root v) /\ getModuleInfo v = None) \/
    (e = UnableToResolve /\ exists v, reach root v /\ resolve v = None) \/
    (e = InvalidFileURL /\
     exists v, reach root v /\
       (fileURLToPath_URL v = None \/
        exists resolvedId, resolve v = Some resolvedId /\
                           fileURLToPath_URL (resolved_id resolvedId) = None)));
    [|split; [|exact Hcases];
      destruct Hcases as [[-> _]|[[-> _]|[-> _]]]; discriminate].
  unfold buildEnd in H.
  destruct (getHoistedImportedIds getModuleInfo fuel root) as [[hoisted|e0]|] eqn:Hwalk;
    simpl in H; [| |discriminate].
  - destruct (foldM collect (JsSet.values hoisted) empty) as [shadcnItems|e1] eqn:Hcollect.
    + destruct (records_complete _ _ _ Hwalk Hcollect) as [Hwf [Hrec Himp]].
      apply register_Throw in H as [k [rec [_ H]]].
      apply create_Throw in H.
      apply loop_Throw in H as [k' [item [Hin [Hw [Hmiss|Hurl]]]]];
        [| |apply seedItems_frontierOf].
      * destruct Hmiss as [_ [_ [d [Hd Hnone]]]]. exfalso.
        exact (Himp k' item d Hin Hd Hnone).
      * destruct Hurl as [-> [_ [_ Hnone]]]. right. right. split; [reflexivity|].
        exists k'. split; [now apply (Hrec k' item) | auto].
    + injection H as <-.
      apply (walk_correct getModuleInfo root fuel _ _ hoisted walk_start) in Hwalk
        as [_ Hreach].
      apply foldM_Throw_inv in Hcollect as [s0 [v [Hv Hthrow]]].
      apply Hreach in Hv.
      apply collect_Throw in Hthrow as [[-> Hr]|[[-> [r [Hr Hu]]]|[-> Hi]]].
      * right. left. eauto.
      * right. right. split; [reflexivity|]. exists v. eauto.
      * left. split; [reflexivity|]. exists v. auto.
  - injection H as <-. left.
    exact (walk_Throw getModuleInfo root fuel _ _ e0 walk_start Hwalk).
Qed.



End BuildEnd.

(** *** The input the hook [options] returns *)

Section Options.
Import JsMap JsMapFacts.

Local Abbreviation registryKey := "shadcn-registry"%string.
Local Abbreviation virtualId := SHADCN_REGISTRY_VIRTUAL_MODULE_ID.

Lemma index_key_inj (i j : nat) : index_key i = index_key j -> i = j.
Proof.
  unfold index_key. intros H.
  apply (f_equal DecimalString.NilEmpty.uint_of_string) in H.
  rewrite !DecimalString.NilEmpty.usu in H. injection H as H.
  apply (f_equal Nat.of_uint) in H. now rewrite !DecimalNat.Unsigned.of_to in H.
Qed.

Lemma index_key_not_registry (i : nat) : index_key i <> registryKey.
Proof.
  unfold index_key. intros H.
  apply (f_equal DecimalString.NilEmpty.uint_of_string) in H.
  rewrite DecimalString.NilEmpty.usu in H. vm_compute in H. discriminate.
Qed.

(** Writing to a key the value it has changes nothing. *)
Lemma set_same {V} (m : JsMap.t V) (k : string) (v : V) :
  get m k = Some v -> set m k v = m.
Proof.
  induction m as [|[k' v'] m IH]; simpl; [discriminate|].
  destruct (k' =? k) eqn:E.
  - apply String.eqb_eq in E. intros [= ->]. now subst.
  - intros H. now rewrite IH.
Qed.

Lemma keys_combine (ks : list string) (vs : list string) :
  length ks = length vs -> keys (combine ks vs) = ks.
Proof.
  revert vs. induction ks as [|k ks IH]; intros [|v vs]; simpl; try discriminate; auto.
  intros [= H]. now rewrite IH.
Qed.

Lemma index_keys_NoDup (i n : nat) : NoDup (map index_key (seq i n)).
Proof.
  apply NoDup_map_NoDup_ForallPairs; [|apply seq_NoDup].
  intros a b _ _. apply index_key_inj.
Qed.

(** The entries an array leaves: its elements under their indices. *)
Lemma assignIndices_entries (l : list string) :
  forall (i : nat) (m : JsMap.t string),
    (forall k, In k (keys m) -> exists j, j < i /\ k = index_key j) ->
    assignIndices i l m = m ++ combine (map index_key (seq i (length l))) l.
Proof.
  induction l as [|x l IH]; intros i m Hm; simpl; [now rewrite app_nil_r|].
  rewrite set_fresh.
  - rewrite IH; [now rewrite <- app_assoc|].
    intros k Hk. unfold keys in Hk. rewrite map_app, in_app_iff in Hk.
    destruct Hk as [Hk|[<-|[]]].
    + destruct (Hm k Hk) as [j [Hj ->]]. exists j. split; [lia | reflexivity].
    + exists i. split; [lia | reflexivity].
  - intros Hk. destruct (Hm _ Hk) as [j [Hj E]]. apply index_key_inj in E. lia.
Qed.

Lemma array_records (l : list string) :
  convertToInputRecords (input_array l) = combine (map index_key (seq 0 (length l))) l /\
  wf (convertToInputRecords (input_array l)).
Proof.
  assert (E : convertToInputRecords (input_array l) =
              combine (map index_key (seq 0 (length l))) l).
  { simpl. rewrite assignIndices_entries; [reflexivity | intros k []]. }
  split; [exact E|]. rewrite E. unfold wf.
  rewrite keys_combine by now rewrite length_map, length_seq.
  apply index_keys_NoDup.
Qed.

Lemma registryInput_wf (input : InputOption) :
  wf (registryInput input) /\ get (registryInput input) registryKey = Some virtualId.
Proof.
  unfold registryInput. split; [apply wf_set, wf_of_entries | apply get_set_eq].
Qed.

(** X9.  The hook [options] leaves the other options as they are and
    returns as [input] an object that always maps ["shadcn-registry"] to
    the virtual module; applying the hook twice changes nothing more.
    A string input is kept under the key ["0"], the elements of an array
    under their indices, in order, and the entries of an object under
    their keys, other than an entry named ["shadcn-registry"], which is
    replaced; the registry entry comes last unless the object had one. *)
Theorem options_keeps_entries_and_adds_registry :
  (forall (T : Type) (o : InputOptions T),
     opt_others (options o) = opt_others o /\
     opt_input (options o) = input_record (registryInput (opt_input o)) /\
     wf (registryInput (opt_input o)) /\
     get (registryInput (opt_input o)) registryKey = Some virtualId /\
     options (options o) = options o) /\
  (forall s, registryInput (input_string s) = [("0"%string, s); (registryKey, virtualId)]) /\
  (forall l, registryInput (input_array l) =
             combine (map index_key (seq 0 (length l))) l ++ [(registryKey, virtualId)]) /\
  (forall m, wf m ->
     registryInput (input_record m) = set m registryKey virtualId /\
     (forall k, get (registryInput (input_record m)) k =
                if k =? registryKey then Some virtualId else get m k) /\
     (get m registryKey = None ->
      registryInput (input_record m) = m ++ [(registryKey, virtualId)])) /\
  registryInput input_undefined = [(registryKey, virtualId)].
Proof.
  split; [|split; [|split; [|split]]].
  - intros T o. destruct (registryInput_wf (opt_input o)) as [Hwf Hget].
    repeat split; try assumption.
    unfold options. simpl. f_equal. f_equal.
    unfold registryInput at 1. simpl convertToInputRecords. unfold entries.
    rewrite !of_entries_wf by (try rewrite of_entries_wf; assumption).
    now apply set_same.
  - intros s. reflexivity.
  - intros l. unfold registryInput, entries.
    destruct (array_records l) as [E Hwf]. rewrite of_entries_wf by assumption.
    rewrite E. apply set_fresh.
    rewrite keys_combine by now rewrite length_map, length_seq.
    intros Hin. apply in_map_iff in Hin as [i [Hi _]].
    exact (index_key_not_registry i Hi).
  - intros m Hwf.
    assert (E : registryInput (input_record m) = set m registryKey virtualId).
    { unfold registryInput, entries. simpl convertToInputRecords. unfold entries.
      now rewrite !of_entries_wf by (try rewrite of_entries_wf; assumption). }
    split; [exact E|]. split.
    + intros k. rewrite E. destruct (k =? registryKey) eqn:Ek.
      * apply String.eqb_eq in Ek. subst k. apply get_set_eq.
      * apply String.eqb_neq in Ek. apply get_set_ne. congruence.
    + intros Hnone. rewrite E. apply set_fresh. now apply get_None_keys.
  - reflexivity.
Qed.
End Options.

Lemma options_keeps_entries_and_adds_registry_witness :
  registryInput (input_record [("main"%string, "src/main.ts"%string)]) =
  [("main"%string, "src/main.ts"%string);
   ("shadcn-registry"%string, SHADCN_REGISTRY_VIRTUAL_MODULE_ID)].
Proof.
  apply (proj2 (proj2 (proj1 (proj2 (proj2 (proj2
           options_keeps_entries_and_adds_registry)))
           [("main"%string, "src/main.ts"%string)]
           ltac:(repeat constructor; simpl; tauto)))).
  reflexivity.
Defined.

(** *** The files [generateBundle] emits *)

Section GenerateBundleFacts.
Variable stringifyRegistry : RegistryDocument -> string.
Variable stringifyItem : ItemDocument -> string.

Import JsMap JsMapFacts.

Lemma append_cancel_r (a b s : string) : (a ++ s = b ++ s)%string -> a = b.
Proof.
  revert b. induction a as [|c a IH]; intros [|d b] H; simpl in H.
  - reflexivity.
  - apply (f_equal String.length) in H. simpl in H.
    rewrite PathFacts.length_append in H. lia.
  - apply (f_equal String.length) in H. simpl in H.
    rewrite PathFacts.length_append in H. lia.
  - injection H as -> H. f_equal. now apply IH.
Qed.

Lemma item_file_inj (n n' : string) :
  ("shadcn-registry/" ++ n ++ ".json" = "shadcn-registry/" ++ n' ++ ".json")%string ->
  n = n'.
Proof. intros H. simpl in H. injection H as H. now apply append_cancel_r in H. Qed.

(** X8.  After any sequence of [addItem] calls on a new registry,
    [generateBundle] emits the manifest and then one file for each item,
    named after it.  The file names are distinct exactly when no item is
    named ["index"]: the file of such an item has the name of the
    manifest. *)
Theorem generateBundle_file_names (name homepage : string) (calls : list RegistryItem) :
  let registry := fold_left addItem calls (newRegistryImpl name homepage) in
  let names := map fileName (generateBundle stringifyRegistry stringifyItem registry) in
  names = "shadcn-registry/index.json"%string
          :: map (fun n => "shadcn-registry/" ++ n ++ ".json")%string
               (fold_left JsSet.add (map item_name calls) []) /\
  (NoDup names <-> ~ In "index"%string (map item_name calls)).
Proof.
  intros registry names.
  assert (Hkeyed : forall k item, In (k, item) (itemsMap registry) -> k = item_name item).
  { apply keyed_by_name. intros k item []. }
  assert (Hnames : map item_name (items registry) =
                   fold_left JsSet.add (map item_name calls) []).
  { unfold items. rewrite names_are_keys by assumption.
    unfold registry. now rewrite keys_added. }
  assert (E : names = "shadcn-registry/index.json"%string
                      :: map (fun n => "shadcn-registry/" ++ n ++ ".json")%string
                           (fold_left JsSet.add (map item_name calls) [])).
  { unfold names, generateBundle. simpl. f_equal.
    rewrite <- Hnames, !map_map. reflexivity. }
  split; [exact E|]. rewrite E.
  assert (Hnd : NoDup (fold_left JsSet.add (map item_name calls) []))
    by (apply JsSetFacts.NoDup_fold_add; constructor).
  split.
  - intros H Hin. inversion H as [|? ? Hnot _]; subst. apply Hnot.
    apply in_map_iff. exists "index"%string. split; [reflexivity|].
    apply JsSetFacts.In_fold_add. auto.
  - intros Hnot. constructor.
    + intros Hin. apply in_map_iff in Hin as [n [Hn Hin]].
      apply (item_file_inj n "index") in Hn. subst n.
      apply JsSetFacts.In_fold_add in Hin as [[]|Hin]. contradiction.
    + apply NoDup_map_NoDup_ForallPairs; [|assumption].
      intros a b _ _. apply item_file_inj.
Qed.
End GenerateBundleFacts.

(** *** Names and local paths of modules below the project root *)

Section NamesAndPaths.
Variable cwd : string.
Variable kebabCase : string -> string.
Variable fileURLToPath_URL : string -> option string.

Local Abbreviation itemName := (getRegistryItemName cwd kebabCase fileURLToPath_URL).
Local Abbreviation localPath := (getLocalFilePath cwd fileURLToPath_URL).

Import Path PathFacts.

(** [parse] of a relative path made of segments. *)
Lemma parse_segments (dirs : list string) (file : string) :
  Forall (fun s => isSegment s = true) dirs -> isSegment file = true ->
  parse (join_slash (dirs ++ [file])) =
    {| dir := join_slash dirs; base := file;
       ext := snd (split_ext file); name := fst (split_ext file) |}.
Proof.
  intros Hd Hf. destruct dirs as [|d dirs]; [now apply parse_segment|].
  unfold parse.
  rewrite split_join; [|destruct dirs; discriminate|].
  - rewrite rev_app_distr. simpl rev at 1. cbn [app drop_empty_front].
    pose proof (isSegment_inv _ Hf) as [Hf0 _]. apply String.eqb_neq in Hf0.
    rewrite Hf0, rev_involutive.
    pose proof (join_slash_nonempty (d :: dirs)) as Hne.
    apply String.eqb_neq in Hne; [|discriminate|assumption].
    now rewrite Hne, andb_false_r.
  - apply Forall_app. split; [assumption | now constructor].
Qed.

(** Only the first separator of a directory path is removed. *)
Lemma remove_first_slash_join (d : string) (ds : list string) :
  slashFree d = true ->
  remove_first_slash (join_slash (d :: ds)) = (d ++ join_slash ds)%string.
Proof.
  intros Hd. destruct ds as [|d2 ds].
  - change (join_slash [d]) with d. change (join_slash []) with ""%string.
    rewrite append_nil_r. now apply remove_first_slash_slashFree.
  - change (join_slash (d :: d2 :: ds))
      with (d ++ String slash (join_slash (d2 :: ds)))%string.
    induction d as [|c d IH]; simpl; [reflexivity|].
    simpl in Hd. apply andb_true_iff in Hd as [Hc Hd]. apply negb_true_iff in Hc.
    unfold slash in *. rewrite Hc. now rewrite IH.
Qed.

(** X10.  The name of a module below the matched root.  A module right
    below the root is named by its file name without the extension.  A
    module in a directory below the root is named by the path of that
    directory with its first separator removed, and by nothing else: the
    file name plays no part, and a second directory level is glued to the
    first. *)
Theorem item_name_below_root (segs below dirs : list string)
  (file registryItemType id : string) :
  Forall (fun s => isSegment s = true) segs ->
  Forall (fun s => isSegment s = true) below ->
  Forall (fun s => isSegment s = true) dirs ->
  isSegment file = true ->
  below <> [] -> split_slash registryItemType = below ->
  endsWithSlash registryItemType = false ->
  id = absolutePath ((segs ++ below) ++ dirs ++ [file]) ->
  fileURLToPath_URL id = Some id ->
  itemName id (absolutePath segs) registryItemType =
    Ok (kebabCase match dirs with
                  | [] => fst (split_ext file)
                  | d :: ds => (d ++ join_slash ds)%string
                  end).
Proof.
  intros Hs Hb Hd Hf Hne Hsplit Hend Hid Hurl.
  rewrite (itemName_relative cwd kebabCase fileURLToPath_URL segs below (dirs ++ [file])
             registryItemType id); try assumption.
  - rewrite parse_segments by assumption. cbn [dir name Path.name Path.dir].
    destruct dirs as [|d ds]; [reflexivity|].
    inversion Hd as [|? ? Hd1 _]; subst.
    apply isSegment_inv in Hd1 as [Hd0 [_ [_ Hfree]]].
    rewrite remove_first_slash_join by assumption.
    replace (d ++ join_slash ds =? "")%string with false; [reflexivity|].
    symmetry. apply String.eqb_neq. destruct d; [contradiction | discriminate].
  - apply Forall_app. split; [assumption | now constructor].
Qed.

Lemma endsWithSlash_segment (f : string) : slashFree f = true -> endsWithSlash f = false.
Proof.
  induction f as [|c f IH]; [reflexivity|]. simpl. intros H.
  apply andb_true_iff in H as [Hc Hf]. apply negb_true_iff in Hc.
  destruct f; [exact Hc | now apply IH].
Qed.

Lemma endsWithSlash_join (rest : list string) :
  Forall (fun s => isSegment s = true) rest -> endsWithSlash (join_slash rest) = false.
Proof.
  induction rest as [|x rest IH]; intros H; [reflexivity|].
  inversion H as [|? ? Hx Hrest]; subst.
  pose proof (isSegment_inv _ Hx) as [_ [_ [_ Hfree]]].
  destruct rest as [|y rest]; [now apply endsWithSlash_segment|].
  change (join_slash (x :: y :: rest)) with (x ++ String slash (join_slash (y :: rest)))%string.
  rewrite endsWithSlash_app.
  - change (String slash (join_slash (y :: rest)))
      with ("/" ++ join_slash (y :: rest))%string.
    rewrite endsWithSlash_app; [now apply IH|].
    now apply join_slash_nonempty.
  - discriminate.
Qed.

(** X11.  The local path of a module below the project root is its path
    relative to the root: it is not absolute, it does not start above the
    root, and joined to the root it gives the module back. *)
Theorem local_path_round_trip (segs rest : list string) (id : string) :
  Forall (fun s => isSegment s = true) segs ->
  Forall (fun s => isSegment s = true) rest ->
  rest <> [] ->
  id = absolutePath (segs ++ rest) ->
  fileURLToPath_URL id = Some id ->
  localPath id (absolutePath segs) = Ok (join_slash rest) /\
  isAbsolute (join_slash rest) = false /\
  split_slash (join_slash rest) = rest /\
  join (absolutePath segs) (join_slash rest) = id.
Proof.
  intros Hs Hr Hne -> Hurl. split; [|split; [|split]].
  - unfold getLocalFilePath, getRegistryItemPath. rewrite Hurl. simpl.
    now rewrite relative_below.
  - destruct rest as [|x rest]; [congruence|].
    inversion Hr as [|? ? Hx _]; subst.
    pose proof (isAbsolute_segment _ Hx) as Habs.
    destruct rest; [exact Habs|].
    change (join_slash (x :: s :: rest)) with (x ++ String slash (join_slash (s :: rest)))%string.
    apply isSegment_inv in Hx as [Hx0 _].
    destruct x; [contradiction|].
    unfold isAbsolute, startsWith in *. cbn [prefix append] in *.
    destruct (ascii_dec "/" a); [|reflexivity]. destruct x; discriminate Habs.
  - now apply split_join.
  - apply join_absolutePath; try assumption.
    + now apply split_join.
    + now apply endsWithSlash_join.
Qed.
End NamesAndPaths.

(** *** Loading the virtual module *)

Section Load.
Variable resolveCustom : string -> bool -> option ResolvedId.
Variable stat : string -> option Stats.
Variable glob : list string -> list string -> list string.

Local Abbreviation resolveAliases := (resolveShadcnAliases resolveCustom stat glob).
Local Abbreviation resolveEntries := (resolveShadcnEntries resolveCustom stat glob).
Local Abbreviation virtualId := SHADCN_REGISTRY_VIRTUAL_MODULE_ID.

Import JsMap JsMapFacts.

(** The alias of a name, among the entries of the configuration. *)
Ltac alias_entry :=
  unfold aliasEntries; simpl In;
  split;
  [ intros H; repeat (destruct H as [H|H]); try discriminate H; try contradiction;
    now injection H
  | intros ->; auto 6 ].

(** An alias gets an entry when it resolves, and only then. *)
Lemma resolveAliases_keys (entries : list (string * string)) :
  forall (acc acc' : list (string * Pattern)),
    resolveAliases entries acc = Resolved acc' ->
    forall n, In n (map fst acc') <->
              In n (map fst acc) \/
              exists alias, In (n, alias) entries /\
                            resolveCustom alias (resolvesDir n) <> None.
Proof.
  induction entries as [|[name alias] entries IH]; simpl; intros acc acc' H n.
  - injection H as <-. split; [auto | intros [?|[alias [[] _]]]; assumption].
  - destruct (resolveCustom alias (resolvesDir name)) as [resolvedId|] eqn:Hres.
    + destruct (stat (resolved_id resolvedId)) as [pathStats|]; simpl in H; [|discriminate].
      rewrite (IH _ _ H n), map_app, in_app_iff. simpl. split.
      * intros [[Hn|[<-|[]]]|[a [Hin Ha]]]; [auto| |].
        -- right. exists alias. split; [auto | congruence].
        -- right. exists a. auto.
      * intros [Hn|[a [[[= <- <-]|Hin] Ha]]]; [auto|auto|]. right. eauto.
    + simpl in H. rewrite (IH _ _ H n). split.
      * intros [Hn|[a [Hin Ha]]]; [auto|]. right. exists a. auto.
      * intros [Hn|[a [[[= <- <-]|Hin] Ha]]]; [auto|congruence|]. right. eauto.
Qed.

(** The resolution of the aliases fails only where [stat] rejects the
    path an alias resolved to. *)
Lemma resolveAliases_Rejected (entries : list (string * string)) :
  forall (acc : list (string * Pattern)) (e : hookError),
    resolveAliases entries acc = Rejected e ->
    e = StatRejected /\
    exists n alias resolvedId,
      In (n, alias) entries /\
      resolveCustom alias (resolvesDir n) = Some resolvedId /\
      stat (resolved_id resolvedId) = None.
Proof.
  induction entries as [|[name alias] entries IH]; simpl; intros acc e H; [discriminate|].
  destruct (resolveCustom alias (resolvesDir name)) as [resolvedId|] eqn:Hres.
  - destruct (stat (resolved_id resolvedId)) as [pathStats|] eqn:Hstat; simpl in H.
    + apply IH in H as [-> [n [a [r [Hin H]]]]]. split; [reflexivity|].
      exists n, a, r. auto.
    + injection H as <-. split; [reflexivity|]. exists name, alias, resolvedId. auto.
  - simpl in H. apply IH in H as [-> [n [a [r [Hin H]]]]]. split; [reflexivity|].
    exists n, a, r. auto.
Qed.

(** X12.  [load] of the virtual module reads the entries of the aliases
    [components], [composables], [lib] and [utils], and throws a
    [TypeError] when one of them has none, which is the case exactly when
    that alias did not resolve at [buildStart]: an alias that does not
    resolve is left out without an error there.  The alias [ui] is not
    read.  [buildStart] itself rejects only where [stat] rejects the path
    an alias resolved to.  For any other module [load] returns nothing. *)
Theorem load_needs_resolved_aliases (aliases : ShadcnComponentAliases) :
  match resolveEntries aliases with
  | Resolved shadcnEntries =>
      (forall n, get shadcnEntries n <> None <->
         exists alias, In (n, alias) (aliasEntries aliases) /\
                       resolveCustom alias (resolvesDir n) <> None) /\
      (load shadcnEntries virtualId = Rejected UndefinedProperty <->
         resolveCustom (alias_components aliases) true = None \/
         resolveCustom (alias_composables aliases) true = None \/
         resolveCustom (alias_lib aliases) true = None \/
         resolveCustom (alias_utils aliases) false = None) /\
      ((exists r, load shadcnEntries virtualId = Resolved (Some r)) <->
         resolveCustom (alias_components aliases) true <> None /\
         resolveCustom (alias_composables aliases) true <> None /\
         resolveCustom (alias_lib aliases) true <> None /\
         resolveCustom (alias_utils aliases) false <> None) /\
      (forall moduleId, moduleId <> virtualId ->
         load shadcnEntries moduleId = Resolved None)
  | Rejected e =>
      e = StatRejected /\
      exists n alias resolvedId,
        In (n, alias) (aliasEntries aliases) /\
        resolveCustom alias (resolvesDir n) = Some resolvedId /\
        stat (resolved_id resolvedId) = None
  end.
Proof.
  unfold resolveShadcnEntries.
  destruct (resolveAliases (aliasEntries aliases) []) as [acc|e] eqn:Hacc; simpl.
  - assert (Hkeys : forall n, get (of_entries acc) n <> None <->
              exists alias, In (n, alias) (aliasEntries aliases) /\
                            resolveCustom alias (resolvesDir n) <> None).
    { intros n. pose proof (resolveAliases_keys _ _ _ Hacc n) as Hn.
      rewrite <- of_entries_keys in Hn. rewrite In_keys_get in Hn.
      split.
      - intros Hget. destruct (proj1 Hn) as [[]|Hex]; [|exact Hex].
        destruct (get (of_entries acc) n); [eauto | congruence].
      - intros Hex. destruct (proj2 Hn (or_intror Hex)) as [v ->]. discriminate. }
    assert (Hmiss : forall n alias,
              (forall a, In (n, a) (aliasEntries aliases) <-> a = alias) ->
              (get (of_entries acc) n = None <->
               resolveCustom alias (resolvesDir n) = None)).
    { intros n alias Hin. split.
      - intros Hnone. destruct (resolveCustom alias (resolvesDir n)) eqn:E; [|reflexivity].
        exfalso. apply (proj2 (Hkeys n)); [|exact Hnone].
        exists alias. split; [now apply Hin | congruence].
      - intros Hnone. destruct (get (of_entries acc) n) eqn:E; [|reflexivity].
        exfalso. destruct (proj1 (Hkeys n)) as [a [Ha Hres]]; [congruence|].
        apply Hin in Ha. subst a. exact (Hres Hnone). }
    assert (Hc := Hmiss "components" (alias_components aliases)).
    assert (Ho := Hmiss "composables" (alias_composables aliases)).
    assert (Hl := Hmiss "lib" (alias_lib aliases)).
    assert (Hu := Hmiss "utils" (alias_utils aliases)).
    lapply Hc; [clear Hc; intros Hc | intros a; alias_entry].
    lapply Ho; [clear Ho; intros Ho | intros a; alias_entry].
    lapply Hl; [clear Hl; intros Hl | intros a; alias_entry].
    lapply Hu; [clear Hu; intros Hu | intros a; alias_entry].
    change (resolvesDir "components") with true in Hc.
    change (resolvesDir "composables") with true in Ho.
    change (resolvesDir "lib") with true in Hl.
    change (resolvesDir "utils") with false in Hu.
    split; [exact Hkeys|].
    assert (Hload : load (of_entries acc) virtualId =
              hookBind (entriesOf (of_entries acc) "components") (fun components =>
              hookBind (entriesOf (of_entries acc) "composables") (fun composables =>
              hookBind (entriesOf (of_entries acc) "lib") (fun lib =>
              hookBind (entriesOf (of_entries acc) "utils") (fun utils =>
                Resolved
                  (Some {| moduleType := "js";
                           load_code :=
                             (newline ++ spaces 12
                              ++ String.concat newline
                                   (map importLine
                                      (components ++ composables ++ lib ++ utils))
                              ++ newline ++ spaces 10)%string |})))))).
    { unfold load. now rewrite String.eqb_refl. }
    split; [|split].
    + rewrite Hload. unfold entriesOf. rewrite <- Hc, <- Ho, <- Hl, <- Hu.
      destruct (get (of_entries acc) "components"); simpl; [|tauto].
      destruct (get (of_entries acc) "composables"); simpl; [|tauto].
      destruct (get (of_entries acc) "lib"); simpl; [|tauto].
      destruct (get (of_entries acc) "utils"); simpl; [|tauto].
      split; [discriminate | intros [H|[H|[H|H]]]; discriminate].
    + rewrite Hload. unfold entriesOf.
      rewrite <- Hc, <- Ho, <- Hl, <- Hu.
      destruct (get (of_entries acc) "components"); simpl;
        [|split; [intros [r Hr]; discriminate | tauto]].
      destruct (get (of_entries acc) "composables"); simpl;
        [|split; [intros [r Hr]; discriminate | tauto]].
      destruct (get (of_entries acc) "lib"); simpl;
        [|split; [intros [r Hr]; discriminate | tauto]].
      destruct (get (of_entries acc) "utils"); simpl;
        [|split; [intros [r Hr]; discriminate | tauto]].
      split; [intros _; repeat split; discriminate | eauto].
    + intros moduleId Hne. unfold load.
      replace (virtualId =? moduleId) with false; [reflexivity|].
      symmetry. apply String.eqb_neq. congruence.
  - exact (resolveAliases_Rejected _ _ _ Hacc).
Qed.
End Load.

(** *** The patterns of a resolved alias *)

Section AliasPatterns.
Variable resolveCustom : string -> bool -> option ResolvedId.
Variable stat : string -> option Stats.
Variable glob : list string -> list string -> list string.

Local Abbreviation resolveEntry := (resolveShadcnEntry resolveCustom stat glob).

Import Path PathFacts.

Lemma beforeLastSeparator_app (x s pre : string) :
  beforeLastSeparator s = Some pre ->
  beforeLastSeparator (x ++ s) = Some (x ++ pre)%string.
Proof. intros H. induction x as [|c x IH]; simpl; [exact H | now rewrite IH]. Qed.

Lemma beforeLastSeparator_slashFree (f : string) :
  slashFree f = true -> beforeLastSeparator f = None.
Proof.
  induction f as [|c f IH]; [reflexivity|]. simpl. intros H.
  apply andb_true_iff in H as [Hc Hf]. apply negb_true_iff in Hc.
  rewrite (IH Hf). unfold slash in *. now rewrite Hc.
Qed.

Lemma hasNonSlash_segment (f : string) : isSegment f = true -> hasNonSlash f = true.
Proof.
  intros H. apply isSegment_inv in H as [H0 [_ [_ Hf]]].
  destruct f as [|c f]; [contradiction|]. simpl in *.
  apply andb_true_iff in Hf as [Hc _]. now rewrite Hc.
Qed.

Lemma hasNonSlash_app (a b : string) : hasNonSlash a = true -> hasNonSlash (a ++ b) = true.
Proof.
  induction a as [|c a IH]; simpl; [discriminate|].
  destruct (negb (Ascii.eqb c slash)); simpl; auto.
Qed.

Lemma join_slash_cons (x y : string) (l : list string) :
  join_slash (x :: y :: l) = (x ++ String slash (join_slash (y :: l)))%string.
Proof. reflexivity. Qed.

(** The directory part of a relative path made of segments. *)
Lemma beforeLastSeparator_join (l : list string) (f : string) :
  l <> [] -> Forall (fun s => isSegment s = true) l -> isSegment f = true ->
  beforeLastSeparator (join_slash (l ++ [f])) = Some (join_slash l).
Proof.
  intros Hne Hl Hf. induction l as [|x l IH]; [congruence|]. clear Hne.
  inversion Hl as [|? ? Hx Hl']; subst.
  destruct l as [|y l].
  - change (join_slash ([x] ++ [f])) with (x ++ String slash f)%string.
    change (join_slash [x]) with x.
    rewrite (beforeLastSeparator_app x (String slash f) ""); [now rewrite append_nil_r|].
    simpl. apply isSegment_inv in Hf as Hf'. destruct Hf' as [_ [_ [_ Hfree]]].
    rewrite (beforeLastSeparator_slashFree f Hfree), (hasNonSlash_segment f Hf).
    reflexivity.
  - change ((x :: y :: l) ++ [f]) with (x :: y :: (l ++ [f])).
    rewrite !join_slash_cons.
    apply beforeLastSeparator_app.
    apply (beforeLastSeparator_app (String slash "")).
    apply IH; [discriminate | assumption].
Qed.

(** [dirname] of a file below a directory is the directory. *)
Lemma dirname_absolutePath (segs : list string) (file : string) :
  segs <> [] -> Forall (fun s => isSegment s = true) segs -> isSegment file = true ->
  dirname (absolutePath (segs ++ [file])) = absolutePath segs.
Proof.
  intros Hne Hs Hf. unfold absolutePath.
  change (dirname (String slash (join_slash (segs ++ [file])))
          = String slash (join_slash segs)).
  unfold dirname. cbv iota beta zeta.
  rewrite beforeLastSeparator_join by assumption.
  pose proof (join_slash_nonempty segs Hne Hs) as Hne'.
  apply String.eqb_neq in Hne'. rewrite Hne', andb_false_r. reflexivity.
Qed.

(** [join] with two or three arguments that are not empty. *)
Lemma joinPath_two (a b : string) : a <> "" -> b <> "" -> joinPath [a; b] = join a b.
Proof.
  intros Ha Hb. unfold joinPath, join. simpl filter.
  apply String.eqb_neq in Ha, Hb. now rewrite Ha, Hb.
Qed.

Lemma joinPath_three (a b c : string) :
  a <> "" -> b <> "" -> c <> "" ->
  joinPath [a; b; c] = join a (b ++ String slash c).
Proof.
  intros Ha Hb Hc. unfold joinPath, join. simpl filter.
  apply String.eqb_neq in Ha, Hb, Hc. rewrite Ha, Hb, Hc. simpl negb. cbv iota.
  replace (b ++ String slash c =? "")%string with false
    by (symmetry; apply String.eqb_neq; destruct b; discriminate).
  reflexivity.
Qed.

Lemma absolutePath_nonempty (segs : list string) : absolutePath segs <> ""%string.
Proof. discriminate. Qed.

(** X13.  The patterns of an alias that resolves.  For an alias other
    than [utils] that resolves to a directory, or to a file right below
    it, the candidates are the files of that directory and the [index]
    files of its sub-directories, with one of five extensions, together
    with everything below the alias itself; the [index] file of the
    directory is ignored.  For [utils] the candidates are the alias and
    the resolved path themselves, and nothing is ignored.  The entries
    are what [glob] finds for these patterns. *)
Theorem alias_patterns (resolvedAliases : list (string * Pattern))
  (name alias : string) (resolvedId : ResolvedId) (pathStats : Stats)
  (segs : list string) :
  resolveCustom alias (resolvesDir name) = Some resolvedId ->
  stat (resolved_id resolvedId) = Some pathStats ->
  Forall (fun s => isSegment s = true) segs -> segs <> [] ->
  (isFile pathStats = false /\ resolved_id resolvedId = absolutePath segs) \/
  (isFile pathStats = true /\
   exists file, isSegment file = true /\
                resolved_id resolvedId = absolutePath (segs ++ [file])) ->
  (resolvesDir name = true -> alias <> ""%string ->
   let include :=
     [ join alias "**/*.{js,jsx,ts,tsx,vue}";
       absolutePath (segs ++ ["*.{js,jsx,ts,tsx,vue}"%string]);
       absolutePath (segs ++ ["*"; "index.{js,jsx,ts,tsx,vue}"]%string) ] in
   let ignore := [ absolutePath (segs ++ ["index.{js,jsx,ts,tsx,vue}"%string]) ] in
   resolveEntry resolvedAliases (name, alias) =
     Resolved (resolvedAliases
                 ++ [(name, {| pattern_entries := glob include ignore;
                               pattern_include := include;
                               pattern_ignore := ignore |})])) /\
  (resolvesDir name = false ->
   let include := [ joinPath [alias]; normalize (resolved_id resolvedId) ] in
   resolveEntry resolvedAliases (name, alias) =
     Resolved (resolvedAliases
                 ++ [(name, {| pattern_entries := glob include [];
                               pattern_include := include;
                               pattern_ignore := [] |})])).
Proof.
  intros Hres Hstat Hs Hne Hshape. split.
  - intros Hdir Halias include ignore.
    unfold resolveShadcnEntry. rewrite Hres, Hstat, Hdir. cbn [andb].
    assert (Hpath : (if isFile pathStats then dirname (resolved_id resolvedId)
                     else resolved_id resolvedId) = absolutePath segs).
    { destruct Hshape as [[-> ->]|[-> [file [Hf ->]]]]; [reflexivity|].
      now apply dirname_absolutePath. }
    rewrite Hpath.
    rewrite (joinPath_two alias) by (assumption || discriminate).
    rewrite (joinPath_two (absolutePath segs)) by discriminate.
    rewrite (joinPath_two (absolutePath segs)) by discriminate.
    rewrite (joinPath_three (absolutePath segs)) by discriminate.
    assert (Hjoin : forall (below : list string) (b : string),
              Forall (fun s => isSegment s = true) below -> below <> [] ->
              split_slash b = below -> endsWithSlash b = false ->
              join (absolutePath segs) b = absolutePath (segs ++ below))
      by (intros; now apply join_absolutePath).
    rewrite (Hjoin ["*.{js,jsx,ts,tsx,vue}"%string]),
            (Hjoin ["*"; "index.{js,jsx,ts,tsx,vue}"]%string),
            (Hjoin ["index.{js,jsx,ts,tsx,vue}"%string]);
      try reflexivity; try discriminate; repeat constructor.
  - intros Hdir include.
    unfold resolveShadcnEntry. rewrite Hres, Hstat, Hdir. cbn [andb].
    assert (Hjoin : joinPath [resolved_id resolvedId] = normalize (resolved_id resolvedId)).
    { unfold joinPath. simpl filter.
      destruct Hshape as [[_ E]|[_ [file [_ E]]]]; rewrite E; reflexivity. }
    now rewrite Hjoin.
Qed.
End AliasPatterns.

(** *** The cost of a walk *)

Section WalkerCost.
Import Ladder.

Lemma rung_inj (s s' : bool) (i j : nat) : rung s i = rung s' j -> s = s' /\ i = j.
Proof.
  unfold rung. intros H.
  destruct s, s'; simpl in H; injection H as H; try discriminate;
    apply index_key_inj in H; auto.
Qed.

Lemma ladder_lookup (n : nat) (s : bool) (i : nat) :
  i <= n ->
  getModuleInfo n (rung s i) = Some (Example.moduleInfo (rung s i) (imports_of n i) []).
Proof.
  intros Hi. unfold getModuleInfo, rung.
  destruct s; simpl append; cbv iota beta;
    unfold index_key at 1; rewrite DecimalString.NilEmpty.usu;
    cbv zeta; rewrite DecimalNat.Unsigned.of_to;
    fold (index_key i); rewrite String.eqb_refl;
    apply Nat.leb_le in Hi; rewrite Hi; reflexivity.
Qed.

(** Every module of rung [k]. *)
Local Abbreviation onRung :=
  (fun (k : nat) (F : list string) => forall x, In x F -> exists s, x = rung s k).

Lemma ladder_expand (n k : nat) (F : list string) :
  k <= n -> onRung k F ->
  expandFrontier (getModuleInfo n) F = Ok (flat_map (fun _ => imports_of n k) F).
Proof.
  intros Hk HF. unfold expandFrontier.
  assert (H : mapM (moduleInfoOrThrow (getModuleInfo n)) F =
              Ok (map (fun x => Example.moduleInfo x (imports_of n k) []) F)).
  { induction F as [|x F IH]; [reflexivity|]. simpl.
    destruct (HF x (or_introl eq_refl)) as [s ->].
    unfold moduleInfoOrThrow at 1. rewrite ladder_lookup by assumption. simpl.
    rewrite IH by (intros y Hy; apply HF; now right). reflexivity. }
  rewrite H. simpl. f_equal. clear. induction F as [|x F IH]; [reflexivity|].
  cbn [map flat_map]. rewrite IH. unfold walkerImportedIds, Example.moduleInfo.
  cbn [importedIds dynamicallyImportedIds]. now rewrite app_nil_r.
Qed.

Lemma filter_all {A} (f : A -> bool) (l : list A) :
  (forall x, In x l -> f x = true) -> filter f l = l.
Proof.
  induction l as [|x l IH]; intros H; [reflexivity|]. simpl.
  rewrite (H x (or_introl eq_refl)), IH; [reflexivity|]. intros y Hy. apply H. now right.
Qed.

Lemma length_flat_map_const {A B} (l : list A) (c : list B) :
  length (flat_map (fun _ => c) l) = length l * length c.
Proof. induction l as [|x l IH]; [reflexivity|]. simpl. rewrite length_app, IH. lia. Qed.

(** The frontier doubles from rung to rung. *)
Lemma ladder_frontiers (n : nat) :
  forall (j k : nat) (F : list string) (hoisted : JsSet.t) (fuel : nat),
    k + j <= n -> j < fuel -> F <> [] -> onRung k F ->
    (forall h, In h hoisted -> exists s i, i <= k /\ h = rung s i) ->
    length (nth j (walkFrontiers (getModuleInfo n) fuel F hoisted) []) = length F * 2 ^ j.
Proof.
  induction j as [|j IH]; intros k F hoisted fuel Hk Hfuel Hne HF Hh.
  - destruct F as [|x F]; [congruence|]. destruct fuel as [|fuel]; [lia|].
    cbn [walkFrontiers]. destruct (expandFrontier _ _); simpl; lia.
  - destruct F as [|x F]; [congruence|]. destruct fuel as [|fuel]; [lia|].
    cbn [walkFrontiers]. rewrite (ladder_expand n k) by (assumption || lia).
    assert (Himp : imports_of n k = [rung true (S k); rung false (S k)]).
    { unfold imports_of. replace (k <? n)%nat with true; [reflexivity|].
      symmetry. apply Nat.ltb_lt. lia. }
    rewrite Himp.
    set (ids := flat_map (fun _ => [rung true (S k); rung false (S k)]) (x :: F)).
    assert (Hids : onRung (S k) ids).
    { intros y Hy. apply in_flat_map in Hy as [_ [_ [<-|[<-|[]]]]]; eauto. }
    rewrite filter_all.
    + cbn [nth]. rewrite (IH (S k)); try lia; try assumption.
      * unfold ids. rewrite length_flat_map_const. simpl length. simpl Nat.pow. lia.
      * unfold ids. simpl. discriminate.
      * intros h Hin. apply JsSetFacts.In_fold_add in Hin as [Hin|Hin].
        -- destruct (Hh h Hin) as [s [i [Hi ->]]]. exists s, i. split; [lia | reflexivity].
        -- destruct (Hids h Hin) as [s ->]. exists s, (S k). split; [lia | reflexivity].
    + intros y Hy. destruct (Hids y Hy) as [s ->].
      destruct (JsSet.has hoisted (rung s (S k))) eqn:E; [|reflexivity].
      apply JsSetFacts.has_In in E. destruct (Hh _ E) as [s' [i [Hi Heq]]].
      apply rung_inj in Heq as [_ Heq]. lia.
Qed.

Lemma ladder_finite (n : nat) (x : string) :
  getModuleInfo n x <> None -> In x (modules n).
Proof.
  unfold getModuleInfo. destruct x as [|c rest]; [congruence|].
  destruct (DecimalString.NilEmpty.uint_of_string rest) as [d|]; [|congruence].
  cbv zeta. set (i := Nat.of_uint d).
  destruct (Ascii.eqb c "a" || Ascii.eqb c "b") eqn:Ec; simpl; [|congruence].
  destruct (rest =? index_key i) eqn:Er; simpl; [|congruence].
  destruct (i <=? n)%nat eqn:Ei; [|congruence]. intros _.
  apply String.eqb_eq in Er. apply Nat.leb_le in Ei.
  apply (proj2 (in_flat_map (fun i => [rung true i; rung false i]) (seq 0 (S n))
                  (String c rest))).
  exists i. split; [apply in_seq; lia|].
  apply orb_true_iff in Ec as [Ec|Ec]; apply Ascii.eqb_eq in Ec; subst c; rewrite Er;
    unfold rung; simpl; auto.
Qed.

Lemma last_cons_default {A} (l : list A) :
  forall (x d d' : A), last (x :: l) d = last (x :: l) d'.
Proof.
  induction l as [|y l IH]; intros x d d'; [reflexivity|].
  change (last (y :: l) d = last (y :: l) d'). apply IH.
Qed.

(** The frontiers listed are those of the walk: a walk that returns has
    gone through them and ended on the empty one. *)
Lemma walkFrontiers_end (info : string -> option ModuleInfo) (fuel : nat) :
  forall (toProcess : list string) (hoisted s : JsSet.t),
    walkLoop info fuel toProcess hoisted = Some (Ok s) ->
    hd [] (walkFrontiers info fuel toProcess hoisted) = toProcess /\
    last (walkFrontiers info fuel toProcess hoisted) toProcess = [].
Proof.
  induction fuel as [|fuel IH]; intros toProcess hoisted s H.
  - destruct toProcess; simpl in H; [|discriminate]. auto.
  - destruct toProcess as [|p toProcess]; [auto|].
    cbn [walkLoop walkFrontiers] in *.
    destruct (expandFrontier info (p :: toProcess)) as [ids|e]; [|discriminate].
    split; [reflexivity|].
    destruct (IH _ _ _ H) as [Hhd Hlast].
    destruct (walkFrontiers info fuel _ _) as [|F rest] eqn:E.
    + destruct (filter _ ids); destruct fuel; simpl in E; try discriminate;
        destruct (expandFrontier info _); discriminate.
    + change (last (F :: rest) (p :: toProcess) = []).
      rewrite <- Hlast. apply last_cons_default.
Qed.

(** X14.  The walker does not remove duplicates from its frontier: the
    next frontier is filtered against what was hoisted before the round
    only.  On the ladder of [n + 1] rungs, a graph of [2 * (n + 1)]
    modules in which the two modules of a rung import the two modules of
    the next, the frontier of round [k] has [2 ^ k] members: the walk
    looks up exponentially many identities in a graph of linearly many
    modules. *)
Theorem walker_frontier_doubles (n k fuel : nat) :
  k <= n -> k < fuel ->
  length (nth k (walkFrontiers (getModuleInfo n) fuel [rung true 0] JsSet.empty) [])
    = 2 ^ k /\
  (forall x, getModuleInfo n x <> None -> In x (modules n)) /\
  length (modules n) = 2 * (n + 1).
Proof.
  intros Hk Hfuel. split; [|split].
  - rewrite (ladder_frontiers n k 0).
    + simpl length. lia.
    + lia.
    + assumption.
    + discriminate.
    + intros x [<-|[]]. eauto.
    + intros h [].
  - apply ladder_finite.
  - unfold modules. rewrite (flat_map_constant_length (c := 2)) by reflexivity.
    rewrite length_seq. lia.
Qed.
End WalkerCost.

(** *** Instances *)

Lemma walker_outcome_witness :
  exists out,
    getHoistedImportedIds (Host.getModuleInfo Scenario.danglingGraph) 3
      SHADCN_REGISTRY_VIRTUAL_MODULE_ID = Some out /\
    match out with
    | Ok s =>
        forall v,
          v = SHADCN_REGISTRY_VIRTUAL_MODULE_ID \/
          reachable (Host.getModuleInfo Scenario.danglingGraph)
            SHADCN_REGISTRY_VIRTUAL_MODULE_ID v ->
          Host.getModuleInfo Scenario.danglingGraph v <> None
    | Throw e =>
        e = ModuleInfoNotFound /\
        exists v,
          (v = SHADCN_REGISTRY_VIRTUAL_MODULE_ID \/
           reachable (Host.getModuleInfo Scenario.danglingGraph)
             SHADCN_REGISTRY_VIRTUAL_MODULE_ID v) /\
          Host.getModuleInfo Scenario.danglingGraph v = None
    end.
Proof.
  apply (walker_outcome (Host.getModuleInfo Scenario.danglingGraph)
           (map id Scenario.danglingGraph) SHADCN_REGISTRY_VIRTUAL_MODULE_ID 3).
  - apply table_finite.
  - simpl. lia.
Defined.

Lemma table_id (graph : list ModuleInfo) (x : string) (moduleInfo : ModuleInfo) :
  Host.getModuleInfo graph x = Some moduleInfo -> id moduleInfo = x.
Proof. intros H. now apply table_lookup in H. Qed.

Lemma buildEnd_failures_witness :
  Host.build 5 Example.root [] Scenario.danglingGraph = Some (Throw ModuleInfoNotFound) /\
  ModuleInfoNotFound <> MissingRecord.
Proof.
  assert (H : Host.build 5 Example.root [] Scenario.danglingGraph
              = Some (Throw ModuleInfoNotFound)) by (vm_compute; reflexivity).
  split; [exact H|].
  exact (proj1 (buildEnd_failures Example.root Host.kebabCase Host.fileURLToPath_URL
                  (Host.isShadcnComponent Example.root) (Host.isComponent Example.root)
                  (Host.isComposable Example.root) (Host.isUtil Example.root)
                  (Host.resolve []) (Host.getModuleInfo Scenario.danglingGraph)
                  Example.root (table_id Scenario.danglingGraph) 5 ModuleInfoNotFound H)).
Defined.


Lemma item_name_below_root_witness :
  getRegistryItemName Example.root Host.kebabCase Host.fileURLToPath_URL
    Scenario.alertDialog Example.root uiComponentsDir = Ok "alertdialog".
Proof.
  apply (item_name_below_root Example.root Host.kebabCase Host.fileURLToPath_URL
           ["proj"] ["src"; "components"; "ui"] ["alert"; "dialog"] "index.ts"
           uiComponentsDir Scenario.alertDialog);
    try reflexivity; try discriminate; repeat constructor.
Defined.

Lemma local_path_round_trip_witness :
  getLocalFilePath Example.root Host.fileURLToPath_URL Example.format Example.root
    = Ok "src/components/card/format.ts" /\
  Path.isAbsolute "src/components/card/format.ts" = false /\
  Path.split_slash "src/components/card/format.ts"
    = ["src"; "components"; "card"; "format.ts"] /\
  Path.join Example.root "src/components/card/format.ts" = Example.format.
Proof.
  apply (local_path_round_trip Example.root Host.fileURLToPath_URL
           ["proj"] ["src"; "components"; "card"; "format.ts"] Example.format);
    try reflexivity; try discriminate; repeat constructor.
Defined.

Lemma load_needs_resolved_aliases_witness :
  exists shadcnEntries,
    resolveShadcnEntries Scenario.resolveCustom Scenario.stat Scenario.glob
      Scenario.aliases = Resolved shadcnEntries /\
    load shadcnEntries SHADCN_REGISTRY_VIRTUAL_MODULE_ID = Rejected UndefinedProperty.
Proof.
  destruct (resolveShadcnEntries Scenario.resolveCustom Scenario.stat Scenario.glob
              Scenario.aliases) as [shadcnEntries|e] eqn:H; [|vm_compute in H; discriminate].
  exists shadcnEntries. split; [reflexivity|].
  pose proof (load_needs_resolved_aliases Scenario.resolveCustom Scenario.stat
                Scenario.glob Scenario.aliases) as T.
  rewrite H in T. apply (proj1 (proj2 T)). right. left. reflexivity.
Defined.

Lemma alias_patterns_witness :
  resolveShadcnEntry Scenario.resolveCustom Scenario.stat Scenario.glob []
    ("lib", "@/lib")%string =
  Resolved
    [("lib"%string,
      {| pattern_entries := ["/proj/src/components/card/index.ts"%string];
         pattern_include :=
           ["@/lib/**/*.{js,jsx,ts,tsx,vue}";
            "/proj/src/lib/*.{js,jsx,ts,tsx,vue}";
            "/proj/src/lib/*/index.{js,jsx,ts,tsx,vue}"]%string;
         pattern_ignore := ["/proj/src/lib/index.{js,jsx,ts,tsx,vue}"%string] |})].
Proof.
  apply (proj1 (alias_patterns Scenario.resolveCustom Scenario.stat Scenario.glob []
                  "lib" "@/lib" (Example.resolved "/proj/src/lib/index.ts")
                  {| isFile := true |} ["proj"; "src"; "lib"]
                  eq_refl eq_refl
                  ltac:(repeat constructor) ltac:(discriminate)
                  (or_intror (conj eq_refl
                     (ex_intro _ "index.ts"%string (conj eq_refl eq_refl)))))).
  - reflexivity.
  - discriminate.
Defined.

Lemma walker_frontier_doubles_witness :
  length (nth 3 (walkFrontiers (Ladder.getModuleInfo 3) 5 [Ladder.rung true 0]
                   JsSet.empty) []) = 8.
Proof.
  apply (proj1 (walker_frontier_doubles 3 3 5 ltac:(lia) ltac:(lia))).
Defined.

(** A composable kept in [src/composables/index.ts] is named [index]: the
    file of its item has the name of the manifest. *)
Remark index_item_takes_the_name_of_the_manifest :
  forall (stringifyRegistry : RegistryDocument -> string)
         (stringifyItem : ItemDocument -> string),
  exists registry,
    Host.build 5 Example.root [] Scenario.indexGraph = Some (Ok registry) /\
    map fileName (generateBundle stringifyRegistry stringifyItem registry)
    = ["shadcn-registry/index.json"; "shadcn-registry/index.json"]%string.
Proof.
  intros stringifyRegistry stringifyItem.
  destruct (Host.build 5 Example.root [] Scenario.indexGraph) as [[registry|e]|] eqn:H;
    [|vm_compute in H; discriminate..].
  exists registry. split; [reflexivity|].
  vm_compute in H. injection H as <-. reflexivity.
Qed.
